(** * Resilient task execution layer of the AE automation system

    A shallow embedding of [ae_optimizations.py] and of
    [OptimizedOrchestrator] ([ae_automation_v2_optimized.py]).

    Modelling conventions.
    - Python floats (timestamps, delays, token counts) are exact rationals
      [Q]; equalities between computed quantities are stated with [==].
    - [time.time()] reads the clock of the [World]; [asyncio.sleep d]
      advances it by [d] when [d] is positive and is recorded in the
      journal; statements that do not await take no time.
    - Mutable objects are records passed in and returned, also on the
      exceptional path (Python keeps the mutation when an exception
      propagates).
    - [exn] stands for instances of Python's [Exception]. *)

From Stdlib Require Import QArith Qminmax Lqa ZArith List.
From stdpp Require Import list gmap strings.
Import ListNotations.

Open Scope string_scope.
Open Scope list_scope.
Open Scope Q_scope.

(** ** Exceptions, outcomes and the world *)

Inductive exn : Type :=
| Exception (msg : string)       (* raise Exception("...") *)
| TypeError (msg : string)       (* raise None *)
| ZeroDivisionError (msg : string)
| KeyError (key : string)
| OperationalError (msg : string) (* sqlite3.OperationalError *)
| ServiceError (msg : string).   (* whatever the awaited callable raises *)

Inductive Outcome (A : Type) : Type :=
| Ok (a : A)
| Raise (e : exn).
Arguments Ok {A} a.
Arguments Raise {A} e.

(** [str(e)] *)
Definition exn_str (e : exn) : string :=
  match e with
  | Exception m | TypeError m | ZeroDivisionError m
  | OperationalError m | ServiceError m => m
  | KeyError k => String.append "'" (String.append k "'")
  end.

Definition is_ok {A} (o : Outcome A) : bool :=
  match o with Ok _ => true | Raise _ => false end.

(** What the outside can observe of a run: sleeps and invocations of the
    awaited external callable, newest first. *)
Inductive Event : Type :=
| EvSleep (d : Q)
| EvInvoke (n : nat).

Record World : Type := mkWorld {
  now : Q;
  journal : list Event
}.

(** An awaitable that may raise. *)
Definition IO (A : Type) : Type := World -> Outcome A * World.

Definition ret {A} (a : A) : IO A := fun w => (Ok a, w).
Definition throw {A} (e : exn) : IO A := fun w => (Raise e, w).

(** [await asyncio.sleep(d)]; a delay that is not positive returns at
    once. *)
Definition sleep (d : Q) : IO unit :=
  fun w => (Ok tt, {| now := now w + (if Qlt_le_dec 0 d then d else 0);
                      journal := EvSleep d :: journal w |}).

Definition is_invoke (e : Event) : bool :=
  match e with EvInvoke _ => true | EvSleep _ => false end.

Definition invocations (w : World) : nat :=
  length (filter (fun e => is_invoke e = true) (journal w)).

(** An external callable given by its script: the outcome and the duration
    of its [n]-th invocation (counted over the whole run). *)
Definition invoke {A} (script : nat -> Outcome A * Q) : IO A :=
  fun w => let n := invocations w in
           let '(r, d) := script n in
           (r, {| now := now w + d; journal := EvInvoke n :: journal w |}).

(** ** PerformanceMonitor *)

Module PerformanceMonitor.

Record ApiCall : Type := mkApiCall {
  time : Q;
  response_ms : Q;
  success : bool
}.

Record t : Type := mk {
  window_size : nat;
  response_times : list Q;
  api_calls : list ApiCall;
  cache_hits : Z;
  cache_misses : Z;
  errors : list string
}.

Definition init (window_size : nat) : t :=
  {| window_size := window_size; response_times := []; api_calls := [];
     cache_hits := 0; cache_misses := 0; errors := [] |}.

(** [deque(maxlen=n).append(x)]: the oldest element falls out when full. *)
Definition deque_append {A} (maxlen : nat) (d : list A) (x : A) : list A :=
  let d' := d ++ [x] in drop (length d' - maxlen)%nat d'.

Definition record_request (self : t) (response_time : Q) (ok : bool)
    (timestamp : Q) : t :=
  {| window_size := window_size self;
     response_times :=
       deque_append (window_size self) (response_times self) response_time;
     api_calls :=
       deque_append (window_size self) (api_calls self)
         {| time := timestamp; response_ms := response_time * 1000;
            success := ok |};
     cache_hits := cache_hits self;
     cache_misses := cache_misses self;
     errors := errors self |}.

Definition record_cache_hit (self : t) : t :=
  {| window_size := window_size self;
     response_times := response_times self;
     api_calls := api_calls self;
     cache_hits := (cache_hits self + 1)%Z;
     cache_misses := cache_misses self;
     errors := errors self |}.

Definition record_cache_miss (self : t) : t :=
  {| window_size := window_size self;
     response_times := response_times self;
     api_calls := api_calls self;
     cache_hits := cache_hits self;
     cache_misses := (cache_misses self + 1)%Z;
     errors := errors self |}.

Definition sumQ (l : list Q) : Q := fold_right Qplus 0 l.

(** The entry ['avg_response_time'] of the [get_stats] dictionary. *)
Definition avg_response_time (self : t) : Q :=
  match response_times self with
  | [] => 0
  | _ :: _ => sumQ (response_times self)
              / inject_Z (Z.of_nat (length (response_times self)))
  end.

End PerformanceMonitor.

(** ** RateLimiter (token bucket) *)

Module RateLimiter.

Record t : Type := mk {
  rate : Z;
  per : Z;
  allowance : Q;
  last_check : Q
}.

(** [__init__(rate, per)], run at time [t0]. *)
Definition init (rate per : Z) (t0 : Q) : t :=
  {| rate := rate; per := per; allowance := inject_Z rate; last_check := t0 |}.

Definition set_last_check (self : t) (c : Q) : t :=
  {| rate := rate self; per := per self;
     allowance := allowance self; last_check := c |}.

Definition set_allowance (self : t) (a : Q) : t :=
  {| rate := rate self; per := per self;
     allowance := a; last_check := last_check self |}.

(** [self.allowance += time_passed * (self.rate / self.per)], then the cap
    at [self.rate]. *)
Definition replenish (self : t) (time_passed : Q) : Q :=
  let a := allowance self
           + time_passed * (inject_Z (rate self) / inject_Z (per self)) in
  if Qlt_le_dec (inject_Z (rate self)) a then inject_Z (rate self) else a.

Definition sleep_time (self : t) (a : Q) : Q :=
  (1 - a) * (inject_Z (per self) / inject_Z (rate self)).

(** [acquire]: the whole body runs under [self.lock], so it is one step
    for every other caller; the sleep happens inside it.  The two true
    divisions raise when the divisor is 0. *)
Definition acquire (self : t) (w : World) : Outcome unit * t * World :=
  let current := now w in
  let time_passed := current - last_check self in
  let self1 := set_last_check self current in
  if Z.eqb (per self1) 0 then
    (Raise (ZeroDivisionError "division by zero"), self1, w)
  else
    let a := replenish self1 time_passed in
    let self2 := set_allowance self1 a in
    if Qlt_le_dec a 1 then
      if Z.eqb (rate self2) 0 then
        (Raise (ZeroDivisionError "division by zero"), self2, w)
      else
        let '(_, w') := sleep (sleep_time self2 a) w in
        (Ok tt, set_allowance self2 (1 - 1), w')
    else
      (Ok tt, set_allowance self2 (a - 1), w).

(** Successive [acquire] calls; between two calls the clock moves by the
    given gap (whatever else the caller does in between). *)
Definition pass (gap : Q) (w : World) : World :=
  {| now := now w + gap; journal := journal w |}.

Fixpoint acquire_all (self : t) (w : World) (gaps : list Q)
    : list (Outcome unit * t * World) :=
  match gaps with
  | [] => []
  | g :: gaps' =>
      let '(o, self', w') := acquire self (pass g w) in
      (o, self', w') :: acquire_all self' w' gaps'
  end.

End RateLimiter.

(** ** CircuitBreaker *)

Module CircuitBreaker.

Inductive State : Type := closed | open | half_open.

Record t : Type := mk {
  failure_threshold : Z;
  recovery_timeout : Q;
  failure_count : Z;
  last_failure_time : option Q;
  state : State
}.

Definition init (failure_threshold : Z) (recovery_timeout : Q) : t :=
  {| failure_threshold := failure_threshold;
     recovery_timeout := recovery_timeout;
     failure_count := 0; last_failure_time := None; state := closed |}.

Definition set_state (self : t) (s : State) : t :=
  {| failure_threshold := failure_threshold self;
     recovery_timeout := recovery_timeout self;
     failure_count := failure_count self;
     last_failure_time := last_failure_time self;
     state := s |}.

Definition State_eqb (a b : State) : bool :=
  match a, b with
  | closed, closed | open, open | half_open, half_open => true
  | _, _ => false
  end.

(** [is_open]; [if self.last_failure_time:] is false for [None] and for
    the float [0.0]. *)
Definition is_open (self : t) (current : Q) : bool * t :=
  match state self with
  | open =>
      match last_failure_time self with
      | Some lft =>
          if Qeq_bool lft 0 then (true, self)
          else if Qlt_le_dec (recovery_timeout self) (current - lft)
               then (false, set_state self half_open)
               else (true, self)
      | None => (true, self)
      end
  | _ => (false, self)
  end.

(** The [try] branch after [func] returned. *)
Definition on_success (self : t) : t :=
  if State_eqb (state self) half_open then
    {| failure_threshold := failure_threshold self;
       recovery_timeout := recovery_timeout self;
       failure_count := 0;
       last_failure_time := last_failure_time self;
       state := closed |}
  else self.

(** The [except] branch, entered at time [current]. *)
Definition on_failure (self : t) (current : Q) : t :=
  let n := (failure_count self + 1)%Z in
  {| failure_threshold := failure_threshold self;
     recovery_timeout := recovery_timeout self;
     failure_count := n;
     last_failure_time := Some current;
     state := if (failure_threshold self <=? n)%Z then open else state self |}.

Definition open_message : string :=
  "Circuit breaker is OPEN - service unavailable".

Definition call {A} (self : t) (func : IO A) (w : World)
    : Outcome A * t * World :=
  let '(is_op, self1) := is_open self (now w) in
  if is_op then (Raise (Exception open_message), self1, w)
  else
    match func w with
    | (Ok result, w') => (Ok result, on_success self1, w')
    | (Raise e, w') => (Raise e, on_failure self1 (now w'), w')
    end.

(** Successive calls through one breaker. *)
Fixpoint call_all {A} (self : t) (funcs : list (IO A)) (w : World)
    : list (Outcome A) * t * World :=
  match funcs with
  | [] => ([], self, w)
  | func :: funcs' =>
      let '(o, self1, w1) := call self func w in
      let '(os, self2, w2) := call_all self1 funcs' w1 in
      (o :: os, self2, w2)
  end.

End CircuitBreaker.

(** ** RetryHandler *)

Module RetryHandler.

Record t : Type := mk {
  max_retries : Z;
  base_delay : Q
}.

Definition delay (self : t) (attempt : Z) : Q :=
  base_delay self * inject_Z (2 ^ attempt).

(** [raise last_exception]; raising [None] is a [TypeError]. *)
Definition raise_last {A} (last_exception : option exn) : IO A :=
  match last_exception with
  | Some e => throw e
  | None => throw (TypeError "exceptions must derive from BaseException")
  end.

(** The [for attempt in range(self.max_retries)] loop with [todo]
    iterations left. *)
Fixpoint attempts {A} (self : t) (func : IO A) (todo : nat) (attempt : Z)
    (last_exception : option exn) : IO A :=
  match todo with
  | O => raise_last last_exception
  | S todo' =>
      fun w =>
        match func w with
        | (Ok result, w') => (Ok result, w')
        | (Raise e, w') =>
            if (attempt <? max_retries self - 1)%Z then
              let '(_, w'') := sleep (delay self attempt) w' in
              attempts self func todo' (attempt + 1)%Z (Some e) w''
            else
              attempts self func todo' (attempt + 1)%Z (Some e) w'
        end
  end.

Definition execute_with_retry {A} (self : t) (func : IO A) : IO A :=
  attempts self func (Z.to_nat (max_retries self)) 0%Z None.

End RetryHandler.

(** ** EnhancedCache (sqlite table [cache], keyed by the md5 of the key) *)

Module EnhancedCache.

Record Row : Type := mkRow {
  value : string;
  agent : string;
  model : string;
  created_at : Q;
  expires_at : Q;
  hit_count : Z
}.

(** The database file behind [sqlite3.connect]: either it cannot be
    opened or queried, and every statement raises, or it holds the table. *)
Inductive Backend : Type :=
| Unavailable (msg : string)
| Table (rows : gmap string Row).

Record t : Type := mk {
  backend : Backend;
  ttl : Z;
  monitor : PerformanceMonitor.t
}.

Definition bump (r : Row) : Row :=
  {| value := value r; agent := agent r; model := model r;
     created_at := created_at r; expires_at := expires_at r;
     hit_count := (hit_count r + 1)%Z |}.

Section WithHash.

(** [hashlib.md5(key.encode()).hexdigest()] *)
Variable md5 : string -> string.

(** [SELECT value, expires_at FROM cache WHERE key = ? AND expires_at > ?] *)
Definition select (rows : gmap string Row) (key_hash : string)
    (current_time : Q) : option Row :=
  match rows !! key_hash with
  | Some r => if Qlt_le_dec current_time (expires_at r) then Some r else None
  | None => None
  end.

Definition get (self : t) (key : string) (current_time : Q)
    : Outcome (option string) * t :=
  let key_hash := md5 key in
  match backend self with
  | Unavailable msg => (Raise (OperationalError msg), self)
  | Table rows =>
      match select rows key_hash current_time with
      | Some r =>
          (Ok (Some (value r)),
           {| backend := Table (alter bump key_hash rows);
              ttl := ttl self;
              monitor := PerformanceMonitor.record_cache_hit (monitor self) |})
      | None =>
          (Ok None,
           {| backend := Table rows;
              ttl := ttl self;
              monitor := PerformanceMonitor.record_cache_miss (monitor self) |})
      end
  end.

(** [INSERT OR REPLACE]: the old row goes, [hit_count] takes its default. *)
Definition store (self : t) (key val agent_name model_name : string)
    (current_time : Q) : Outcome unit * t :=
  let key_hash := md5 key in
  match backend self with
  | Unavailable msg => (Raise (OperationalError msg), self)
  | Table rows =>
      (Ok tt,
       {| backend :=
            Table (<[key_hash :=
                       {| value := val; agent := agent_name;
                          model := model_name;
                          created_at := current_time;
                          expires_at := current_time + inject_Z (ttl self);
                          hit_count := 0 |}]> rows);
          ttl := ttl self;
          monitor := monitor self |})
  end.

End WithHash.

End EnhancedCache.

(** ** Tasks and results ([ae_automation_v2.py]) *)

Record Task : Type := mkTask {
  id : string;
  type_ : string;
  prompt : string;
  file_path : option string;
  timestamp : Q
}.

Record AgentResult : Type := mkAgentResult {
  success : bool;
  agent_name : string;
  model_used : string;
  output : string;
  error : option string;
  execution_time : Q;
  tokens_used : Z;
  cost : Q
}.

(** ** Debouncer *)

Module Debouncer.

Section WithResult.

Context {R : Type}.

(** The asyncio task wrapping [delayed_execution]. *)
Inductive Status : Type :=
| Sleeping                      (* inside [asyncio.sleep(self.delay)] *)
| Cancelled                     (* [cancel()] arrived during the sleep *)
| Finished (result : Outcome R).

(** [callee] is the closure of [func] with its arguments. *)
Record Timer : Type := mkTimer {
  key : string;
  wake : Q;
  callee : IO R;
  status : Status
}.

(** [pending_tasks] maps a key to a task object; task objects are cells of
    [tasks], named by their creation index. *)
Record t : Type := mk {
  delay : Q;
  tasks : list Timer;
  pending_tasks : gmap string nat
}.

Definition init (delay : Q) : t :=
  {| delay := delay; tasks := []; pending_tasks := ∅ |}.

Definition set_status (tm : Timer) (s : Status) : Timer :=
  {| key := key tm; wake := wake tm; callee := callee tm; status := s |}.

(** [Task.cancel()] has no effect on a task that is done. *)
Definition cancel (tm : Timer) : Timer :=
  match status tm with
  | Sleeping => set_status tm Cancelled
  | _ => tm
  end.

Definition debounce (self : t) (k : string) (func : IO R) (w : World)
    : t * nat :=
  let tasks1 :=
    match pending_tasks self !! k with
    | Some i => alter cancel i (tasks self)
    | None => tasks self
    end in
  let i := length tasks1 in
  ({| delay := delay self;
      tasks := tasks1 ++ [ {| key := k; wake := now w + delay self;
                              callee := func; status := Sleeping |} ];
      pending_tasks := <[k := i]> (pending_tasks self) |}, i).

(** [delayed_execution] once its sleep is over: the [try] block. *)
Definition resume (self : t) (i : nat) (w : World) : t * World :=
  match tasks self !! i with
  | Some tm =>
      match status tm with
      | Sleeping =>
          match callee tm w with
          | (Ok result, w') =>
              match pending_tasks self !! key tm with
              | Some _ =>
                  ({| delay := delay self;
                      tasks := <[i := set_status tm (Finished (Ok result))]>
                                 (tasks self);
                      pending_tasks := delete (key tm) (pending_tasks self) |},
                   w')
              | None =>
                  ({| delay := delay self;
                      tasks := <[i := set_status tm
                                        (Finished (Raise (KeyError (key tm))))]>
                                 (tasks self);
                      pending_tasks := pending_tasks self |}, w')
              end
          | (Raise e, w') =>
              ({| delay := delay self;
                  tasks := <[i := set_status tm (Finished (Raise e))]>
                             (tasks self);
                  pending_tasks := pending_tasks self |}, w')
          end
      | _ => (self, w)
      end
  | None => (self, w)
  end.

(** The event loop: the sleeping timer with the least wake-up time not
    after [t], the oldest one among equals. *)
Fixpoint earliest (ts : list Timer) (i : nat) (limit : Q)
    (best : option (nat * Q)) : option (nat * Q) :=
  match ts with
  | [] => best
  | tm :: ts' =>
      let best' :=
        match status tm with
        | Sleeping =>
            if Qlt_le_dec limit (wake tm) then best
            else match best with
                 | Some (_, b) =>
                     if Qlt_le_dec (wake tm) b then Some (i, wake tm) else best
                 | None => Some (i, wake tm)
                 end
        | _ => best
        end in
      earliest ts' (S i) limit best'
  end.

Definition due (self : t) (limit : Q) : option (nat * Q) :=
  earliest (tasks self) 0 limit None.

Definition advance (target : Q) (w : World) : World :=
  if Qlt_le_dec (now w) target
  then {| now := target; journal := journal w |} else w.

(** Let the loop run until the clock shows [target]: due timers wake in
    order. *)
Fixpoint run_until (fuel : nat) (self : t) (w : World) (target : Q)
    : t * World :=
  match fuel with
  | O => (self, advance target w)
  | S fuel' =>
      match due self target with
      | Some (i, at_) =>
          let '(self', w') := resume self i (advance at_ w) in
          run_until fuel' self' w' target
      | None => (self, advance target w)
      end
  end.

(** An event for [k] arrives [gap] after the previous step. *)
Definition arrive (self : t) (w : World) (gap : Q) (k : string) (func : IO R)
    : t * World :=
  let '(self1, w1) := run_until (length (tasks self)) self w (now w + gap) in
  (fst (debounce self1 k func w1), w1).

Fixpoint burst (self : t) (w : World) (k : string) (evs : list (Q * IO R))
    : t * World :=
  match evs with
  | [] => (self, w)
  | (gap, func) :: evs' =>
      let '(self1, w1) := arrive self w gap k func in
      burst self1 w1 k evs'
  end.

End WithResult.

Arguments t : clear implicits.
Arguments Timer : clear implicits.
Arguments Status : clear implicits.

End Debouncer.

(** ** BatchProcessor *)

Module BatchProcessor.

(** [queue] lists the queued items in FIFO order, each with the time at
    which its [put] happens; items with a time in the future are the ones
    producers will add while [process_batch] waits. *)
Record t : Type := mk {
  batch_size : Z;
  batch_timeout : Q;
  queue : list (Q * Task);
  processing : bool
}.

Definition init (batch_size : Z) (batch_timeout : Q) : t :=
  {| batch_size := batch_size; batch_timeout := batch_timeout;
     queue := []; processing := false |}.

Definition set_processing (self : t) (b : bool) : t :=
  {| batch_size := batch_size self; batch_timeout := batch_timeout self;
     queue := queue self; processing := b |}.

Definition set_queue (self : t) (q : list (Q * Task)) : t :=
  {| batch_size := batch_size self; batch_timeout := batch_timeout self;
     queue := q; processing := processing self |}.

(** [add_task]: the flag tells whether a [process_batch] task is created. *)
Definition add_task (self : t) (task : Task) (w : World) : t * bool :=
  (set_queue self (queue self ++ [(now w, task)]), negb (processing self)).

(** [process_single]: the body is [pass], the result is [None]. *)
Definition process_single (task : Task) : IO unit := ret tt.

Definition wait (target : Q) (w : World) : World :=
  if Qlt_le_dec (now w) target
  then {| now := target; journal := journal w |} else w.

(** The [while True] loop; every iteration takes an item from the queue or
    leaves the loop, so [fuel] beyond the queue length is never used. *)
Fixpoint collect (fuel : nat) (self : t) (start_time : Q)
    (batch : list Task) (q : list (Q * Task)) (w : World)
    : list Task * list (Q * Task) * World :=
  match fuel with
  | O => (batch, q, w)
  | S fuel' =>
      let timeout := batch_timeout self - (now w - start_time) in
      if Qlt_le_dec 0 timeout then
        match q with
        | [] => (batch, q, wait (now w + timeout) w)
        | (put_at, task) :: q' =>
            if Qlt_le_dec put_at (now w + timeout) then
              let w1 := wait put_at w in
              let batch' := batch ++ [task] in
              if (batch_size self <=? Z.of_nat (length batch'))%Z
              then (batch', q', w1)
              else collect fuel' self start_time batch' q' w1
            else (batch, q, wait (now w + timeout) w)
        end
      else (batch, q, w)
  end.

(** [asyncio.gather( *aws, return_exceptions=True)]: every awaitable runs,
    an exception becomes the result of its own slot. *)
Fixpoint gather {R} (aws : list (IO R)) (w : World)
    : list (Outcome R) * World :=
  match aws with
  | [] => ([], w)
  | a :: aws' =>
      let '(o, w1) := a w in
      let '(os, w2) := gather aws' w1 in
      (o :: os, w2)
  end.

(** [process_batch]; [single] is the method [self.process_single]. *)
Definition process_batch {R} (single : Task -> IO R) (self : t) (w : World)
    : option (list (Outcome R)) * t * World :=
  let self1 := set_processing self true in
  let start_time := now w in
  let '(batch, q, w1) :=
    collect (S (length (queue self1))) self1 start_time [] (queue self1) w in
  let self2 := set_queue self1 q in
  match batch with
  | [] => (None, set_processing self2 false, w1)
  | _ :: _ =>
      let '(results, w2) := gather (map single batch) w1 in
      (Some results, set_processing self2 false, w2)
  end.

End BatchProcessor.

(** ** OptimizedOrchestrator *)

Module OptimizedOrchestrator.

Record t : Type := mk {
  monitor : PerformanceMonitor.t;
  rate_limiter : RateLimiter.t;
  circuit_breaker : CircuitBreaker.t;
  retry_handler : RetryHandler.t;
  cache : EnhancedCache.t;
  batch_processor : BatchProcessor.t
}.

(** [__init__] at time [t0], over the database file found on disk. *)
Definition init (t0 : Q) (db : EnhancedCache.Backend) : t :=
  {| monitor := PerformanceMonitor.init 100;
     rate_limiter := RateLimiter.init 60 60 t0;
     circuit_breaker := CircuitBreaker.init 5 60;
     retry_handler := {| RetryHandler.max_retries := 3;
                         RetryHandler.base_delay := 1 |};
     cache := {| EnhancedCache.backend := db;
                 EnhancedCache.ttl := 24 * 3600;
                 EnhancedCache.monitor := PerformanceMonitor.init 100 |};
     batch_processor := BatchProcessor.init 5 2 |}.

Definition set_monitor (self : t) (m : PerformanceMonitor.t) : t :=
  {| monitor := m; rate_limiter := rate_limiter self;
     circuit_breaker := circuit_breaker self;
     retry_handler := retry_handler self; cache := cache self;
     batch_processor := batch_processor self |}.

Definition set_rate_limiter (self : t) (rl : RateLimiter.t) : t :=
  {| monitor := monitor self; rate_limiter := rl;
     circuit_breaker := circuit_breaker self;
     retry_handler := retry_handler self; cache := cache self;
     batch_processor := batch_processor self |}.

Definition set_circuit_breaker (self : t) (cb : CircuitBreaker.t) : t :=
  {| monitor := monitor self; rate_limiter := rate_limiter self;
     circuit_breaker := cb;
     retry_handler := retry_handler self; cache := cache self;
     batch_processor := batch_processor self |}.

Definition set_cache (self : t) (c : EnhancedCache.t) : t :=
  {| monitor := monitor self; rate_limiter := rate_limiter self;
     circuit_breaker := circuit_breaker self;
     retry_handler := retry_handler self; cache := c;
     batch_processor := batch_processor self |}.

Definition set_batch_processor (self : t) (b : BatchProcessor.t) : t :=
  {| monitor := monitor self; rate_limiter := rate_limiter self;
     circuit_breaker := circuit_breaker self;
     retry_handler := retry_handler self; cache := cache self;
     batch_processor := b |}.

(** What [route_task_optimized] returns: the cached string itself, or the
    [AgentResult] of the call. *)
Inductive RouteResult : Type :=
| Cached (value : string)
| Routed (result : AgentResult).

(** [if cached_result:] on an [Optional[str]]: [None] and the empty string
    are both false. *)
Definition truthy (cached_result : option string) : bool :=
  match cached_result with
  | Some (String _ _) => true
  | Some EmptyString => false
  | None => false
  end.

Section WithEnvironment.

Variable md5 : string -> string.

(** [super().route_task]: the call of the external service. *)
Variable route_task : Task -> IO AgentResult.

(** The statements after [circuit_breaker.call] returned or raised, up to
    the [return] or the re-[raise]. *)
Definition conclude (self : t) (task : Task) (start_time : Q)
    (o : Outcome AgentResult) (w : World) : Outcome RouteResult * t :=
  match o with
  | Ok result =>
      let '(stored, c) :=
        if success result
        then EnhancedCache.store md5 (cache self) (prompt task)
               (output result) (agent_name result) (model_used result) (now w)
        else (Ok tt, cache self) in
      let self1 := set_cache self c in
      match stored with
      | Ok _ =>
          (Ok (Routed result),
           set_monitor self1
             (PerformanceMonitor.record_request (monitor self1)
                (now w - start_time) (success result) (now w)))
      | Raise e =>
          (Raise e,
           set_monitor self1
             (PerformanceMonitor.record_request (monitor self1)
                (now w - start_time) false (now w)))
      end
  | Raise e =>
      (Raise e,
       set_monitor self
         (PerformanceMonitor.record_request (monitor self)
            (now w - start_time) false (now w)))
  end.

Definition route_task_optimized (self : t) (task : Task) (w : World)
    : Outcome RouteResult * t * World :=
  let start_time := now w in
  match EnhancedCache.get md5 (cache self) (prompt task) (now w) with
  | (Raise e, c) => (Raise e, set_cache self c, w)
  | (Ok cached_result, c) =>
      let self1 := set_cache self c in
      if truthy cached_result then
        (Ok (Cached (default "" cached_result)),
         set_monitor self1
           (PerformanceMonitor.record_cache_hit (monitor self1)), w)
      else
        let self2 :=
          set_monitor self1
            (PerformanceMonitor.record_cache_miss (monitor self1)) in
        match RateLimiter.acquire (rate_limiter self2) w with
        | (Raise e, rl, w1) => (Raise e, set_rate_limiter self2 rl, w1)
        | (Ok _, rl, w1) =>
            let self3 := set_rate_limiter self2 rl in
            let '(o, cb, w2) :=
              CircuitBreaker.call (circuit_breaker self3)
                (RetryHandler.execute_with_retry (retry_handler self3)
                   (route_task task)) w1 in
            let self4 := set_circuit_breaker self3 cb in
            let '(r, self5) := conclude self4 task start_time o w2 in
            (r, self5, w2)
        end
  end.

(** [process_batch_tasks]: every task goes to [add_task]; the result
    counts the [process_batch] tasks created on the way. *)
Fixpoint process_batch_tasks (self : t) (tasks : list Task) (w : World)
    : t * nat :=
  match tasks with
  | [] => (self, O)
  | task :: tasks' =>
      let '(b, spawned) :=
        BatchProcessor.add_task (batch_processor self) task w in
      let '(self', n) :=
        process_batch_tasks (set_batch_processor self b) tasks' w in
      (self', if spawned then S n else n)
  end.

(** [health_check]: the status and the components in insertion order. *)
Definition health_check (self : t) (w : World)
    : (string * list (string * string)) * t :=
  let '(is_op, cb) := CircuitBreaker.is_open (circuit_breaker self) (now w) in
  let self1 := set_circuit_breaker self cb in
  let status1 := if is_op then "degraded" else "healthy" in
  let comps1 := [("circuit_breaker", if is_op then "open" else "closed")] in
  let '(got, c) :=
    EnhancedCache.get md5 (cache self1) "health_check_test" (now w) in
  let self2 := set_cache self1 c in
  let '(status2, comps2) :=
    match got with
    | Ok _ => (status1, comps1 ++ [("cache", "operational")])
    | Raise e => ("degraded", comps1 ++ [("cache", String.append "error: " (exn_str e))])
    end in
  if Qlt_le_dec 5 (PerformanceMonitor.avg_response_time (monitor self2))
  then (("degraded", comps2 ++ [("performance", "slow")]), self2)
  else ((status2, comps2), self2).

End WithEnvironment.

(** *** [route_task_optimized] as a coroutine on the event loop

    The coroutine is cut where it can be suspended for good: at the
    [await] of the external call inside [circuit_breaker.call].  [enter]
    runs it from its first statement to that point ([acquire] holds the
    limiter's lock while it sleeps and is one step); [leave] runs it from
    the moment the awaited [execute_with_retry] finishes with outcome [o]. *)

Inductive Phase : Type :=
| Submitted
| InFlight (start_time : Q)
| Returned (r : Outcome RouteResult).

Section OnTheLoop.

Variable md5 : string -> string.

Definition enter (self : t) (task : Task) (w : World) : Phase * t * World :=
  let start_time := now w in
  match EnhancedCache.get md5 (cache self) (prompt task) (now w) with
  | (Raise e, c) => (Returned (Raise e), set_cache self c, w)
  | (Ok cached_result, c) =>
      let self1 := set_cache self c in
      if truthy cached_result then
        (Returned (Ok (Cached (default "" cached_result))),
         set_monitor self1
           (PerformanceMonitor.record_cache_hit (monitor self1)), w)
      else
        let self2 :=
          set_monitor self1
            (PerformanceMonitor.record_cache_miss (monitor self1)) in
        match RateLimiter.acquire (rate_limiter self2) w with
        | (Raise e, rl, w1) =>
            (Returned (Raise e), set_rate_limiter self2 rl, w1)
        | (Ok _, rl, w1) =>
            let self3 := set_rate_limiter self2 rl in
            let '(is_op, cb) :=
              CircuitBreaker.is_open (circuit_breaker self3) (now w1) in
            let self4 := set_circuit_breaker self3 cb in
            if is_op then
              let '(r, self5) :=
                conclude md5 self4 task start_time
                  (Raise (Exception CircuitBreaker.open_message)) w1 in
              (Returned r, self5, w1)
            else (InFlight start_time, self4, w1)
        end
  end.

Definition leave (self : t) (task : Task) (start_time : Q)
    (o : Outcome AgentResult) (w : World) : Outcome RouteResult * t :=
  let cb :=
    match o with
    | Ok _ => CircuitBreaker.on_success (circuit_breaker self)
    | Raise _ => CircuitBreaker.on_failure (circuit_breaker self) (now w)
    end in
  conclude md5 (set_circuit_breaker self cb) task start_time o w.








End OnTheLoop.

End OptimizedOrchestrator.


(** ** PerformanceMonitor.get_stats *)

Module PerformanceStats.

Import PerformanceMonitor.

(** The dictionary returned by [get_stats]. *)
Record Stats : Type := mkStats {
  stat_avg_response_time : Q;
  stat_cache_hit_rate : Q;
  stat_total_requests : nat;
  stat_recent_errors : list string
}.

Definition cache_hit_rate (self : t) : Q :=
  let cache_total := (cache_hits self + cache_misses self)%Z in
  if (0 <? cache_total)%Z
  then inject_Z (cache_hits self) / inject_Z cache_total else 0.

(** [lst[-n:]] *)
Definition last_n {A} (n : nat) (l : list A) : list A :=
  drop (length l - n)%nat l.

Definition get_stats (self : t) : Stats :=
  {| stat_avg_response_time := avg_response_time self;
     stat_cache_hit_rate := cache_hit_rate self;
     stat_total_requests := length (api_calls self);
     stat_recent_errors := last_n 5 (errors self) |}.

(** The calls a user can make on a monitor. *)
Inductive Op : Type :=
| Request (response_time : Q) (ok : bool) (timestamp : Q)
| Hit
| Miss.

Definition apply (self : t) (op : Op) : t :=
  match op with
  | Request rt ok ts => record_request self rt ok ts
  | Hit => record_cache_hit self
  | Miss => record_cache_miss self
  end.

Definition apply_all (self : t) (ops : list Op) : t :=
  fold_left apply ops self.

Definition request_time (op : Op) : option Q :=
  match op with Request rt _ _ => Some rt | _ => None end.

Definition request_call (op : Op) : option ApiCall :=
  match op with
  | Request rt ok ts =>
      Some {| time := ts; response_ms := rt * 1000; success := ok |}
  | _ => None
  end.

Definition is_hit (op : Op) : bool :=
  match op with Hit => true | _ => false end.

Definition is_miss (op : Op) : bool :=
  match op with Miss => true | _ => false end.

End PerformanceStats.

(** ** The agent layer behind [super().route_task] ([ae_automation_v2.py]) *)

Module AdvancedCache.

Record Row : Type := mkRow {
  prompt : string;
  response : string;
  model : string;
  agent : string;
  timestamp : Q;
  hit_count : Z;
  quality_score : Q
}.

(** The table [cache] of the database file every agent's cache opens; the
    file is shared, so one value of [t] stands for all of them. *)
Inductive t : Type :=
| Unavailable (msg : string)
| Table (rows : gmap string Row).

Definition bump (r : Row) : Row :=
  {| prompt := prompt r; response := response r; model := model r;
     agent := agent r; timestamp := timestamp r;
     hit_count := (hit_count r + 1)%Z; quality_score := quality_score r |}.

Section WithHash.

(** [hashlib.sha256(s.encode()).hexdigest()] *)
Variable sha256 : string -> string.

Definition get_cache_key (prompt agent : string) : string :=
  sha256 (String.append prompt (String.append ":" agent)).

(** [get]: the exact match only; [result[1] > 0.8] is the quality
    threshold. *)
Definition get (self : t) (prompt agent : string)
    : Outcome (option string) * t :=
  let key := get_cache_key prompt agent in
  match self with
  | Unavailable msg => (Raise (OperationalError msg), self)
  | Table rows =>
      match rows !! key with
      | Some r =>
          if Qlt_le_dec (8 # 10) (quality_score r)
          then (Ok (Some (response r)), Table (alter bump key rows))
          else (Ok None, self)
      | None => (Ok None, self)
      end
  end.

(** [store]: [INSERT OR REPLACE], [hit_count] takes its default. *)
Definition store (self : t) (prompt response agent model : string)
    (quality : Q) (current_time : Q) : Outcome unit * t :=
  let key := get_cache_key prompt agent in
  match self with
  | Unavailable msg => (Raise (OperationalError msg), self)
  | Table rows =>
      (Ok tt,
       Table (<[key := {| prompt := prompt; response := response;
                          model := model; agent := agent;
                          timestamp := current_time; hit_count := 0;
                          quality_score := quality |}]> rows))
  end.

End WithHash.

End AdvancedCache.

Module BaseAgent.

Inductive ModelType : Type := OPUS | SONNET.

(** [ModelType.value] and [ModelType.name]. *)
Definition value (m : ModelType) : string :=
  match m with
  | OPUS => "claude-3-opus-20240229"
  | SONNET => "claude-3-sonnet-20240229"
  end.

Definition name_of (m : ModelType) : string :=
  match m with OPUS => "OPUS" | SONNET => "SONNET" end.

(** What [execute] reads of the response of [client.messages.create]. *)
Record Response : Type := mkResponse {
  text : string;
  input_tokens : Z;
  output_tokens : Z
}.

(** [can_handle] and [create_prompt] are the methods a subclass
    overrides. *)
Record t : Type := mk {
  name : string;
  preferred_model : ModelType;
  can_handle : Task -> bool;
  create_prompt : Task -> Outcome string;
  execution_count : Z;
  total_tokens : Z;
  total_cost : Q
}.

Definition calculate_cost (tokens : Z) (m : ModelType) : Q :=
  (inject_Z tokens / 1000000)
  * match m with OPUS => 15 # 1000 | SONNET => 3 # 1000 end.

Section WithClient.

Variable sha256 : string -> string.

(** [self.client.messages.create(model=..., messages=[...])], by model
    and prompt. *)
Variable create : string -> string -> IO Response.

(** The [except Exception as e] branch, entered at [w]; [output=None] is
    the empty [output] of [AgentResult]. *)
Definition failed (self : t) (start_time : Q) (e : exn) (w : World)
    : AgentResult :=
  {| success := false; agent_name := name self;
     model_used := name_of (preferred_model self);
     output := ""; error := Some (exn_str e);
     execution_time := now w - start_time;
     tokens_used := 0; cost := 0 |}.

Definition execute (self : t) (db : AdvancedCache.t) (task : Task)
    (w : World) : Outcome AgentResult * t * AdvancedCache.t * World :=
  let start_time := now w in
  match AdvancedCache.get sha256 db (prompt task) (name self) with
  | (Raise e, db1) => (Raise e, self, db1, w)
  | (Ok cached, db1) =>
      if OptimizedOrchestrator.truthy cached then
        (Ok {| success := true; agent_name := name self;
               model_used := "cache"; output := default "" cached;
               error := None; execution_time := now w - start_time;
               tokens_used := 0; cost := 0 |}, self, db1, w)
      else
        match create_prompt self task with
        | Raise e => (Ok (failed self start_time e w), self, db1, w)
        | Ok p =>
            match create (value (preferred_model self)) p w with
            | (Raise e, w1) =>
                (Ok (failed self start_time e w1), self, db1, w1)
            | (Ok resp, w1) =>
                let tokens := (input_tokens resp + output_tokens resp)%Z in
                let cost := calculate_cost tokens (preferred_model self) in
                let self1 :=
                  {| name := name self;
                     preferred_model := preferred_model self;
                     can_handle := can_handle self;
                     create_prompt := create_prompt self;
                     execution_count := (execution_count self + 1)%Z;
                     total_tokens := (total_tokens self + tokens)%Z;
                     total_cost := total_cost self + cost |} in
                match AdvancedCache.store sha256 db1 (prompt task)
                        (text resp) (name self)
                        (value (preferred_model self)) 1 (now w1) with
                | (Raise e, db2) =>
                    (Ok (failed self1 start_time e w1), self1, db2, w1)
                | (Ok _, db2) =>
                    (Ok {| success := true; agent_name := name self;
                           model_used := name_of (preferred_model self);
                           output := text resp; error := None;
                           execution_time := now w1 - start_time;
                           tokens_used := tokens; cost := cost |},
                     self1, db2, w1)
                end
            end
        end
  end.

End WithClient.

End BaseAgent.

Module Orchestrator.

(** The dictionary [stats]. *)
Record Stats : Type := mkStats {
  total_tasks : Z;
  opus_calls : Z;
  sonnet_calls : Z;
  cache_hits : Z;
  total_cost : Q;
  agents_created : Z
}.

(** [agents] in registration order; [db] is the database file behind
    their caches. *)
Record t : Type := mk {
  agents : list BaseAgent.t;
  db : AdvancedCache.t;
  task_history : list Task;
  stats : Stats
}.

(** [needle in hay] on strings. *)
Definition contains (needle hay : string) : bool :=
  match String.index 0 needle hay with Some _ => true | None => false end.

(** The statistics update after [execute] returned [result]. *)
Definition count (s : Stats) (result : AgentResult) : Stats :=
  let by_model (hits opus sonnet : Z) :=
    {| total_tasks := total_tasks s; opus_calls := opus;
       sonnet_calls := sonnet; cache_hits := hits;
       total_cost := total_cost s + cost result;
       agents_created := agents_created s |} in
  if String.eqb (model_used result) "cache"
  then by_model (cache_hits s + 1)%Z (opus_calls s) (sonnet_calls s)
  else if contains "OPUS" (model_used result)
  then by_model (cache_hits s) (opus_calls s + 1)%Z (sonnet_calls s)
  else if contains "SONNET" (model_used result)
  then by_model (cache_hits s) (opus_calls s) (sonnet_calls s + 1)%Z
  else by_model (cache_hits s) (opus_calls s) (sonnet_calls s).

Definition no_agent : AgentResult :=
  {| success := false; agent_name := "Orchestrator"; model_used := "none";
     output := ""; error := Some "No agent available for this task type";
     execution_time := 0; tokens_used := 0; cost := 0 |}.

Section WithClient.

Variable sha256 : string -> string.
Variable create : string -> string -> IO BaseAgent.Response.

(** [_check_patterns], run on every 20th task: the pattern analysis of
    the meta agent and what it deploys. *)
Variable check_patterns : t -> World -> Outcome unit * t * World.

Definition route_task (self : t) (task : Task) (w : World)
    : Outcome AgentResult * t * World :=
  let s := stats self in
  let self1 :=
    {| agents := agents self; db := db self;
       task_history := task_history self ++ [task];
       stats := {| total_tasks := (total_tasks s + 1)%Z;
                   opus_calls := opus_calls s;
                   sonnet_calls := sonnet_calls s;
                   cache_hits := cache_hits s;
                   total_cost := total_cost s;
                   agents_created := agents_created s |} |} in
  let '(checked, self2, w1) :=
    if (length (task_history self1) mod 20 =? 0)%nat
    then check_patterns self1 w else (Ok tt, self1, w) in
  match checked with
  | Raise e => (Raise e, self2, w1)
  | Ok _ =>
      match list_find (fun a => BaseAgent.can_handle a task = true)
              (agents self2) with
      | Some (i, a) =>
          let '(o, a', db', w2) :=
            BaseAgent.execute sha256 create a (db self2) task w1 in
          let self3 (st : Stats) :=
            {| agents := <[i := a']> (agents self2); db := db';
               task_history := task_history self2; stats := st |} in
          match o with
          | Ok result => (Ok result, self3 (count (stats self2) result), w2)
          | Raise e => (Raise e, self3 (stats self2), w2)
          end
      | None => (Ok no_agent, self2, w1)
      end
  end.

End WithClient.

End Orchestrator.
(** * Vocabulary of the properties *)

Module BreakerSpec.

Import CircuitBreaker.

(** Every breaker reached from [init] satisfies this: outside [closed] the
    failure count has reached the threshold, and an [open] breaker has a
    recorded failure time. *)
Definition tripped (self : t) : Prop :=
  state self <> closed ->
  (failure_threshold self <= failure_count self)%Z /\
  is_Some (last_failure_time self).

(** The assignments to [self.state] the code can make. *)
Inductive transition : State -> State -> Prop :=
| closed_to_open : transition closed open
| open_to_half_open : transition open half_open
| half_open_to_closed : transition half_open closed
| half_open_to_open : transition half_open open.

Definition failures {A} (os : list (Outcome A)) : Z :=
  Z.of_nat (length (filter (fun o => is_ok o = false) os)).

(** The reading of the specification under which the probe starts as soon
    as [now - lastFailureAt < recoveryTimeout] no longer holds. *)
Definition probes_when_not_before_timeout : Prop :=
  forall (self : t) (w : World) (lft : Q) (func : IO nat),
    state self = open ->
    last_failure_time self = Some lft -> ~ lft == 0 ->
    ~ now w - lft < recovery_timeout self ->
    fst (fst (call self func w)) = fst (func w).

End BreakerSpec.

Module RetrySpec.

(** The journal the specification prescribes for [k] failed attempts
    followed by one more attempt, oldest event first: attempt [a] is
    invocation [n] of the callable, and after failed attempt [a] comes a
    sleep of [base_delay * 2^a]. *)
Fixpoint backoff_trace (self : RetryHandler.t) (a : Z) (n : nat) (k : nat)
    : list Event :=
  match k with
  | O => [EvInvoke n]
  | S k' =>
      EvInvoke n :: EvSleep (RetryHandler.base_delay self * inject_Z (2 ^ a))
        :: backoff_trace self (a + 1)%Z (S n) k'
  end.

Definition fails_at {A} (script : nat -> Outcome A * Q) (n : nat) (e : exn)
    : Prop :=
  fst (script n) = Raise e.

End RetrySpec.

Module CacheSpec.


End CacheSpec.

Module LoopSpec.

Import OptimizedOrchestrator.



End LoopSpec.

Module BatchSpec.

(** The window [process_batch] collects, and the world at the flush. *)
Definition window (self : BatchProcessor.t) (w : World)
    : list Task * World :=
  let '(batch, _, w1) :=
    BatchProcessor.collect (S (length (BatchProcessor.queue self)))
      (BatchProcessor.set_processing self true) (now w) []
      (BatchProcessor.queue self) w in
  (batch, w1).

End BatchSpec.

Module DebounceSpec.

Import Debouncer.

Section WithResult.

Context {R : Type}.

(** No timer is waiting. *)
Definition quiescent (self : t R) : Prop :=
  Forall (fun tm => status tm <> Sleeping) (tasks self).

(** The one waiting timer is the newest task: it belongs to [k], wakes at
    [at_] to run [func], and is the task [pending_tasks] holds for [k]. *)
Definition one_waiting (self : t R) (k : string) (at_ : Q) (func : IO R)
    : Prop :=
  exists old,
    tasks self = old ++ [ {| key := k; wake := at_; callee := func;
                             status := Sleeping |} ] /\
    Forall (fun tm => status tm <> Sleeping) old /\
    pending_tasks self !! k = Some (length old).

(** The task list once the one waiting timer has run with outcome [o]. *)
Definition ran_last (self self' : t R) (o : Outcome R) : Prop :=
  exists old tm,
    tasks self = old ++ [tm] /\
    tasks self' = old ++ [set_status tm (Finished o)].

(** No timer wakes up to [limit]. *)
Definition none_due (self : t R) (limit : Q) : Prop :=
  Forall (fun tm => status tm = Sleeping -> limit < wake tm) (tasks self).

(** The callable of the last event of a burst that starts with [func]. *)
Definition last_callee (func : IO R) (evs : list (Q * IO R)) : IO R :=
  snd (List.last evs (0, func)).

(** Every state the debouncer goes through: a change of state is a
    [debounce] call or the wake-up of a task. *)
Inductive reachable : t R -> Prop :=
| reach_init (d : Q) : reachable (init d)
| reach_debounce (self : t R) (k : string) (func : IO R) (w : World) :
    reachable self -> reachable (fst (debounce self k func w))
| reach_resume (self : t R) (i : nat) (w : World) :
    reachable self -> reachable (fst (resume self i w)).

(** A waiting timer is the task [pending_tasks] holds for its key, and
    the task held for a key was created for that key. *)
Definition consistent (self : t R) : Prop :=
  (forall i tm,
     tasks self !! i = Some tm -> status tm = Sleeping ->
     pending_tasks self !! key tm = Some i) /\
  (forall k i,
     pending_tasks self !! k = Some i ->
     exists tm, tasks self !! i = Some tm /\ key tm = k).

(** No timer of [k] is waiting. *)
Definition idle (self : t R) (k : string) : Prop :=
  forall i tm,
    tasks self !! i = Some tm -> key tm = k -> status tm <> Sleeping.

(** The tasks a burst for [k] has added behind the [n0] older ones: [c]
    cancelled timers of [k], then the task [newest]. *)
Definition burst_tasks (self : t R) (n0 : nat) (k : string) (c : nat)
    (newest : Timer R) : Prop :=
  length (tasks self) = (n0 + c + 1)%nat /\
  (forall j, (j < c)%nat ->
     exists tm, tasks self !! (n0 + j)%nat = Some tm /\
                key tm = k /\ status tm = Cancelled) /\
  tasks self !! (n0 + c)%nat = Some newest.

(** The debouncer in the middle of a burst for [k]: behind [n0] older
    tasks, none of them a waiting timer of [k], the burst has left [c]
    cancelled timers and the waiting timer of its latest event. *)
Definition in_burst (self : t R) (n0 : nat) (k : string) (c : nat)
    (at_ : Q) (func : IO R) : Prop :=
  consistent self /\
  burst_tasks self n0 k c
    {| key := k; wake := at_; callee := func; status := Sleeping |} /\
  (forall j tm, (j < n0)%nat -> tasks self !! j = Some tm -> key tm = k ->
                status tm <> Sleeping).

Definition is_sleeping (tm : Timer R) : bool :=
  match status tm with Sleeping => true | _ => false end.

Definition sleepers (self : t R) : nat :=
  length (filter (fun tm => is_sleeping tm = true) (tasks self)).

(** What the loop does to the tasks while it runs up to [limit]: every
    timer due by then has run its callable, in some world, and is
    finished with the outcome; every other task is as it was; the pending
    task of a key with no due timer is as it was. *)
Definition fired_upto (limit : Q) (self self' : t R) : Prop :=
  length (tasks self') = length (tasks self) /\
  (forall i tm,
     tasks self !! i = Some tm ->
     exists tm',
       tasks self' !! i = Some tm' /\
       key tm' = key tm /\ wake tm' = wake tm /\ callee tm' = callee tm /\
       ((status tm = Sleeping /\ wake tm <= limit /\
         exists w_at, status tm' = Finished (fst (callee tm w_at))) \/
        (~ (status tm = Sleeping /\ wake tm <= limit) /\
         status tm' = status tm))) /\
  (forall k,
     (forall i tm, tasks self !! i = Some tm -> key tm = k ->
                   status tm = Sleeping -> limit < wake tm) ->
     pending_tasks self' !! k = pending_tasks self !! k) /\
  delay self' = delay self.

End WithResult.

End DebounceSpec.

(** * Vocabulary of the further properties *)

Module MoreSpec.

(** A callable that raises whenever it is run. *)
Definition always_fails {A} (func : IO A) : Prop :=
  forall w, is_ok (fst (func w)) = false.

(** What lets a call for [p] through to the external service while the
    breaker is not open: no row under the hash of [p], a limiter that can
    divide. *)
Definition let_through (md5 : string -> string)
    (self : OptimizedOrchestrator.t) (p : string) : Prop :=
  (exists rows,
     EnhancedCache.backend (OptimizedOrchestrator.cache self)
     = EnhancedCache.Table rows /\ rows !! md5 p = None) /\
  (0 < RateLimiter.rate (OptimizedOrchestrator.rate_limiter self))%Z /\
  (0 < RateLimiter.per (OptimizedOrchestrator.rate_limiter self))%Z /\
  CircuitBreaker.state (OptimizedOrchestrator.circuit_breaker self)
  <> CircuitBreaker.open.

(** The time asked of [asyncio.sleep] in a list of events, and over a
    whole run. *)
Definition sleep_total (evs : list Event) : Q :=
  fold_right (fun e acc => match e with
                           | EvSleep d => d + acc
                           | EvInvoke _ => acc
                           end) 0 evs.

Definition slept (w : World) : Q := sleep_total (journal w).

(** The queued items [process_batch] can take before [deadline]: the
    items at the head of the queue whose [put] happens before it. *)
Fixpoint in_time (deadline : Q) (q : list (Q * Task)) : list (Q * Task) :=
  match q with
  | [] => []
  | (put_at, task) :: q' =>
      if Qlt_le_dec put_at deadline
      then (put_at, task) :: in_time deadline q' else []
  end.

(** The most items one window holds: [batch_size], and one when
    [batch_size] is below one. *)
Definition capacity (self : BatchProcessor.t) : nat :=
  Z.to_nat (Z.max 1 (BatchProcessor.batch_size self)).

(** The window of a [process_batch] started at [start_time], read off the
    queue. *)
Definition expected_window (self : BatchProcessor.t) (start_time : Q)
    : list (Q * Task) :=
  take (capacity self)
    (in_time (start_time + BatchProcessor.batch_timeout self)
       (BatchProcessor.queue self)).


(** No pattern check is due on the next task. *)
Definition no_check_due (base : Orchestrator.t) : Prop :=
  ((length (Orchestrator.task_history base) + 1) mod 20 <> 0)%nat.

End MoreSpec.

(** * Properties *)

(** ** RateLimiter *)

Section RateLimiterProps.

Import RateLimiter.

Lemma inject_Z_pos (z : Z) : (0 < z)%Z -> 0 < inject_Z z.
Proof. intros H. change 0 with (inject_Z 0). now rewrite <- Zlt_Qlt. Qed.

Lemma replenish_min (self : t) (dt : Q) :
  replenish self dt ==
  Qmin (inject_Z (rate self))
       (allowance self + dt * (inject_Z (rate self) / inject_Z (per self))).
Proof.
  unfold replenish.
  set (a := allowance self + _).
  destruct (Qlt_le_dec (inject_Z (rate self)) a) as [H | H].
  - symmetry. apply Q.min_l. now apply Qlt_le_weak.
  - symmetry. now apply Q.min_r.
Qed.

Lemma replenish_le_rate (self : t) (dt : Q) :
  replenish self dt <= inject_Z (rate self).
Proof. rewrite replenish_min. apply Q.le_min_l. Qed.

Lemma sleep_time_div (self : t) (a : Q) :
  (0 < rate self)%Z -> (0 < per self)%Z ->
  sleep_time self a == (1 - a) / (inject_Z (rate self) / inject_Z (per self)).
Proof.
  intros Hr Hp. unfold sleep_time.
  apply inject_Z_pos in Hr, Hp.
  field. split; lra.
Qed.

Lemma sleep_time_pos (self : t) (a : Q) :
  (0 < rate self)%Z -> (0 < per self)%Z -> a < 1 -> 0 < sleep_time self a.
Proof.
  intros Hr Hp Ha. unfold sleep_time.
  apply inject_Z_pos in Hr, Hp.
  apply Qmult_lt_0_compat; [lra |].
  now apply Qlt_shift_div_l; [| lra].
Qed.

(** One [acquire], case by case. *)
Lemma acquire_step (self : t) (w : World) :
  (0 < rate self)%Z -> (0 < per self)%Z ->
  let a := replenish self (now w - last_check self) in
  let '(o, self', w') := acquire self w in
  o = Ok tt /\
  rate self' = rate self /\ per self' = per self /\
  last_check self' = now w /\
  0 <= allowance self' <= inject_Z (rate self) /\
  (a < 1 ->
     allowance self' == 0 /\
     journal w' = EvSleep (sleep_time self a) :: journal w /\
     now w' == now w + sleep_time self a) /\
  (1 <= a -> allowance self' == a - 1 /\ w' = w).
Proof.
  intros Hr Hp a. unfold acquire. cbn [per rate set_last_check].
  destruct (Z.eqb_spec (per self) 0) as [E | _]; [lia |].
  change (replenish (set_last_check self (now w)) (now w - last_check self))
    with a.
  pose proof (replenish_le_rate self (now w - last_check self)) as Hle.
  fold a in Hle.
  assert (H1 : 1 <= inject_Z (rate self)).
  { change 1 with (inject_Z 1). rewrite <- Zle_Qle. lia. }
  destruct (Qlt_le_dec a 1) as [Hlt | Hge];
    unfold sleep_time; cbn [rate per set_allowance set_last_check].
  - destruct (Z.eqb_spec (rate self) 0) as [E | _]; [lia |].
    pose proof (sleep_time_pos self a Hr Hp Hlt) as Hpos.
    unfold sleep_time in Hpos.
    cbn [sleep allowance last_check rate per set_allowance set_last_check
         now journal].
    destruct (Qlt_le_dec 0 _) as [_ | Hneg]; [| lra].
    repeat match goal with |- _ /\ _ => split end;
      try reflexivity; try lra; intros;
      repeat match goal with |- _ /\ _ => split end; try reflexivity; lra.
  - cbn [sleep allowance last_check rate per set_allowance set_last_check].
    repeat match goal with |- _ /\ _ => split end;
      try reflexivity; try lra; intros; try split; try reflexivity; lra.
Qed.

Lemma acquire_all_bounds (gaps : list Q) : forall (self : t) (w : World),
  (0 < rate self)%Z -> (0 < per self)%Z ->
  Forall (fun '(o, self', _) =>
            o = Ok tt /\ 0 <= allowance self' <= inject_Z (rate self))
         (acquire_all self w gaps).
Proof.
  induction gaps as [| g gaps IH]; intros self w Hr Hp; cbn [acquire_all].
  - constructor.
  - pose proof (acquire_step self (pass g w) Hr Hp) as H. cbv zeta in H.
    destruct (acquire self (pass g w)) as [[o self'] w'].
    destruct H as (Ho & Er & Ep & _ & Hb & _).
    constructor; [now split |].
    rewrite <- Er. apply IH; congruence.
Qed.

(** C6. Token bucket: with capacity [rate > 0] refilled at [rate / per]
    tokens per second ([per > 0]), every [acquire] succeeds, sets
    [last_check] to the current time and first refills the allowance to
    [min rate (allowance + elapsed * rate / per)]; if that is below 1 it
    sleeps [(1 - allowance) / (rate / per)] and leaves the allowance at 0,
    otherwise it takes exactly one token and does not sleep; in both cases,
    and after every call of any sequence of calls,
    [0 <= allowance <= rate]. *)
Theorem acquire_token_bucket (self : t) (w : World) (gaps : list Q) :
  (0 < rate self)%Z -> (0 < per self)%Z ->
  let r := inject_Z (rate self) / inject_Z (per self) in
  let refilled :=
    Qmin (inject_Z (rate self))
         (allowance self + (now w - last_check self) * r) in
  (let '(o, self', w') := acquire self w in
   o = Ok tt /\ last_check self' = now w /\
   0 <= allowance self' <= inject_Z (rate self) /\
   (refilled < 1 ->
      allowance self' == 0 /\
      exists d, d == (1 - refilled) / r /\
        journal w' = EvSleep d :: journal w /\ now w' == now w + d) /\
   (1 <= refilled -> allowance self' == refilled - 1 /\ w' = w)) /\
  Forall (fun '(o, self', _) =>
            o = Ok tt /\ 0 <= allowance self' <= inject_Z (rate self))
         (acquire_all self w gaps).
Proof.
  intros Hr Hp r refilled. split; [| now apply acquire_all_bounds].
  pose proof (acquire_step self w Hr Hp) as H. cbv zeta in H.
  pose proof (replenish_min self (now w - last_check self)) as Hmin.
  fold r in Hmin. fold refilled in Hmin.
  destruct (acquire self w) as [[o self'] w'].
  destruct H as (Ho & _ & _ & El & Hb & Hlt & Hge).
  repeat split; try tauto.
  - apply Hlt. now rewrite Hmin.
  - destruct Hlt as [_ Hw]; [now rewrite Hmin |].
    exists (sleep_time self (replenish self (now w - last_check self))).
    split; [| exact Hw].
    rewrite sleep_time_div by assumption. fold r. now rewrite Hmin.
  - rewrite <- Hmin. apply Hge. now rewrite Hmin.
  - apply Hge. now rewrite Hmin.
Qed.

Lemma acquire_token_bucket_witness :
  let self := init 2 60 0 in
  let w := {| now := 90; journal := [] |} in
  (let '(o, self', w') := acquire self w in
   o = Ok tt /\ last_check self' = 90 /\
   0 <= allowance self' <= 2 /\
   (Qmin 2 (2 + (90 - 0) * (2 / 60)) < 1 ->
      allowance self' == 0 /\
      exists d, d == (1 - Qmin 2 (2 + (90 - 0) * (2 / 60))) / (2 / 60) /\
        journal w' = EvSleep d :: [] /\ now w' == 90 + d) /\
   (1 <= Qmin 2 (2 + (90 - 0) * (2 / 60)) ->
      allowance self' == Qmin 2 (2 + (90 - 0) * (2 / 60)) - 1 /\ w' = w)) /\
  Forall (fun '(o, self', _) => o = Ok tt /\ 0 <= allowance self' <= 2)
         (acquire_all self w [0; 0; 0; 1]).
Proof.
  apply (acquire_token_bucket (init 2 60 0) {| now := 90; journal := [] |}
           [0; 0; 0; 1]); reflexivity.
Defined.

End RateLimiterProps.

(** ** CircuitBreaker *)

Section CircuitBreakerProps.

Import CircuitBreaker BreakerSpec.

Lemma init_tripped (n : Z) (timeout : Q) : tripped (init n timeout).
Proof. intros H. now contradiction H. Qed.

Lemma is_open_tripped (self : t) (current : Q) :
  tripped self -> tripped (snd (is_open self current)).
Proof.
  intros H. unfold is_open.
  destruct (state self) eqn:Es; cbn; try assumption.
  destruct (last_failure_time self) as [lft |] eqn:El; cbn; try assumption.
  destruct (Qeq_bool lft 0); cbn; try assumption.
  destruct (Qlt_le_dec _ _); cbn; try assumption.
  intros _. cbn. rewrite El. split; [| eauto].
  apply H. congruence.
Qed.

Lemma on_success_tripped (self : t) : tripped self -> tripped (on_success self).
Proof.
  intros H. unfold on_success.
  destruct (State_eqb (state self) half_open); [| assumption].
  intros Hs. now contradiction Hs.
Qed.

Lemma on_failure_tripped (self : t) (current : Q) :
  tripped self -> tripped (on_failure self current).
Proof.
  intros H Hs. cbn in *. split; [| eauto].
  destruct (Z.leb_spec (failure_threshold self) (failure_count self + 1));
    [assumption |].
  apply H in Hs. lia.
Qed.

Lemma call_tripped {A} (self : t) (func : IO A) (w : World) :
  tripped self -> tripped (snd (fst (call self func w))).
Proof.
  intros H. unfold call.
  pose proof (is_open_tripped self (now w) H) as H1.
  destruct (is_open self (now w)) as [b self1]. cbn in H1.
  destruct b; [exact H1 |].
  destruct (func w) as [[r | e] w']; cbn.
  - now apply on_success_tripped.
  - now apply on_failure_tripped.
Qed.

Lemma is_open_not_open (self : t) (current : Q) :
  state self <> open -> is_open self current = (false, self).
Proof. unfold is_open. now destruct (state self). Qed.

Lemma is_open_before (self : t) (current lft : Q) :
  state self = open -> last_failure_time self = Some lft ->
  current - lft <= recovery_timeout self ->
  is_open self current = (true, self).
Proof.
  intros Hs Hl Hle. unfold is_open. rewrite Hs, Hl.
  destruct (Qeq_bool lft 0); [reflexivity |].
  destruct (Qlt_le_dec _ _) as [Hlt | _]; [lra | reflexivity].
Qed.

Lemma is_open_after (self : t) (current lft : Q) :
  state self = open -> last_failure_time self = Some lft -> ~ lft == 0 ->
  recovery_timeout self < current - lft ->
  is_open self current = (false, set_state self half_open).
Proof.
  intros Hs Hl Hz Hlt. unfold is_open. rewrite Hs, Hl.
  destruct (Qeq_bool lft 0) eqn:E; [now apply Qeq_bool_iff in E |].
  destruct (Qlt_le_dec _ _) as [_ | Hle]; [reflexivity | lra].
Qed.

Lemma is_open_step (self : t) (current : Q) :
  let self' := snd (is_open self current) in
  state self' = state self \/ transition (state self) (state self').
Proof.
  unfold is_open. destruct (state self) eqn:Es; cbn; auto.
  destruct (last_failure_time self) as [lft |]; cbn; auto.
  destruct (Qeq_bool lft 0); cbn; auto.
  destruct (Qlt_le_dec _ _); cbn; auto.
  right. constructor.
Qed.

Lemma on_success_step (self : t) :
  state (on_success self) = state self \/
  transition (state self) (state (on_success self)).
Proof.
  unfold on_success. destruct (state self) eqn:Es; cbn; auto.
  right. constructor.
Qed.

Lemma on_failure_step (self : t) (current : Q) :
  tripped self ->
  state (on_failure self current) = state self \/
  transition (state self) (state (on_failure self current)).
Proof.
  intros H. cbn.
  destruct (Z.leb_spec (failure_threshold self) (failure_count self + 1));
    auto.
  destruct (state self) eqn:Es; auto.
  - right. constructor.
  - right. constructor.
Qed.

Lemma on_failure_half_open (self : t) (current : Q) :
  tripped self -> state self = half_open ->
  state (on_failure self current) = open.
Proof.
  intros H Hs. cbn.
  destruct (Z.leb_spec (failure_threshold self) (failure_count self + 1));
    [reflexivity |].
  destruct H as [H _]; [congruence | lia].
Qed.


Lemma call_not_open {A} (self : t) (func : IO A) (w : World) :
  state self <> open ->
  call self func w =
  match func w with
  | (Ok r, w') => (Ok r, on_success self, w')
  | (Raise e, w') => (Raise e, on_failure self (now w'), w')
  end.
Proof. intros H. unfold call. now rewrite is_open_not_open. Qed.

(** C2, as the code has it. For a breaker reached from [init]:
    while [open] with [now - last_failure_time <= recovery_timeout] the
    call raises the open-circuit exception at once, whatever [func] is, and
    changes nothing; while [open] with
    [now - last_failure_time > recovery_timeout] (strictly) the state
    becomes [half_open] and [func] runs as in a half-open breaker; a success
    in [half_open] closes the breaker and resets [failure_count] to 0; a
    failure adds one to [failure_count], records the failure time, and
    opens the breaker when the count has reached the threshold, which is
    always so in [half_open]; and each assignment to the state is one of
    closed->open, open->half_open, half_open->closed, half_open->open. *)
Theorem breaker_cycle {A} (self : t) (func : IO A) (w : World) :
  tripped self ->
  (forall lft,
     state self = open -> last_failure_time self = Some lft ->
     now w - lft <= recovery_timeout self ->
     call self func w = (Raise (Exception open_message), self, w)) /\
  (forall lft,
     state self = open -> last_failure_time self = Some lft -> ~ lft == 0 ->
     recovery_timeout self < now w - lft ->
     is_open self (now w) = (false, set_state self half_open) /\
     call self func w = call (set_state self half_open) func w) /\
  (forall r w',
     state self = half_open -> func w = (Ok r, w') ->
     exists self',
       call self func w = (Ok r, self', w') /\
       state self' = closed /\ failure_count self' = 0%Z) /\
  (forall e w',
     state self <> open -> func w = (Raise e, w') ->
     exists self',
       call self func w = (Raise e, self', w') /\
       failure_count self' = (failure_count self + 1)%Z /\
       last_failure_time self' = Some (now w') /\
       (state self = half_open -> state self' = open) /\
       ((failure_threshold self <= failure_count self + 1)%Z ->
        state self' = open) /\
       ((failure_count self + 1 < failure_threshold self)%Z ->
        state self' = state self)) /\
  (let self1 := snd (is_open self (now w)) in
   let self' := snd (fst (call self func w)) in
   (state self1 = state self \/ transition (state self) (state self1)) /\
   (state self' = state self1 \/ transition (state self1) (state self'))).
Proof.
  intros Htr. repeat apply conj.
  - intros lft Hs Hl Hle. unfold call.
    now rewrite (is_open_before self (now w) lft).
  - intros lft Hs Hl Hz Hlt.
    pose proof (is_open_after self (now w) lft Hs Hl Hz Hlt) as E.
    split; [exact E |].
    unfold call at 1. rewrite E.
    now rewrite (call_not_open (set_state self half_open)).
  - intros r w' Hs Hf.
    rewrite call_not_open by congruence. rewrite Hf.
    unfold on_success. rewrite Hs. cbn. eauto.
  - intros e w' Hs Hf.
    rewrite call_not_open by assumption. rewrite Hf.
    eexists. split; [reflexivity |].
    repeat apply conj; try reflexivity.
    + intros Hh. exact (on_failure_half_open self (now w') Htr Hh).
    + intros Hle. cbn.
      now destruct (Z.leb_spec (failure_threshold self) (failure_count self + 1));
        [| lia].
    + intros Hlt. cbn.
      now destruct (Z.leb_spec (failure_threshold self) (failure_count self + 1));
        [lia |].
  - apply is_open_step.
  - unfold call.
    pose proof (is_open_tripped self (now w) Htr) as H1.
    destruct (is_open self (now w)) as [b self1]. cbn [fst snd] in H1 |- *.
    destruct b; cbn [fst snd]; [now left |].
    destruct (func w) as [[r | e] w']; cbn [fst snd].
    + apply on_success_step.
    + now apply on_failure_step.
Qed.

Lemma breaker_cycle_witness :
  let self := {| failure_threshold := 5; recovery_timeout := 60;
                 failure_count := 5; last_failure_time := Some 100;
                 state := open |} in
  call self (ret 7%nat) {| now := 130; journal := [] |}
  = (Raise (Exception open_message), self, {| now := 130; journal := [] |})
  /\ call self (ret 7%nat) {| now := 161; journal := [] |}
     = call (set_state self half_open) (ret 7%nat)
         {| now := 161; journal := [] |}.
Proof.
  intros self.
  assert (Htr : tripped self).
  { intros _. split; [cbn; lia | cbn; eauto]. }
  split.
  - apply (proj1 (breaker_cycle self (ret 7%nat)
                    {| now := 130; journal := [] |} Htr) 100);
      [reflexivity | reflexivity | cbn; lra].
  - apply (proj1 (proj2 (breaker_cycle self (ret 7%nat)
                           {| now := 161; journal := [] |} Htr)) 100);
      [reflexivity | reflexivity | cbn; lra | cbn; lra].
Defined.

(** C2 as stated fails at the boundary: exactly [recovery_timeout] after the
    last failure the breaker still refuses the call. *)
Lemma breaker_probe_boundary_counterexample : ~ probes_when_not_before_timeout.
Proof.
  intros H.
  specialize (H {| failure_threshold := 5; recovery_timeout := 60;
                   failure_count := 5; last_failure_time := Some 100;
                   state := open |}
                {| now := 160; journal := [] |} 100 (ret 7%nat)).
  cbn in H.
  assert (E : Raise (Exception open_message) = Ok 7%nat :> Outcome nat).
  { apply H; [reflexivity | reflexivity | lra | lra]. }
  discriminate E.
Qed.

Lemma call_closed_ok {A} (self : t) (func : IO A) (w w' : World) (r : A) :
  state self = closed -> func w = (Ok r, w') ->
  call self func w = (Ok r, self, w').
Proof.
  intros Hs Hf. rewrite call_not_open by congruence. rewrite Hf.
  unfold on_success. now rewrite Hs.
Qed.

Lemma failures_cons {A} (o : Outcome A) (os : list (Outcome A)) :
  failures (o :: os) = ((if is_ok o then 0 else 1) + failures os)%Z.
Proof.
  unfold failures. rewrite filter_cons.
  destruct o; cbn; case_decide; try congruence; cbn [length]; lia.
Qed.

Lemma failures_nonneg {A} (os : list (Outcome A)) : (0 <= failures os)%Z.
Proof. unfold failures. lia. Qed.

(** Below the threshold a closed breaker stays closed and counts every
    failure, whatever successes come in between. *)
Lemma call_all_closed {A} (funcs : list (IO A)) :
  forall (self : t) (w : World),
    state self = closed ->
    let '(os, self1, w1) := call_all self funcs w in
    (failure_count self + failures os < failure_threshold self)%Z ->
    state self1 = closed /\
    failure_threshold self1 = failure_threshold self /\
    failure_count self1 = (failure_count self + failures os)%Z.
Proof.
  induction funcs as [| func funcs IH]; intros self w Hs; cbn [call_all].
  - intros _. unfold failures. cbn. repeat split; try assumption; lia.
  - rewrite call_not_open by congruence.
    destruct (func w) as [[r | e] w'].
    + unfold on_success. rewrite Hs. cbn [State_eqb].
      specialize (IH self w' Hs).
      destruct (call_all self funcs w') as [[os self2] w2].
      rewrite failures_cons. cbn [is_ok]. intros Hlt. apply IH. lia.
    + set (self1 := on_failure self (now w')).
      pose proof (failures_nonneg (A := A)) as Hnn.
      destruct (Z.leb_spec (failure_threshold self) (failure_count self + 1))
        as [Hle | Hlt1].
      * destruct (call_all self1 funcs w') as [[os self2] w2].
        rewrite failures_cons. cbn [is_ok]. specialize (Hnn os).
        intros Hlt. exfalso. lia.
      * assert (Hs1 : state self1 = closed).
        { subst self1. cbn.
          destruct (Z.leb_spec (failure_threshold self) (failure_count self + 1));
            [lia | assumption]. }
        specialize (IH self1 w' Hs1).
        destruct (call_all self1 funcs w') as [[os self2] w2].
        rewrite failures_cons. cbn [is_ok]. intros Hlt.
        destruct IH as (H1 & H2 & H3); [subst self1; cbn; lia |].
        subst self1. cbn in H2, H3. repeat split; try assumption. lia.
Qed.

(** A call changes the failure count in one of three ways: not at all, by
    one more failure, or back to 0, and that only for a success of a
    half-open probe. *)
Lemma call_failure_count {A} (self : t) (func : IO A) (w : World) :
  let '(o, self', _) := call self func w in
  failure_count self' = failure_count self \/
  (is_ok o = false /\
   failure_count self' = (failure_count self + 1)%Z) \/
  (is_ok o = true /\ failure_count self' = 0%Z /\
   state (snd (is_open self (now w))) = half_open).
Proof.
  unfold call.
  assert (Hc : failure_count (snd (is_open self (now w))) = failure_count self).
  { unfold is_open. destruct (state self); try reflexivity.
    destruct (last_failure_time self) as [lft |]; try reflexivity.
    destruct (Qeq_bool lft 0); try reflexivity.
    now destruct (Qlt_le_dec _ _). }
  destruct (is_open self (now w)) as [b self1]. cbn [snd] in *.
  destruct b; [now left |].
  destruct (func w) as [[r | e] w'].
  - unfold on_success. destruct (state self1); cbn; auto.
  - right. left. cbn. split; [reflexivity | lia].
Qed.

(** C10. A successful call through a closed breaker leaves the breaker as
    it was; a call resets the failure count to 0 only as the success of a
    half-open probe. So nothing resets the count while the breaker is
    closed: after any run of calls whose failures stay below the threshold
    the breaker is still closed with every failure counted, and the failure
    that brings the count to [failure_threshold] opens it, however many
    successes came in between. *)
Theorem closed_success_keeps_failures {A} (self : t) (funcs : list (IO A))
    (func : IO A) (w : World) :
  state self = closed ->
  (forall r w', func w = (Ok r, w') -> call self func w = (Ok r, self, w')) /\
  (forall (any : t) (f : IO A) (u : World),
     let '(o, any', _) := call any f u in
     failure_count any' = failure_count any \/
     (is_ok o = false /\
      failure_count any' = (failure_count any + 1)%Z) \/
     (is_ok o = true /\ failure_count any' = 0%Z /\
      state (snd (is_open any (now u))) = half_open)) /\
  (let '(os, self1, w1) := call_all self funcs w in
   (failure_count self + failures os < failure_threshold self)%Z ->
   state self1 = closed /\
   failure_count self1 = (failure_count self + failures os)%Z /\
   forall e w2,
     func w1 = (Raise e, w2) ->
     (failure_count self + failures os + 1 = failure_threshold self)%Z ->
     exists self2,
       call self1 func w1 = (Raise e, self2, w2) /\
       state self2 = open /\
       failure_count self2 = failure_threshold self).
Proof.
  intros Hs. split; [| split].
  - intros r w' Hf. now apply call_closed_ok.
  - intros any f u. apply call_failure_count.
  - pose proof (call_all_closed funcs self w Hs) as H.
    destruct (call_all self funcs w) as [[os self1] w1].
    intros Hlt. destruct (H Hlt) as (H1 & H2 & H3).
    repeat split; try assumption.
    intros e w2 Hf Heq.
    rewrite call_not_open by congruence. rewrite Hf.
    eexists. split; [reflexivity |]. cbn. rewrite H2, H3.
    destruct (Z.leb_spec (failure_threshold self)
                (failure_count self + failures os + 1)); [| lia].
    split; [reflexivity | lia].
Qed.

Lemma closed_success_keeps_failures_witness :
  let self := init 2 60 in
  let boom : IO nat := throw (ServiceError "down") in
  let w := {| now := 10; journal := [] |} in
  (forall r w', boom w = (Ok r, w') -> call self boom w = (Ok r, self, w')) /\
  (forall (any : t) (f : IO nat) (u : World),
     let '(o, any', _) := call any f u in
     failure_count any' = failure_count any \/
     (is_ok o = false /\
      failure_count any' = (failure_count any + 1)%Z) \/
     (is_ok o = true /\ failure_count any' = 0%Z /\
      state (snd (is_open any (now u))) = half_open)) /\
  (let '(os, self1, w1) := call_all self [ret 1%nat; boom; ret 2%nat] w in
   (failure_count self + failures os < failure_threshold self)%Z ->
   state self1 = closed /\
   failure_count self1 = (failure_count self + failures os)%Z /\
   forall e w2,
     boom w1 = (Raise e, w2) ->
     (failure_count self + failures os + 1 = failure_threshold self)%Z ->
     exists self2,
       call self1 boom w1 = (Raise e, self2, w2) /\
       state self2 = open /\
       failure_count self2 = failure_threshold self).
Proof.
  intros self boom w.
  apply (closed_success_keeps_failures self [ret 1%nat; boom; ret 2%nat] boom w).
  reflexivity.
Defined.

End CircuitBreakerProps.

(** ** RetryHandler *)

Section RetryHandlerProps.

Import RetryHandler RetrySpec.

Context {A : Type}.
Variable self : t.
Variable script : nat -> Outcome A * Q.

Lemma invocations_invoke (w : World) :
  invocations (snd (invoke script w)) = S (invocations w).
Proof.
  unfold invoke. destruct (script (invocations w)) as [r d].
  unfold invocations. cbn [snd journal]. now rewrite filter_cons_True.
Qed.

Lemma invocations_sleep (d : Q) (w : World) :
  invocations (snd (sleep d w)) = invocations w.
Proof.
  unfold invocations, sleep. cbn [snd journal].
  rewrite filter_cons_False; [reflexivity |]. cbn. congruence.
Qed.

Lemma sleep_journal (d : Q) (w : World) :
  journal (snd (sleep d w)) = EvSleep d :: journal w.
Proof. reflexivity. Qed.

Lemma invoke_journal (w : World) :
  journal (snd (invoke script w)) = EvInvoke (invocations w) :: journal w.
Proof. unfold invoke. now destruct (script (invocations w)). Qed.

Lemma invoke_outcome (w : World) :
  fst (invoke script w) = fst (script (invocations w)).
Proof. unfold invoke. now destruct (script (invocations w)). Qed.

Lemma attempts_S (func : IO A) (todo : nat) (a : Z) (last : option exn)
    (w : World) :
  attempts self func (S todo) a last w =
  match func w with
  | (Ok result, w') => (Ok result, w')
  | (Raise e, w') =>
      if (a <? max_retries self - 1)%Z then
        attempts self func todo (a + 1)%Z (Some e) (snd (sleep (delay self a) w'))
      else attempts self func todo (a + 1)%Z (Some e) w'
  end.
Proof. reflexivity. Qed.

(** The loop never runs the callable more often than it has iterations. *)
Lemma attempts_at_most (todo : nat) :
  forall (a : Z) (last : option exn) (w : World),
    (invocations (snd (attempts self (invoke script) todo a last w))
     <= invocations w + todo)%nat.
Proof.
  induction todo as [| todo IH]; intros a last w; cbn [attempts].
  - destruct last; cbn; lia.
  - pose proof (invocations_invoke w) as Hi.
    destruct (invoke script w) as [[r | e] w1]; cbn [snd] in *; [lia |].
    destruct (a <? max_retries self - 1)%Z.
    + pose proof (invocations_sleep (delay self a) w1) as Hs.
      destruct (sleep (delay self a) w1) as [u w2]. cbn [snd] in Hs.
      specialize (IH (a + 1)%Z (Some e) w2). lia.
    + specialize (IH (a + 1)%Z (Some e) w1). lia.
Qed.

(** [k] failures and then a success, inside the iterations left. *)
Lemma attempts_success (k : nat) :
  forall (todo : nat) (a : Z) (last : option exn) (w : World) (v : A),
    (k < todo)%nat ->
    (a + Z.of_nat todo <= max_retries self)%Z ->
    (forall i, (i < k)%nat ->
       exists e, fails_at script (invocations w + i) e) ->
    fst (script (invocations w + k)) = Ok v ->
    let '(o, w') := attempts self (invoke script) todo a last w in
    o = Ok v /\
    journal w' = rev (backoff_trace self a (invocations w) k) ++ journal w.
Proof.
  induction k as [| k IH]; intros todo a last w v Hk Hm Hfail Hok;
    (destruct todo as [| todo]; [lia |]); cbn [attempts].
  - pose proof (invoke_journal w) as Hj.
    pose proof (invoke_outcome w) as Ho.
    rewrite Nat.add_0_r in Hok. rewrite Hok in Ho.
    destruct (invoke script w) as [o w1]. cbn [fst snd] in *. subst o.
    split; [reflexivity |]. now rewrite Hj.
  - pose proof (invoke_journal w) as Hj.
    pose proof (invoke_outcome w) as Ho.
    pose proof (invocations_invoke w) as Hi.
    destruct (Hfail O) as [e He]; [lia |].
    unfold fails_at in He. rewrite Nat.add_0_r in He. rewrite He in Ho.
    destruct (invoke script w) as [o w1]. cbn [fst snd] in *. subst o.
    destruct (Z.ltb_spec a (max_retries self - 1)) as [_ | Hge]; [| lia].
    pose proof (invocations_sleep (delay self a) w1) as Hs.
    pose proof (sleep_journal (delay self a) w1) as Hsj.
    destruct (sleep (delay self a) w1) as [u w2]. cbn [snd] in Hs, Hsj |- *.
    specialize (IH todo (a + 1)%Z (Some e) w2 v).
    rewrite Hs, Hi in IH.
    destruct (attempts self (invoke script) todo (a + 1)%Z (Some e) w2)
      as [o w'].
    destruct IH as [E1 E2]; [lia | lia | | | ].
    + intros i Hlt. destruct (Hfail (S i)) as [e' He']; [lia |].
      exists e'. unfold fails_at in *. now rewrite Nat.add_succ_r in He'.
    + now rewrite Nat.add_succ_r in Hok.
    + split; [exact E1 |]. rewrite E2, Hsj.
      rewrite Hj. cbn [backoff_trace rev]. unfold delay.
      now rewrite <- !app_assoc.
Qed.

(** Every one of the [todo >= 1] remaining iterations fails. *)
Lemma attempts_exhausted (todo : nat) :
  forall (a : Z) (last : option exn) (w : World) (errs : nat -> exn),
    (a + Z.of_nat (S todo) = max_retries self)%Z ->
    (forall i, (i <= todo)%nat -> fails_at script (invocations w + i) (errs i)) ->
    let '(o, w') := attempts self (invoke script) (S todo) a last w in
    o = Raise (errs todo) /\
    journal w' = rev (backoff_trace self a (invocations w) todo) ++ journal w.
Proof.
  induction todo as [| todo IH]; intros a last w errs Hm Hfail;
    rewrite attempts_S;
    pose proof (invoke_journal w) as Hj;
    pose proof (invoke_outcome w) as Ho;
    pose proof (invocations_invoke w) as Hi;
    pose proof (Hfail O ltac:(lia)) as He;
    unfold fails_at in He; rewrite Nat.add_0_r in He; rewrite He in Ho;
    destruct (invoke script w) as [o w1]; cbn [fst snd] in *; subst o.
  - destruct (Z.ltb_spec a (max_retries self - 1)) as [Hlt | _]; [lia |].
    cbn [attempts]. unfold raise_last, throw.
    split; [reflexivity |]. now rewrite Hj.
  - destruct (Z.ltb_spec a (max_retries self - 1)) as [_ | Hge]; [| lia].
    pose proof (invocations_sleep (delay self a) w1) as Hs.
    pose proof (sleep_journal (delay self a) w1) as Hsj.
    destruct (sleep (delay self a) w1) as [u w2]. cbn [snd] in Hs, Hsj |- *.
    specialize (IH (a + 1)%Z (Some (errs O)) w2 (fun i => errs (S i))).
    rewrite Hs, Hi in IH.
    destruct (attempts self (invoke script) (S todo) (a + 1)%Z
                (Some (errs O)) w2) as [o w'].
    destruct IH as [E1 E2]; [lia | | ].
    + intros i Hle. specialize (Hfail (S i) ltac:(lia)).
      unfold fails_at in *. now rewrite Nat.add_succ_r in Hfail.
    + split; [exact E1 |]. rewrite E2, Hsj.
      rewrite Hj. cbn [backoff_trace rev]. unfold delay.
      now rewrite <- !app_assoc.
Qed.

(** C3. With [max_retries = m >= 1] and [base_delay = b],
    [execute_with_retry] runs the callable at most [m] times; if attempt
    [k < m] is the first to succeed the result is its value and nothing
    follows that attempt, every earlier failed attempt [j] being followed
    by a sleep of [b * 2^j]; if all [m] attempts fail, the error of the
    last attempt is raised, after sleeps of [b * 2^j] for [j < m - 1] and
    none after the last attempt. *)
Theorem retry_backoff (w : World) :
  (1 <= max_retries self)%Z ->
  let m := Z.to_nat (max_retries self) in
  let '(o, w') := execute_with_retry self (invoke script) w in
  (invocations w' <= invocations w + m)%nat /\
  (forall (k : nat) (v : A),
     (k < m)%nat ->
     (forall i, (i < k)%nat ->
        exists e, fails_at script (invocations w + i) e) ->
     fst (script (invocations w + k)) = Ok v ->
     o = Ok v /\
     journal w' = rev (backoff_trace self 0 (invocations w) k) ++ journal w) /\
  (forall errs : nat -> exn,
     (forall i, (i < m)%nat -> fails_at script (invocations w + i) (errs i)) ->
     o = Raise (errs (m - 1)%nat) /\
     journal w' =
       rev (backoff_trace self 0 (invocations w) (m - 1)) ++ journal w).
Proof.
  intros Hm m. unfold execute_with_retry. fold m.
  pose proof (attempts_at_most m 0%Z None w) as Hmost.
  pose proof (fun k v => attempts_success k m 0%Z None w v) as Hsucc.
  assert (Em : m = S (m - 1)) by lia.
  pose proof (fun errs => attempts_exhausted (m - 1) 0%Z None w errs) as Hall.
  rewrite <- Em in Hall.
  destruct (attempts self (invoke script) m 0%Z None w) as [o w'].
  cbn [snd] in Hmost. repeat apply conj.
  - exact Hmost.
  - intros k v Hk Hfail Hok. apply Hsucc; try assumption. lia.
  - intros errs Hfail. apply Hall; [lia |].
    intros i Hi. apply Hfail. lia.
Qed.

End RetryHandlerProps.

Lemma retry_backoff_witness :
  let self := {| RetryHandler.max_retries := 3; RetryHandler.base_delay := 1 |} in
  let script (n : nat) : Outcome nat * Q :=
    if (n <? 2)%nat then (Raise (ServiceError "busy"), 1 # 2)
    else (Ok 7%nat, 1 # 2) in
  let w := {| now := 0; journal := [] |} in
  let '(o, w') := RetryHandler.execute_with_retry self (invoke script) w in
  o = Ok 7%nat /\
  journal w' = [EvInvoke 2; EvSleep (1 * inject_Z (2 ^ 1)); EvInvoke 1;
                EvSleep (1 * inject_Z (2 ^ 0)); EvInvoke 0].
Proof.
  intros self script w.
  pose proof (retry_backoff self script w ltac:(cbn; lia)) as H.
  cbv zeta in H.
  destruct (RetryHandler.execute_with_retry self (invoke script) w)
    as [o w'].
  destruct H as (_ & H & _).
  apply (H 2%nat 7%nat).
  - cbn. lia.
  - intros i Hi. exists (ServiceError "busy"). unfold RetrySpec.fails_at.
    destruct i as [| [| i]]; [reflexivity | reflexivity | lia].
  - reflexivity.
Defined.

(** ** EnhancedCache *)

Section EnhancedCacheProps.

Import EnhancedCache.

Variable md5 : string -> string.

Lemma select_Some (rows : gmap string Row) (h : string) (current : Q) (r : Row) :
  select rows h current = Some r <->
  rows !! h = Some r /\ current < expires_at r.
Proof.
  unfold select. destruct (rows !! h) as [r' |]; [| intuition congruence].
  destruct (Qlt_le_dec current (expires_at r')) as [Hlt | Hle].
  - split; [intros [= ->]; auto | intros [[= ->] _]; reflexivity].
  - split; [discriminate | intros [[= ->] Hlt]; lra].
Qed.

Lemma select_None (rows : gmap string Row) (h : string) (current : Q) :
  select rows h current = None <->
  (rows !! h = None \/
   exists r, rows !! h = Some r /\ expires_at r <= current).
Proof.
  unfold select. destruct (rows !! h) as [r |]; [| intuition].
  destruct (Qlt_le_dec current (expires_at r)) as [Hlt | Hle].
  - split; [discriminate |].
    intros [H | (r' & [= <-] & Hle)]; [discriminate | lra].
  - split; [eauto | reflexivity].
Qed.

(** C4. On a table, [get] is a miss when no row is stored under the key's
    hash or when the stored row has [expires_at <= now]; a value is handed
    out only from a stored row with [expires_at > now]; the test is made
    on every [get] against the time of that [get], and a miss leaves all
    rows, the expired one included, in the table. *)
Theorem get_checks_expiry_on_read (self : t) (key : string) (current : Q)
    (rows : gmap string Row) :
  backend self = Table rows ->
  (rows !! md5 key = None -> fst (get md5 self key current) = Ok None) /\
  (forall r, rows !! md5 key = Some r -> expires_at r <= current ->
     fst (get md5 self key current) = Ok None) /\
  (forall v, fst (get md5 self key current) = Ok (Some v) ->
     exists r, rows !! md5 key = Some r /\ value r = v /\
               current < expires_at r) /\
  (forall r, rows !! md5 key = Some r -> current < expires_at r ->
     fst (get md5 self key current) = Ok (Some (value r))) /\
  (fst (get md5 self key current) = Ok None ->
     backend (snd (get md5 self key current)) = Table rows).
Proof.
  intros Hb. unfold get. rewrite Hb.
  destruct (select rows (md5 key) current) as [r |] eqn:Es.
  - apply select_Some in Es. destruct Es as [Hr Hlt]. cbn [fst snd].
    repeat apply conj.
    + congruence.
    + intros r' Hr' Hle. assert (r' = r) by congruence. subst. lra.
    + intros v [= <-]. eauto.
    + intros r' Hr' _. congruence.
    + discriminate.
  - apply select_None in Es. cbn [fst snd backend].
    repeat apply conj; try reflexivity.
    + discriminate.
    + intros r Hr Hlt. destruct Es as [Hn | (r' & Hr' & Hle)].
      * congruence.
      * assert (r' = r) by congruence. subst. lra.
Qed.



End EnhancedCacheProps.

Lemma get_checks_expiry_on_read_witness :
  let row := {| EnhancedCache.value := "wiggle(5, 10)";
                EnhancedCache.agent := "TestAgent";
                EnhancedCache.model := "sonnet";
                EnhancedCache.created_at := 0;
                EnhancedCache.expires_at := 86400;
                EnhancedCache.hit_count := 0 |} in
  let rows : gmap string EnhancedCache.Row := {[ "k" := row ]} in
  let self := {| EnhancedCache.backend := EnhancedCache.Table rows;
                 EnhancedCache.ttl := 86400;
                 EnhancedCache.monitor := PerformanceMonitor.init 100 |} in
  fst (EnhancedCache.get (fun s => s) self "k" 86400) = Ok None /\
  EnhancedCache.backend (snd (EnhancedCache.get (fun s => s) self "k" 86400))
  = EnhancedCache.Table rows.
Proof.
  intros row rows self.
  pose proof (get_checks_expiry_on_read (fun s => s) self "k" 86400 rows
                eq_refl) as H.
  destruct H as (_ & H2 & _ & _ & H5).
  assert (E : fst (EnhancedCache.get (fun s => s) self "k" 86400) = Ok None).
  { apply (H2 row); [reflexivity | cbn; lra]. }
  split; [exact E | exact (H5 E)].
Defined.


(** ** OptimizedOrchestrator.route_task_optimized *)

Section RouteProps.

Import OptimizedOrchestrator.

Variable md5 : string -> string.
Variable route_task : Task -> IO AgentResult.


(** A usable cached value: the rate limiter, the breaker and the world are
    untouched, whatever [route_task] is. *)
Lemma route_hit (self : t) (task : Task) (w : World)
    (rows : gmap string EnhancedCache.Row) (r : EnhancedCache.Row) :
  EnhancedCache.backend (cache self) = EnhancedCache.Table rows ->
  rows !! md5 (prompt task) = Some r ->
  now w < EnhancedCache.expires_at r ->
  EnhancedCache.value r <> "" ->
  exists self',
    route_task_optimized md5 route_task self task w
    = (Ok (Cached (EnhancedCache.value r)), self', w) /\
    rate_limiter self' = rate_limiter self /\
    circuit_breaker self' = circuit_breaker self /\
    PerformanceMonitor.cache_hits (monitor self')
    = (PerformanceMonitor.cache_hits (monitor self) + 1)%Z.
Proof.
  intros Hb Hr Hlt Hv. unfold route_task_optimized, EnhancedCache.get.
  rewrite Hb.
  assert (Es : EnhancedCache.select rows (md5 (prompt task)) (now w) = Some r)
    by now apply select_Some.
  rewrite Es.
  destruct (EnhancedCache.value r) as [| c s] eqn:Ev; [congruence |].
  cbn [truthy default]. eexists. split; [reflexivity |]. now cbn.
Qed.

(** No usable cached value: one token, then the breaker around the retry
    loop around the external call, then [conclude]. *)
Lemma route_miss (self : t) (task : Task) (w : World) (c : EnhancedCache.t)
    (got : option string) :
  EnhancedCache.get md5 (cache self) (prompt task) (now w) = (Ok got, c) ->
  truthy got = false ->
  let self2 :=
    set_monitor (set_cache self c)
      (PerformanceMonitor.record_cache_miss (monitor self)) in
  route_task_optimized md5 route_task self task w =
  match RateLimiter.acquire (rate_limiter self) w with
  | (Raise e, rl, w1) => (Raise e, set_rate_limiter self2 rl, w1)
  | (Ok _, rl, w1) =>
      let '(o, cb, w2) :=
        CircuitBreaker.call (circuit_breaker self)
          (RetryHandler.execute_with_retry (retry_handler self)
             (route_task task)) w1 in
      let '(r, self5) :=
        conclude md5
          (set_circuit_breaker (set_rate_limiter self2 rl) cb)
          task (now w) o w2 in
      (r, self5, w2)
  end.
Proof.
  intros Hg Ht self2. unfold route_task_optimized. rewrite Hg, Ht.
  reflexivity.
Qed.

(** What [conclude] does to the cache: a row is written exactly for a
    returned result with [success]. *)
Lemma conclude_cache (self : t) (task : Task) (start : Q)
    (o : Outcome AgentResult) (w : World) :
  cache (snd (conclude md5 self task start o w)) =
  match o with
  | Ok result =>
      if success result
      then snd (EnhancedCache.store md5 (cache self) (prompt task)
                  (output result) (agent_name result) (model_used result)
                  (now w))
      else cache self
  | Raise _ => cache self
  end.
Proof.
  unfold conclude. destruct o as [result | e]; [| reflexivity].
  destruct (success result).
  - destruct (EnhancedCache.store _ _ _ _ _ _ _) as [[u | e] c]; reflexivity.
  - reflexivity.
Qed.


End RouteProps.



(** C1 at the input where the code departs from it: the cache holds an
    unexpired row for the prompt whose value is the empty string.
    [EnhancedCache.get] returns that value and counts a hit, but
    [if cached_result:] is false for it, so [route_task_optimized] records
    a miss, takes a token and calls the external service. *)
Lemma empty_cached_value_is_routed :
  let row := {| EnhancedCache.value := "";
                EnhancedCache.agent := "WiggleAgent";
                EnhancedCache.model := "SONNET";
                EnhancedCache.created_at := 0;
                EnhancedCache.expires_at := 86400;
                EnhancedCache.hit_count := 0 |} in
  let self := OptimizedOrchestrator.init 0
                (EnhancedCache.Table {[ "wiggle" := row ]}) in
  let task := {| id := "t1"; type_ := "test"; prompt := "wiggle";
                 file_path := None; timestamp := 0 |} in
  let fresh := {| success := true; agent_name := "WiggleAgent";
                  model_used := "SONNET"; output := "wiggle(5, 10)";
                  error := None; execution_time := 1; tokens_used := 10;
                  cost := 0 |} in
  let route_task (_ : Task) : IO AgentResult :=
    invoke (fun _ => (Ok fresh, 1)) in
  let w := {| now := 10; journal := [] |} in
  fst (EnhancedCache.get (fun s => s) (OptimizedOrchestrator.cache self)
         "wiggle" 10) = Ok (Some "") /\
  let '(o, self', w') :=
    OptimizedOrchestrator.route_task_optimized (fun s => s) route_task
      self task w in
  o = Ok (OptimizedOrchestrator.Routed fresh) /\
  journal w' = [EvInvoke 0] /\
  RateLimiter.allowance (OptimizedOrchestrator.rate_limiter self') == 59 /\
  PerformanceMonitor.cache_misses (OptimizedOrchestrator.monitor self') = 1%Z /\
  PerformanceMonitor.cache_hits
    (EnhancedCache.monitor (OptimizedOrchestrator.cache self')) = 1%Z.
Proof.
  vm_compute. repeat split; reflexivity.
Qed.

(** ** The coroutine view of [route_task_optimized] *)

Section LoopProps.

Import OptimizedOrchestrator LoopSpec.

Variable md5 : string -> string.

(** Run without interleaving, the two halves are the method itself. *)
Lemma route_task_optimized_on_loop (route_task : Task -> IO AgentResult)
    (self : t) (task : Task) (w : World) :
  route_task_optimized md5 route_task self task w =
  match enter md5 self task w with
  | (InFlight start_time, self1, w1) =>
      let '(o, w2) :=
        RetryHandler.execute_with_retry (retry_handler self1)
          (route_task task) w1 in
      let '(r, self2) := leave md5 self1 task start_time o w2 in
      (r, self2, w2)
  | (Returned r, self1, w1) => (r, self1, w1)
  | (Submitted, self1, w1) => (Raise (Exception "unreachable"), self1, w1)
  end.
Proof.
  unfold route_task_optimized, enter, leave, CircuitBreaker.call.
  destruct (EnhancedCache.get _ _ _ _) as [[got | e] c]; [| reflexivity].
  destruct (truthy got); [reflexivity |].
  destruct (RateLimiter.acquire _ _) as [[[u | e] rl] w1]; [| reflexivity].
  cbn [circuit_breaker set_rate_limiter set_circuit_breaker retry_handler].
  destruct (CircuitBreaker.is_open _ _) as [[|] cb].
  - now destruct (conclude _ _ _ _ _ _).
  - destruct (RetryHandler.execute_with_retry _ _ _) as [[result | e] w2];
      cbn [circuit_breaker set_rate_limiter set_circuit_breaker];
      now destruct (conclude _ _ _ _ _ _).
Qed.










End LoopProps.



(** ** BatchProcessor *)

Section BatchProps.

Import BatchProcessor BatchSpec.

Context {R : Type}.
Variable single : Task -> IO R.

Lemma gather_length (aws : list (IO R)) : forall w,
  length (fst (gather aws w)) = length aws.
Proof.
  induction aws as [| a aws IH]; intros w; cbn [gather]; [reflexivity |].
  destruct (a w) as [o w1]. specialize (IH w1).
  destruct (gather aws w1) as [os w2]. cbn in *. now rewrite IH.
Qed.

(** An awaitable that raises fills its own slot; the ones after it run. *)
Lemma gather_app (aws1 aws2 : list (IO R)) : forall w,
  gather (aws1 ++ aws2) w =
  let '(os1, w1) := gather aws1 w in
  let '(os2, w2) := gather aws2 w1 in
  (os1 ++ os2, w2).
Proof.
  induction aws1 as [| a aws1 IH]; intros w; cbn [gather app].
  - now destruct (gather aws2 w).
  - destruct (a w) as [o w1]. rewrite IH.
    destruct (gather aws1 w1) as [os1 w2].
    now destruct (gather aws2 w2).
Qed.

Lemma gather_stub (batch : list Task) : forall w,
  gather (map process_single batch) w = (map (fun _ => Ok tt) batch, w).
Proof.
  induction batch as [| task batch IH]; intros w; cbn [gather map];
    [reflexivity |].
  unfold process_single at 1, ret. now rewrite IH.
Qed.

Lemma process_batch_window (self : t) (w : World) :
  let '(batch, w1) := window self w in
  batch <> [] ->
  exists self',
    process_batch single self w
    = (Some (fst (gather (map single batch) w1)), self',
       snd (gather (map single batch) w1)) /\
    processing self' = false.
Proof.
  unfold window, process_batch. cbn [queue set_processing].
  destruct (collect _ _ _ _ _ _) as [[batch q] w1].
  intros Hne. destruct batch as [| task batch]; [congruence |].
  destruct (gather (map single (task :: batch)) w1) as [results w2].
  eexists. split; reflexivity.
Qed.

End BatchProps.


(** What a flush does. A flushed window hands every item once to
    [process_single], all in one [gather] with [return_exceptions=True]:
    there is one result slot per item, an item that raises fills its own
    slot with the exception and the items after it still run. As written,
    [process_single] does nothing and returns [None]: every slot holds
    that result and the world is as it was at the flush. *)
Lemma flush_gathers_every_item {R : Type} (single : Task -> IO R)
    (self : BatchProcessor.t) (w : World) :
  let '(batch, w1) := BatchSpec.window self w in
  batch <> [] ->
  (exists self',
     BatchProcessor.process_batch single self w
     = (Some (fst (BatchProcessor.gather (map single batch) w1)), self',
        snd (BatchProcessor.gather (map single batch) w1))) /\
  length (fst (BatchProcessor.gather (map single batch) w1)) = length batch /\
  (forall (before after : list Task) (task : Task),
     batch = before ++ task :: after ->
     let '(os1, wa) := BatchProcessor.gather (map single before) w1 in
     let '(o, wb) := single task wa in
     let '(os2, wc) := BatchProcessor.gather (map single after) wb in
     BatchProcessor.gather (map single batch) w1 = (os1 ++ o :: os2, wc)) /\
  (exists self',
     BatchProcessor.process_batch BatchProcessor.process_single self w
     = (Some (map (fun _ => Ok tt) batch), self', w1)).
Proof.
  pose proof (process_batch_window single self w) as H1.
  pose proof (process_batch_window BatchProcessor.process_single self w) as H2.
  destruct (BatchSpec.window self w) as [batch w1].
  intros Hne. repeat apply conj.
  - destruct (H1 Hne) as (self' & E & _). eauto.
  - rewrite gather_length. apply length_map.
  - intros before after task ->. rewrite map_app. cbn [map].
    rewrite gather_app.
    destruct (BatchProcessor.gather (map single before) w1) as [os1 wa].
    cbn [BatchProcessor.gather].
    destruct (single task wa) as [o wb].
    now destruct (BatchProcessor.gather (map single after) wb) as [os2 wc].
  - destruct (H2 Hne) as (self' & E & _). rewrite gather_stub in E. eauto.
Qed.

(** C8 at an input where the code departs from it: one task is queued
    through [process_batch_tasks] on a fresh orchestrator and the window is
    flushed. The flush returns one result, [None], for the item, but
    neither the cache, the limiter, the breaker nor the external service
    has been used: the item was not executed. Executing the same task
    calls the external service once. *)
Theorem flushed_item_is_not_executed :
  let task := {| id := "1"; type_ := "test"; prompt := "wiggle";
                 file_path := None; timestamp := 0 |} in
  let fresh := {| success := true; agent_name := "WiggleAgent";
                  model_used := "SONNET"; output := "wiggle(5, 10)";
                  error := None; execution_time := 1; tokens_used := 10;
                  cost := 0 |} in
  let route_task (_ : Task) : IO AgentResult :=
    invoke (fun _ => (Ok fresh, 1)) in
  let w := {| now := 0; journal := [] |} in
  let self0 := OptimizedOrchestrator.init 0 (EnhancedCache.Table ∅) in
  let self := fst (OptimizedOrchestrator.process_batch_tasks self0 [task] w) in
  let '(results, _, w1) :=
    BatchProcessor.process_batch BatchProcessor.process_single
      (OptimizedOrchestrator.batch_processor self) w in
  let '(o, self', w2) :=
    OptimizedOrchestrator.route_task_optimized (fun s => s) route_task
      self task w in
  results = Some [Ok tt] /\
  journal w1 = [] /\
  OptimizedOrchestrator.monitor self = OptimizedOrchestrator.monitor self0 /\
  OptimizedOrchestrator.cache self = OptimizedOrchestrator.cache self0 /\
  o = Ok (OptimizedOrchestrator.Routed fresh) /\
  journal w2 = [EvInvoke 0].
Proof.
  vm_compute. repeat split; reflexivity.
Qed.

(** ** Debouncer *)

Section DebouncerProps.

Import Debouncer DebounceSpec.

Context {R : Type}.

Implicit Types (self : t R) (tm : Timer R) (w : World).

Lemma cancel_not_sleeping tm : status (cancel tm) <> Sleeping.
Proof. unfold cancel. destruct (status tm) eqn:E; cbn; congruence. Qed.

Lemma cancel_key tm : key (cancel tm) = key tm.
Proof. unfold cancel. now destruct (status tm). Qed.

Lemma cancel_sleeping tm : status (cancel tm) = Sleeping -> False.
Proof. apply cancel_not_sleeping. Qed.

(** Tasks that are not sleeping are invisible to the loop. *)
Lemma earliest_skip (old rest : list (Timer R)) (limit : Q) :
  forall i best,
    Forall (fun tm => status tm <> Sleeping) old ->
    earliest (old ++ rest) i limit best
    = earliest rest (i + length old) limit best.
Proof.
  induction old as [| tm old IH]; intros i best Hq; cbn [app earliest length].
  - now rewrite Nat.add_0_r.
  - inversion Hq as [| ? ? Hs Hq']; subst.
    destruct (status tm) eqn:E; try congruence;
      rewrite IH by assumption; f_equal; lia.
Qed.

Lemma earliest_none_due (ts : list (Timer R)) (limit : Q) :
  forall i,
    Forall (fun tm => status tm = Sleeping -> limit < wake tm) ts ->
    earliest ts i limit None = None.
Proof.
  induction ts as [| tm ts IH]; intros i Hn; cbn [earliest]; [reflexivity |].
  inversion Hn as [| ? ? Hs Hn']; subst.
  destruct (status tm) eqn:E; try now apply IH.
  destruct (Qlt_le_dec limit (wake tm)) as [_ | Hle]; [now apply IH |].
  specialize (Hs eq_refl). lra.
Qed.

Lemma none_due_due self limit : none_due self limit -> due self limit = None.
Proof. apply earliest_none_due. Qed.

Lemma quiescent_none_due self limit : quiescent self -> none_due self limit.
Proof.
  unfold quiescent, none_due. intros H.
  eapply Forall_impl; [exact H |]. intros tm Hs E. congruence.
Qed.

Lemma due_one_waiting self k at_ func limit :
  one_waiting self k at_ func -> at_ <= limit ->
  due self limit = Some (length (tasks self) - 1, at_)%nat.
Proof.
  intros (old & Et & Hq & _) Hle. unfold due. rewrite Et.
  rewrite earliest_skip by assumption. cbn [earliest status wake].
  destruct (Qlt_le_dec limit at_) as [Hlt | _]; [lra |].
  rewrite length_app. cbn [length]. do 2 f_equal. lia.
Qed.

Lemma run_until_none_due (fuel : nat) self w limit :
  none_due self limit -> run_until fuel self w limit = (self, advance limit w).
Proof.
  intros Hn. destruct fuel as [| fuel]; cbn [run_until]; [reflexivity |].
  now rewrite none_due_due.
Qed.


(** [debounce] at rest: the new task is the one waiting timer. *)
Lemma debounce_quiescent self k func w :
  quiescent self ->
  one_waiting (fst (debounce self k func w)) k (now w + delay self) func.
Proof.
  intros Hq. unfold debounce. cbn [fst tasks pending_tasks].
  eexists. split; [reflexivity |]. split.
  - destruct (pending_tasks self !! k) as [i |]; [| exact Hq].
    apply Forall_alter; [exact Hq |].
    intros tm _ _. apply cancel_not_sleeping.
  - apply lookup_insert_eq.
Qed.

(** [debounce] while the previous event of the key still waits: that timer
    is cancelled and the new task is the one waiting timer. *)
Lemma debounce_one_waiting self k at_ func0 func w :
  one_waiting self k at_ func0 ->
  one_waiting (fst (debounce self k func w)) k (now w + delay self) func.
Proof.
  intros (old & Et & Hq & Hp). unfold debounce.
  cbn [fst tasks pending_tasks]. rewrite Hp, Et.
  eexists. split; [reflexivity |]. split.
  - rewrite (alter_app_r_alt cancel old _ (length old)) by lia.
    rewrite Nat.sub_diag. cbn [alter list_alter].
    apply Forall_app. split; [exact Hq |].
    constructor; [apply cancel_not_sleeping | constructor].
  - apply lookup_insert_eq.
Qed.

Lemma debounce_delay self k func w :
  delay (fst (debounce self k func w)) = delay self.
Proof. reflexivity. Qed.

Lemma one_waiting_none_due self k at_ func limit :
  one_waiting self k at_ func -> limit < at_ -> none_due self limit.
Proof.
  intros (old & Et & Hq & _) Hlt. unfold none_due. rewrite Et.
  apply Forall_app. split.
  - eapply Forall_impl; [exact Hq |]. intros tm Hs E. congruence.
  - constructor; [| constructor]. intros _. exact Hlt.
Qed.

Lemma arrive_none_due self w gap k func :
  none_due self (now w + gap) ->
  arrive self w gap k func
  = (fst (debounce self k func (advance (now w + gap) w)),
     advance (now w + gap) w).
Proof. intros Hn. unfold arrive. now rewrite run_until_none_due. Qed.

Lemma advance_journal limit w : journal (advance limit w) = journal w.
Proof. unfold advance. now destruct (Qlt_le_dec _ _). Qed.

Lemma last_cons_default {X} (x : X) (l : list X) (d d' : X) :
  List.last (x :: l) d = List.last (x :: l) d'.
Proof.
  revert x. induction l as [| y l IH]; intros x; [reflexivity |].
  change (List.last (y :: l) d = List.last (y :: l) d'). apply IH.
Qed.

(** The later events of a burst: each arrives less than [delay] after the
    one before, finds its timer waiting, and replaces it. *)
Lemma burst_keeps_one_waiting (k : string) (evs : list (Q * IO R)) :
  forall self w func,
    one_waiting self k (now w + delay self) func ->
    Forall (fun ev => fst ev < delay self) evs ->
    let '(self', w') := burst self w k evs in
    one_waiting self' k (now w' + delay self') (last_callee func evs) /\
    delay self' = delay self /\
    journal w' = journal w.
Proof.
  induction evs as [| [gap f] evs IH]; intros self w func Hw Hg;
    cbn [burst].
  - auto.
  - inversion Hg as [| ? ? Hlt Hg']; subst. cbn [fst] in Hlt.
    rewrite arrive_none_due
      by (eapply one_waiting_none_due; [exact Hw | lra]).
    set (w1 := advance (now w + gap) w).
    pose proof (debounce_one_waiting self k _ func f w1 Hw) as Hw1.
    specialize (IH (fst (debounce self k f w1)) w1 f).
    rewrite debounce_delay in IH. specialize (IH Hw1 Hg').
    destruct (burst (fst (debounce self k f w1)) w1 k evs) as [self' w'].
    destruct IH as (H1 & H2 & H3).
    repeat split; try assumption.
    + unfold last_callee in *. cbn [List.last].
      destruct evs as [| ev evs]; [exact H1 |].
      now rewrite (last_cons_default ev evs (0, func) (0, f)).
    + rewrite H3. apply advance_journal.
Qed.


(** Once the clock passes its wake-up time, the one waiting timer runs its
    callable, once, and nothing is left waiting. *)
Lemma run_until_one_waiting self w k at_ func target :
  one_waiting self k at_ func -> at_ <= target ->
  let '(o, w2) := func (advance at_ w) in
  exists self',
    run_until (length (tasks self)) self w target = (self', advance target w2) /\
    ran_last self self' o /\
    quiescent self'.
Proof.
  intros Hw Hle.
  pose proof (due_one_waiting self k at_ func target Hw Hle) as Hd.
  destruct Hw as (old & Et & Hq & Hp).
  assert (El : length (tasks self) = S (length old)).
  { rewrite Et, length_app. cbn. lia. }
  rewrite El in Hd |- *. cbn [run_until]. rewrite Hd.
  replace (S (length old) - 1)%nat with (length old) by lia.
  unfold resume. rewrite Et.
  rewrite list_lookup_middle by reflexivity. cbn [status callee key].
  destruct (func (advance at_ w)) as [[r | e] w2].
  - rewrite Hp.
    rewrite (insert_app_r_alt old _ (length old)) by lia.
    rewrite Nat.sub_diag. cbn [insert list_insert].
    eexists. split; [| split].
    + apply run_until_none_due. apply quiescent_none_due.
      unfold quiescent. cbn [tasks]. apply Forall_app. split; [exact Hq |].
      constructor; [discriminate | constructor].
    + eexists old, _. split; [exact Et | reflexivity].
    + unfold quiescent. cbn [tasks]. apply Forall_app. split; [exact Hq |].
      constructor; [discriminate | constructor].
  - rewrite (insert_app_r_alt old _ (length old)) by lia.
    rewrite Nat.sub_diag. cbn [insert list_insert].
    eexists. split; [| split].
    + apply run_until_none_due. apply quiescent_none_due.
      unfold quiescent. cbn [tasks]. apply Forall_app. split; [exact Hq |].
      constructor; [discriminate | constructor].
    + eexists old, _. split; [exact Et | reflexivity].
    + unfold quiescent. cbn [tasks]. apply Forall_app. split; [exact Hq |].
      constructor; [discriminate | constructor].
Qed.

(** *** One timer per key, in every state *)

Lemma init_consistent (d : Q) : consistent (init (R := R) d).
Proof. split; [intros i tm H | intros k i H]; discriminate H. Qed.

Lemma debounce_consistent self k func w :
  consistent self -> consistent (fst (debounce self k func w)).
Proof.
  intros [Hinv Hkey]. unfold debounce. cbn [fst].
  set (tasks1 := match pending_tasks self !! k with
                 | Some i0 => alter cancel i0 (tasks self)
                 | None => tasks self
                 end).
  assert (Hlen : length tasks1 = length (tasks self)).
  { subst tasks1. destruct (pending_tasks self !! k); [| reflexivity].
    apply length_alter. }
  assert (Hkeys : forall i tm, tasks self !! i = Some tm ->
            exists tm1, tasks1 !! i = Some tm1 /\ key tm1 = key tm).
  { intros i tm Hl. subst tasks1.
    destruct (pending_tasks self !! k) as [i0 |]; [| eauto].
    destruct (decide (i0 = i)) as [-> | Hne].
    - rewrite list_lookup_alter_eq, Hl. cbn. eexists. split; [reflexivity |].
      apply cancel_key.
    - rewrite list_lookup_alter_ne by assumption. eauto. }
  split; cbn [tasks pending_tasks].
  - intros i tm Hl Hs. apply lookup_app_Some in Hl.
    destruct Hl as [Hl | [Hge Hl]].
    + assert (Hold : tasks self !! i = Some tm /\ key tm <> k).
      { subst tasks1. destruct (pending_tasks self !! k) as [i0 |] eqn:Hp.
        - destruct (decide (i0 = i)) as [-> | Hne].
          + rewrite list_lookup_alter_eq in Hl.
            destruct (tasks self !! i) as [tm0 |]; [| discriminate].
            cbn in Hl. injection Hl as <-.
            now apply cancel_sleeping in Hs.
          + rewrite list_lookup_alter_ne in Hl by assumption.
            split; [assumption |]. intros Ek.
            pose proof (Hinv i tm Hl Hs) as Hi. rewrite Ek in Hi. congruence.
        - split; [assumption |]. intros Ek.
          pose proof (Hinv i tm Hl Hs) as Hi. rewrite Ek in Hi. congruence. }
      destruct Hold as [Hl' Hk].
      rewrite lookup_insert_ne by congruence. now apply Hinv.
    + apply list_lookup_singleton_Some in Hl. destruct Hl as [Hi <-].
      cbn [key]. rewrite lookup_insert_eq. f_equal. lia.
  - intros k' i Hp. destruct (decide (k = k')) as [<- | Hne].
    + rewrite lookup_insert_eq in Hp. injection Hp as <-.
      eexists. split.
      * rewrite lookup_app_r by lia. rewrite Nat.sub_diag. reflexivity.
      * reflexivity.
    + rewrite lookup_insert_ne in Hp by assumption.
      destruct (Hkey k' i Hp) as (tm & Hl & Hk).
      destruct (Hkeys i tm Hl) as (tm1 & Hl1 & Hk1).
      exists tm1. split; [| congruence]. now apply lookup_app_l_Some.
Qed.

(** The wake-up of a sleeping task under [consistent]: its callable runs
    and the task is finished with the outcome. *)
Lemma resume_fire self i tm w :
  consistent self ->
  tasks self !! i = Some tm -> status tm = Sleeping ->
  resume self i w =
  ({| delay := delay self;
      tasks := <[i := set_status tm (Finished (fst (callee tm w)))]>
                 (tasks self);
      pending_tasks := if is_ok (fst (callee tm w))
                       then delete (key tm) (pending_tasks self)
                       else pending_tasks self |},
   snd (callee tm w)).
Proof.
  intros [Hinv _] Hl Hs. unfold resume. rewrite Hl, Hs.
  destruct (callee tm w) as [[r | e] w']; cbn [fst snd is_ok].
  - now rewrite (Hinv i tm Hl Hs).
  - reflexivity.
Qed.

Lemma resume_consistent self i0 w :
  consistent self -> consistent (fst (resume self i0 w)).
Proof.
  intros Hc.
  destruct (tasks self !! i0) as [tm0 |] eqn:H0;
    [| unfold resume; now rewrite H0].
  destruct (status tm0) eqn:Hs0;
    try (unfold resume; rewrite H0, Hs0; exact Hc).
  rewrite (resume_fire self i0 tm0 w Hc H0 Hs0). cbn [fst].
  destruct Hc as [Hinv Hkey].
  pose proof (Hinv i0 tm0 H0 Hs0) as Hp0.
  split; cbn [tasks pending_tasks].
  - intros i tm Hl Hs.
    assert (Hold : tasks self !! i = Some tm /\ key tm <> key tm0).
    { destruct (decide (i0 = i)) as [-> | Hne].
      - rewrite list_lookup_insert_eq in Hl by (eapply lookup_lt_Some; eauto).
        injection Hl as <-. discriminate Hs.
      - rewrite list_lookup_insert_ne in Hl by assumption.
        split; [assumption |]. intros Ek.
        pose proof (Hinv i tm Hl Hs) as Hi. rewrite Ek in Hi. congruence. }
    destruct Hold as [Hl' Hk].
    destruct (is_ok _); [rewrite lookup_delete_ne by congruence |];
      now apply Hinv.
  - intros k i Hp.
    assert (Hp' : pending_tasks self !! k = Some i).
    { destruct (is_ok _); [| exact Hp].
      destruct (decide (key tm0 = k)) as [<- | Hne].
      - rewrite lookup_delete_eq in Hp. discriminate Hp.
      - now rewrite lookup_delete_ne in Hp by assumption. }
    destruct (Hkey k i Hp') as (tm & Hl & Hk).
    destruct (decide (i0 = i)) as [-> | Hne].
    + rewrite list_lookup_insert_eq by (eapply lookup_lt_Some; eauto).
      eexists. split; [reflexivity |]. cbn. congruence.
    + rewrite list_lookup_insert_ne by assumption. eauto.
Qed.

Lemma reachable_consistent self : reachable self -> consistent self.
Proof.
  induction 1.
  - apply init_consistent.
  - now apply debounce_consistent.
  - now apply resume_consistent.
Qed.

Lemma one_timer_per_key self (i j : nat) (tmi tmj : Timer R) :
  reachable self ->
  tasks self !! i = Some tmi -> tasks self !! j = Some tmj ->
  status tmi = Sleeping -> status tmj = Sleeping ->
  key tmi = key tmj -> i = j.
Proof.
  intros Hr Hi Hj Hsi Hsj Hk.
  apply reachable_consistent in Hr. destruct Hr as [Hinv _].
  pose proof (Hinv i tmi Hi Hsi) as Pi.
  pose proof (Hinv j tmj Hj Hsj) as Pj.
  rewrite Hk in Pi. congruence.
Qed.

(** *** What the loop fires *)

Lemma earliest_keeps_best (ts : list (Timer R)) (limit : Q) :
  forall i0 b, earliest ts i0 limit (Some b) <> None.
Proof.
  induction ts as [| tm ts IH]; intros i0 [i a]; cbn [earliest];
    [discriminate |].
  destruct (status tm); try apply IH.
  destruct (Qlt_le_dec limit (wake tm)); [apply IH |].
  destruct (Qlt_le_dec (wake tm) a); apply IH.
Qed.

Lemma earliest_Some (ts : list (Timer R)) (limit : Q) :
  forall i0 best i a,
    earliest ts i0 limit best = Some (i, a) ->
    best = Some (i, a) \/
    exists j tm, ts !! j = Some tm /\ i = (i0 + j)%nat /\
                 status tm = Sleeping /\ wake tm <= limit /\ a = wake tm.
Proof.
  induction ts as [| tm ts IH]; intros i0 best i a He; cbn [earliest] in He;
    [now left |].
  apply IH in He. destruct He as [Hb | (j & tm' & Hl & -> & Hs & Hw & ->)].
  - destruct (status tm) eqn:Es; try (now left).
    destruct (Qlt_le_dec limit (wake tm)) as [_ | Hle]; [now left |].
    assert (Hhere : Some (i0, wake tm) = Some (i, a) ->
              exists j tm', (tm :: ts) !! j = Some tm' /\ i = (i0 + j)%nat /\
                status tm' = Sleeping /\ wake tm' <= limit /\ a = wake tm').
    { intros [= <- <-]. exists O, tm. rewrite Nat.add_0_r. auto. }
    destruct best as [[bi ba] |]; [| right; now apply Hhere].
    destruct (Qlt_le_dec (wake tm) ba); [right; now apply Hhere | now left].
  - right. exists (S j), tm'. repeat split; try assumption. lia.
Qed.

Lemma earliest_None (ts : list (Timer R)) (limit : Q) :
  forall i0 best,
    earliest ts i0 limit best = None ->
    Forall (fun tm => status tm = Sleeping -> limit < wake tm) ts.
Proof.
  induction ts as [| tm ts IH]; intros i0 best He; cbn [earliest] in He;
    [constructor |].
  constructor; [| now apply IH in He].
  intros Es. rewrite Es in He.
  destruct (Qlt_le_dec limit (wake tm)) as [Hlt | _]; [exact Hlt |].
  exfalso. destruct best as [[bi ba] |].
  - destruct (Qlt_le_dec (wake tm) ba);
      now apply earliest_keeps_best in He.
  - now apply earliest_keeps_best in He.
Qed.

Lemma due_Some self limit i a :
  due self limit = Some (i, a) ->
  exists tm, tasks self !! i = Some tm /\ status tm = Sleeping /\
             wake tm <= limit /\ a = wake tm.
Proof.
  intros H. apply earliest_Some in H.
  destruct H as [H | (j & tm & Hl & -> & Hs & Hw & ->)]; [discriminate |].
  eauto.
Qed.

Lemma due_None self limit : due self limit = None -> none_due self limit.
Proof. apply earliest_None. Qed.

Lemma is_sleeping_true tm : is_sleeping tm = true <-> status tm = Sleeping.
Proof. unfold is_sleeping. destruct (status tm); split; congruence. Qed.

Lemma sleepers_fire self i tm x :
  tasks self !! i = Some tm -> status tm = Sleeping ->
  status x <> Sleeping ->
  S (length (filter (fun t => is_sleeping t = true) (<[i := x]> (tasks self))))
  = sleepers self.
Proof.
  intros Hl Hs Hx. unfold sleepers.
  rewrite <- (take_drop_middle (tasks self) i tm Hl) at 2.
  rewrite insert_take_drop by (eapply lookup_lt_Some; eauto).
  rewrite !filter_app, !length_app.
  rewrite filter_cons_False by (rewrite is_sleeping_true; exact Hx).
  rewrite filter_cons_True by (now apply is_sleeping_true).
  cbn [length]. lia.
Qed.

Lemma sleepers_none self :
  sleepers self = O -> quiescent self.
Proof.
  unfold sleepers, quiescent. intros H.
  apply Forall_forall. intros tm Hin Hs.
  apply length_zero_iff_nil in H.
  assert (Hf : tm ∈ filter (fun t => is_sleeping t = true) (tasks self)).
  { apply list_elem_of_filter. split; [now apply is_sleeping_true |].
    exact Hin. }
  rewrite H in Hf. now apply not_elem_of_nil in Hf.
Qed.

Lemma fired_upto_refl limit self : none_due self limit -> fired_upto limit self self.
Proof.
  intros Hn. unfold fired_upto. repeat apply conj; try reflexivity.
  intros i tm Hl. exists tm. repeat split; try assumption.
  right. split; [| reflexivity]. intros [Hs Hw].
  unfold none_due in Hn. rewrite Forall_lookup in Hn.
  specialize (Hn i tm Hl Hs). lra.
Qed.

Lemma fired_upto_step limit self i tm w self' :
  consistent self ->
  tasks self !! i = Some tm -> status tm = Sleeping -> wake tm <= limit ->
  fired_upto limit (fst (resume self i w)) self' ->
  fired_upto limit self self'.
Proof.
  intros Hc Hl Hs Hw. rewrite (resume_fire self i tm w Hc Hl Hs). cbn [fst].
  intros (Hlen & Htasks & Hpend & Hdelay).
  cbn [tasks pending_tasks delay] in *.
  rewrite length_insert in Hlen.
  unfold fired_upto. repeat apply conj; try assumption.
  - intros j tmj Hj. destruct (decide (i = j)) as [<- | Hne].
    + assert (tmj = tm) by congruence. subst tmj.
      destruct (Htasks i (set_status tm (Finished (fst (callee tm w)))))
        as (tm' & Hl' & Hk & Hwk & Hcal & Hst).
      { apply list_lookup_insert_eq. eapply lookup_lt_Some; eauto. }
      exists tm'. cbn in Hk, Hwk, Hcal. repeat split; try assumption.
      left. repeat split; try assumption. exists w.
      destruct Hst as [(Hbad & _) | (_ & Hst)]; [discriminate Hbad |].
      exact Hst.
    + apply Htasks. now rewrite list_lookup_insert_ne.
  - intros k Hk.
    assert (Hne : key tm <> k).
    { intros Ek. specialize (Hk i tm Hl Ek Hs). lra. }
    rewrite Hpend.
    + destruct (is_ok _); [now apply lookup_delete_ne | reflexivity].
    + intros j tmj Hj Ekj Hsj.
      destruct (decide (i = j)) as [<- | Hij].
      * rewrite list_lookup_insert_eq in Hj by (eapply lookup_lt_Some; eauto).
        injection Hj as <-. discriminate Hsj.
      * rewrite list_lookup_insert_ne in Hj by assumption. eauto.
Qed.

(** Given fuel for every sleeping task, the loop fires exactly the timers
    due by [limit]. *)
Lemma run_until_fired limit (fuel : nat) :
  forall self w,
    consistent self -> (sleepers self <= fuel)%nat ->
    fired_upto limit self (fst (run_until fuel self w limit)) /\
    consistent (fst (run_until fuel self w limit)).
Proof.
  induction fuel as [| fuel IH]; intros self w Hc Hf; cbn [run_until].
  - cbn [fst]. split; [| exact Hc].
    apply fired_upto_refl, quiescent_none_due, sleepers_none. lia.
  - destruct (due self limit) as [[i a] |] eqn:Hd.
    + destruct (due_Some self limit i a Hd) as (tm & Hl & Hs & Hw & ->).
      pose proof (resume_consistent self i (advance (wake tm) w) Hc) as Hc1.
      pose proof (fun s => fired_upto_step limit self i tm
                    (advance (wake tm) w) s Hc Hl Hs Hw) as Hstep.
      pose proof (resume_fire self i tm (advance (wake tm) w) Hc Hl Hs) as Er.
      destruct (resume self i (advance (wake tm) w)) as [self1 w1].
      cbn [fst] in Hc1, Hstep.
      assert (Hf1 : (sleepers self1 <= fuel)%nat).
      { injection Er as -> _. unfold sleepers at 1. cbn [tasks].
        pose proof (sleepers_fire self i tm
                      (set_status tm (Finished (fst (callee tm (advance (wake tm) w)))))
                      Hl Hs ltac:(discriminate)) as Hsf.
        lia. }
      destruct (IH self1 w1 Hc1 Hf1) as [H1 H2].
      split; [now apply Hstep | exact H2].
    + cbn [fst]. split; [| exact Hc].
      now apply fired_upto_refl, due_None.
Qed.

Lemma sleepers_le_length self : (sleepers self <= length (tasks self))%nat.
Proof. unfold sleepers. apply length_filter. Qed.

(** *** A burst in any state *)

Lemma timer_eta tm k at_ func st :
  key tm = k -> wake tm = at_ -> callee tm = func -> status tm = st ->
  tm = {| key := k; wake := at_; callee := func; status := st |}.
Proof. destruct tm. cbn. now intros -> -> -> ->. Qed.

Lemma fired_upto_back limit self self' j tm' :
  fired_upto limit self self' -> tasks self' !! j = Some tm' ->
  exists tm,
    tasks self !! j = Some tm /\
    key tm' = key tm /\ wake tm' = wake tm /\ callee tm' = callee tm /\
    ((status tm = Sleeping /\ wake tm <= limit /\
      exists w_at, status tm' = Finished (fst (callee tm w_at))) \/
     (~ (status tm = Sleeping /\ wake tm <= limit) /\
      status tm' = status tm)).
Proof.
  intros (Hlen & Htasks & _) Hj.
  destruct (lookup_lt_is_Some_2 (tasks self) j) as [tm Hl].
  { rewrite <- Hlen. eapply lookup_lt_Some; eauto. }
  destruct (Htasks j tm Hl) as (tm'' & Hl'' & H). exists tm.
  assert (tm'' = tm') by congruence. subst tm''. now split.
Qed.

(** While the newest timer of the burst is not due, the loop leaves the
    burst as it is. *)
Lemma run_until_in_burst self w n0 k c at_ func limit :
  in_burst self n0 k c at_ func -> limit < at_ ->
  let self' := fst (run_until (length (tasks self)) self w limit) in
  in_burst self' n0 k c at_ func /\ delay self' = delay self.
Proof.
  intros (Hc & (Hlen & Hdone & Hnew) & Hold) Hlt self'.
  destruct (run_until_fired limit (length (tasks self)) self w Hc
              (sleepers_le_length self)) as [Hf Hc'].
  fold self' in Hf, Hc'.
  pose proof Hf as (Hlen' & Htasks & _ & Hdelay).
  split; [| exact Hdelay].
  split; [exact Hc' |]. split; [split; [| split] |].
  - congruence.
  - intros j Hj. destruct (Hdone j Hj) as (tm & Hl & Hk & Hs).
    destruct (Htasks _ tm Hl) as (tm' & Hl' & Hk' & _ & _ & Hst).
    exists tm'. repeat split; [assumption | congruence |].
    destruct Hst as [(Hbad & _) | (_ & Hst)]; congruence.
  - destruct (Htasks _ _ Hnew) as (tm' & Hl' & Hk' & Hw' & Hcal' & Hst).
    cbn in Hk', Hw', Hcal', Hst. rewrite Hl'. f_equal.
    apply timer_eta; try assumption.
    destruct Hst as [(_ & Hbad & _) | (_ & Hst)]; [lra | exact Hst].
  - intros j tm' Hj Hl' Hk'.
    destruct (fired_upto_back limit self self' j tm' Hf Hl')
      as (tm & Hl & Hk & _ & _ & Hst).
    assert (Hns : status tm <> Sleeping) by (apply (Hold j); congruence).
    destruct Hst as [(Hbad & _) | (_ & Hst)]; congruence.
Qed.

Lemma run_until_idle self w k limit :
  consistent self -> idle self k ->
  let self' := fst (run_until (length (tasks self)) self w limit) in
  consistent self' /\ idle self' k /\
  length (tasks self') = length (tasks self) /\ delay self' = delay self.
Proof.
  intros Hc Hi self'.
  destruct (run_until_fired limit (length (tasks self)) self w Hc
              (sleepers_le_length self)) as [Hf Hc'].
  fold self' in Hf, Hc'.
  pose proof Hf as (Hlen' & _ & _ & Hdelay).
  split; [exact Hc' |]. split; [| split; assumption].
  intros j tm' Hl' Hk'.
  destruct (fired_upto_back limit self self' j tm' Hf Hl')
    as (tm & Hl & Hk & _ & _ & Hst).
  assert (Hns : status tm <> Sleeping) by (apply (Hi j); congruence).
  destruct Hst as [(Hbad & _) | (_ & Hst)]; congruence.
Qed.

(** The first event of a burst for an idle key. *)
Lemma debounce_idle self k func w :
  consistent self -> idle self k ->
  in_burst (fst (debounce self k func w)) (length (tasks self)) k 0
    (now w + delay self) func.
Proof.
  intros Hc Hi. split; [now apply debounce_consistent |].
  unfold debounce. cbn [fst].
  set (tasks1 := match pending_tasks self !! k with
                 | Some i0 => alter cancel i0 (tasks self)
                 | None => tasks self
                 end).
  assert (Hlen : length tasks1 = length (tasks self)).
  { subst tasks1. destruct (pending_tasks self !! k); [| reflexivity].
    apply length_alter. }
  split; [split; [| split] |]; cbn [tasks].
  - rewrite length_app, Hlen. cbn. lia.
  - intros j Hj. lia.
  - rewrite Nat.add_0_r, <- Hlen. rewrite lookup_app_r by lia.
    now rewrite Nat.sub_diag.
  - intros j tm Hj Hl Hk. rewrite lookup_app_l in Hl by lia.
    subst tasks1. destruct (pending_tasks self !! k) as [i0 |].
    + destruct (decide (i0 = j)) as [-> | Hne].
      * rewrite list_lookup_alter_eq in Hl.
        destruct (tasks self !! j) as [tm0 |]; [| discriminate].
        cbn in Hl. injection Hl as <-. apply cancel_not_sleeping.
      * rewrite list_lookup_alter_ne in Hl by assumption. now apply (Hi j).
    + now apply (Hi j).
Qed.

(** A later event of the burst: the waiting timer of the event before is
    cancelled, the new task waits in its place. *)
Lemma debounce_in_burst self n0 k c at_ func0 func w :
  in_burst self n0 k c at_ func0 ->
  in_burst (fst (debounce self k func w)) n0 k (S c)
    (now w + delay self) func.
Proof.
  intros (Hc & (Hlen & Hdone & Hnew) & Hold).
  split; [now apply debounce_consistent |].
  pose proof (proj1 Hc _ _ Hnew eq_refl) as Hp. cbn [key] in Hp.
  unfold debounce. cbn [fst tasks]. rewrite Hp.
  assert (Hla : length (alter cancel (n0 + c)%nat (tasks self))
                = (n0 + c + 1)%nat) by now rewrite length_alter.
  split; [split; [| split] |]; cbn [tasks].
  - rewrite length_app, Hla. cbn. lia.
  - intros j Hj. rewrite lookup_app_l by lia.
    destruct (decide (j = c)) as [-> | Hne].
    + rewrite list_lookup_alter_eq, Hnew. cbn. eexists.
      split; [reflexivity |]. split; reflexivity.
    + rewrite list_lookup_alter_ne by lia. apply Hdone. lia.
  - rewrite lookup_app_r by lia. rewrite Hla.
    replace (n0 + S c - (n0 + c + 1))%nat with O by lia. reflexivity.
  - intros j tm Hj Hl Hk. rewrite lookup_app_l in Hl by lia.
    rewrite list_lookup_alter_ne in Hl by lia. now apply (Hold j).
Qed.

Lemma burst_in_burst (n0 : nat) (k : string) (evs : list (Q * IO R)) :
  forall self w func c,
    in_burst self n0 k c (now w + delay self) func ->
    Forall (fun ev => fst ev < delay self) evs ->
    let '(self', w') := burst self w k evs in
    in_burst self' n0 k (c + length evs) (now w' + delay self')
      (last_callee func evs) /\
    delay self' = delay self.
Proof.
  induction evs as [| [gap f] evs IH]; intros self w func c Hb Hg;
    cbn [burst].
  - rewrite Nat.add_0_r. auto.
  - inversion Hg as [| ? ? Hlt Hg']; subst. cbn [fst] in Hlt.
    unfold arrive.
    pose proof (run_until_in_burst self w n0 k c _ func (now w + gap) Hb
                  ltac:(lra)) as Hr.
    destruct (run_until (length (tasks self)) self w (now w + gap))
      as [self_a w_a]. cbn [fst] in Hr. destruct Hr as [Hb_a Hd_a].
    pose proof (debounce_in_burst self_a n0 k c _ func f w_a Hb_a) as Hb1.
    specialize (IH (fst (debounce self_a k f w_a)) w_a f (S c)).
    rewrite debounce_delay in IH. rewrite Hd_a in *.
    specialize (IH Hb1 Hg').
    destruct (burst (fst (debounce self_a k f w_a)) w_a k evs) as [self' w'].
    destruct IH as [H1 H2]. split; [| exact H2].
    cbn [length]. replace (c + S (length evs))%nat with (S c + length evs)%nat
      by lia.
    unfold last_callee in *. cbn [List.last].
    destruct evs as [| ev evs]; [exact H1 |].
    now rewrite (last_cons_default ev evs (0, func) (0, f)).
Qed.

(** Once it is due, the newest timer of the burst runs. *)
Lemma run_until_finishes_burst self w n0 k c at_ func limit :
  in_burst self n0 k c at_ func -> at_ <= limit ->
  exists w_at,
    burst_tasks (fst (run_until (length (tasks self)) self w limit)) n0 k c
      {| key := k; wake := at_; callee := func;
         status := Finished (fst (func w_at)) |}.
Proof.
  intros (Hc & (Hlen & Hdone & Hnew) & Hold) Hle.
  destruct (run_until_fired limit (length (tasks self)) self w Hc
              (sleepers_le_length self)) as [Hf _].
  destruct Hf as (Hlen' & Htasks & _).
  destruct (Htasks _ _ Hnew) as (tm' & Hl' & Hk' & Hw' & Hcal' & Hst).
  cbn in Hk', Hw', Hcal', Hst.
  destruct Hst as [(_ & _ & w_at & Hst) | (Hbad & _)]; [| tauto].
  exists w_at. split; [congruence |]. split.
  - intros j Hj. destruct (Hdone j Hj) as (tm & Hl & Hk & Hs).
    destruct (Htasks _ tm Hl) as (tm1 & Hl1 & Hk1 & _ & _ & Hst1).
    exists tm1. repeat split; [assumption | congruence |].
    destruct Hst1 as [(Hbad & _) | (_ & Hst1)]; congruence.
  - rewrite Hl'. f_equal. now apply timer_eta.
Qed.

(** At rest the world can be followed exactly: nothing runs during the
    burst, and the wake-up of the last timer is the only thing that runs
    after it. *)
Lemma burst_at_rest (self : t R) (w : World) (k : string)
    (gap : Q) (func : IO R) (evs : list (Q * IO R)) (target : Q) :
  quiescent self ->
  Forall (fun ev => fst ev < delay self) evs ->
  let '(self1, w1) := burst self w k ((gap, func) :: evs) in
  journal w1 = journal w /\
  (now w1 + delay self <= target ->
   let '(o, w2) :=
     last_callee func evs (advance (now w1 + delay self) w1) in
   exists self2,
     run_until (length (tasks self1)) self1 w1 target
     = (self2, advance target w2) /\
     ran_last self1 self2 o /\
     quiescent self2).
Proof.
  intros Hq Hg. cbn [burst].
  rewrite arrive_none_due by now apply quiescent_none_due.
  set (w0 := advance (now w + gap) w).
  pose proof (debounce_quiescent self k func w0 Hq) as Hw.
  pose proof (burst_keeps_one_waiting k evs (fst (debounce self k func w0))
                w0 func) as Hb.
  rewrite debounce_delay in Hb. specialize (Hb Hw Hg).
  destruct (burst (fst (debounce self k func w0)) w0 k evs) as [self1 w1].
  destruct Hb as (H1 & H2 & H3). rewrite H2 in H1. split.
  - rewrite H3. apply advance_journal.
  - intros Hle. exact (run_until_one_waiting self1 w1 k _ _ target H1 Hle).
Qed.

(** C9. A burst of events for one key [k] reaches a debouncer in which no
    timer of [k] is waiting, each event after the first less than [delay]
    after the one before. After every event of the burst the timers of its
    earlier events are cancelled and the only waiting timer of [k] is the
    one of that event. Once [delay] has passed after the last event, the
    task of the last event is finished with the outcome of its callable,
    and the tasks of the earlier events are still cancelled: of the burst,
    exactly the last event has run. If no timer at all was waiting, the
    world shows it: nothing runs during the burst, and after it the
    callable of the last event runs once and nothing else does. In every
    state the debouncer goes through, whatever the keys and the timing, no
    key has two waiting timers. *)
Theorem debounce_burst_runs_last_once (self : t R) (w : World) (k : string)
    (gap : Q) (func : IO R) (evs : list (Q * IO R)) (target : Q) :
  reachable self -> idle self k ->
  Forall (fun ev => fst ev < delay self) evs ->
  let '(self1, w1) := burst self w k ((gap, func) :: evs) in
  in_burst self1 (length (tasks self)) k (length evs)
    (now w1 + delay self) (last_callee func evs) /\
  (now w1 + delay self <= target ->
   exists w_at,
     burst_tasks (fst (run_until (length (tasks self1)) self1 w1 target))
       (length (tasks self)) k (length evs)
       {| key := k; wake := now w1 + delay self;
          callee := last_callee func evs;
          status := Finished (fst (last_callee func evs w_at)) |}) /\
  (quiescent self ->
   journal w1 = journal w /\
   (now w1 + delay self <= target ->
    let '(o, w2) :=
      last_callee func evs (advance (now w1 + delay self) w1) in
    exists self2,
      run_until (length (tasks self1)) self1 w1 target
      = (self2, advance target w2) /\
      ran_last self1 self2 o /\
      quiescent self2)) /\
  (forall (s : t R) (i j : nat) (tmi tmj : Timer R),
     reachable s ->
     tasks s !! i = Some tmi -> tasks s !! j = Some tmj ->
     status tmi = Sleeping -> status tmj = Sleeping ->
     key tmi = key tmj -> i = j).
Proof.
  intros Hr Hi Hg.
  pose proof (fun Hq => burst_at_rest self w k gap func evs target Hq Hg)
    as Hrest.
  apply reachable_consistent in Hr.
  assert (Hgen :
    let '(self1, w1) := burst self w k ((gap, func) :: evs) in
    in_burst self1 (length (tasks self)) k (length evs)
      (now w1 + delay self) (last_callee func evs)).
  { cbn [burst]. unfold arrive.
    pose proof (run_until_idle self w k (now w + gap) Hr Hi) as Ha.
    destruct (run_until (length (tasks self)) self w (now w + gap))
      as [self_a w_a]. cbn [fst] in Ha.
    destruct Ha as (Hc_a & Hi_a & Hl_a & Hd_a).
    pose proof (debounce_idle self_a k func w_a Hc_a Hi_a) as Hb0.
    pose proof (burst_in_burst (length (tasks self_a)) k evs
                  (fst (debounce self_a k func w_a)) w_a func O) as Hb.
    rewrite debounce_delay in Hb. rewrite <- Hd_a in Hg.
    specialize (Hb Hb0 Hg).
    destruct (burst (fst (debounce self_a k func w_a)) w_a k evs)
      as [self1 w1].
    destruct Hb as [Hb Hd1]. rewrite Hd1 in Hb.
    rewrite <- Hl_a, <- Hd_a. exact Hb. }
  destruct (burst self w k ((gap, func) :: evs)) as [self1 w1].
  split; [| split; [| split]].
  - exact Hgen.
  - intros Hle. now apply run_until_finishes_burst.
  - exact Hrest.
  - intros s i j tmi tmj Hs. now apply one_timer_per_key.
Qed.

End DebouncerProps.

Lemma debounce_burst_runs_last_once_witness :
  let self := Debouncer.init (R := nat) (1 # 2) in
  let w := {| now := 0; journal := [] |} in
  let f (n : nat) : IO nat := invoke (fun _ => (Ok n, 0)) in
  let '(self1, w1) :=
    Debouncer.burst self w "a.aep"
      [(0, f 1%nat); (1 # 10, f 2%nat); (1 # 10, f 3%nat)] in
  journal w1 = [] /\
  exists self2 w3,
    Debouncer.run_until (length (Debouncer.tasks self1)) self1 w1 1
    = (self2, w3) /\
    journal w3 = [EvInvoke 0] /\
    map Debouncer.status (Debouncer.tasks self2)
    = [Debouncer.Cancelled; Debouncer.Cancelled;
       Debouncer.Finished (Ok 3%nat)].
Proof.
  intros self w f.
  pose proof (debounce_burst_runs_last_once self w "a.aep" 0 (f 1%nat)
                [(1 # 10, f 2%nat); (1 # 10, f 3%nat)] 1) as H.
  destruct (Debouncer.burst self w "a.aep"
              [(0, f 1%nat); (1 # 10, f 2%nat); (1 # 10, f 3%nat)])
    as [self1 w1] eqn:Eb.
  destruct H as (_ & _ & Hrest & _).
  - constructor.
  - intros i tm Hl. discriminate Hl.
  - repeat constructor; cbn; lra.
  - destruct Hrest as [Hj _]; [constructor |].
    split; [exact Hj |].
    vm_compute in Eb. injection Eb as <- <-.
    eexists _, _. vm_compute. repeat split.
Defined.

(** ** PerformanceMonitor *)

Section PerformanceMonitorProps.

Import PerformanceMonitor PerformanceStats.

Lemma deque_append_length {A} (maxlen : nat) (d : list A) (x : A) :
  length (deque_append maxlen d x) = Nat.min (S (length d)) maxlen.
Proof.
  unfold deque_append. rewrite length_drop, length_app. cbn [length]. lia.
Qed.

(** Appending to a window that holds the newest samples of [seen] gives the
    window of the newest samples of [seen] with the new one. *)
Lemma deque_append_last_n {A} (maxlen : nat) (seen : list A) (x : A) :
  deque_append maxlen (last_n maxlen seen) x = last_n maxlen (seen ++ [x]).
Proof.
  unfold deque_append, last_n.
  rewrite !length_app, length_drop. cbn [length].
  destruct (Nat.le_gt_cases (length seen) maxlen) as [Hle | Hgt].
  - replace (length seen - maxlen)%nat with O by lia. rewrite drop_0.
    f_equal. lia.
  - rewrite <- (drop_app_le seen [x] (length seen - maxlen)) by lia.
    rewrite drop_drop. f_equal. lia.
Qed.

Lemma apply_all_snoc (self : t) (ops : list Op) (op : Op) :
  apply_all self (ops ++ [op]) = apply (apply_all self ops) op.
Proof. unfold apply_all. now rewrite fold_left_app. Qed.

Lemma apply_all_window (n : nat) (ops : list Op) :
  window_size (apply_all (init n) ops) = n.
Proof.
  induction ops as [| op ops IH] using rev_ind; [reflexivity |].
  rewrite apply_all_snoc. destruct op; exact IH.
Qed.

Lemma omap_snoc {A B} (f : A -> option B) (l : list A) (x : A) :
  omap f (l ++ [x]) = omap f l ++ match f x with Some y => [y] | None => [] end.
Proof.
  induction l as [| a l IH]; cbn.
  - now destruct (f x).
  - destruct (f a); cbn; now rewrite IH.
Qed.

(** X1. The monitor keeps a sliding window: after any calls on a fresh
    monitor of window size [n], [response_times] and [api_calls] hold
    exactly the newest [n] recorded requests, oldest first, so
    ['total_requests'] of [get_stats] is the number of requests capped at
    [n], not the number of requests made. *)
Theorem monitor_keeps_newest_window (n : nat) (ops : list Op) :
  let m := apply_all (init n) ops in
  response_times m = last_n n (omap request_time ops) /\
  api_calls m = last_n n (omap request_call ops) /\
  stat_total_requests (get_stats m)
  = Nat.min (length (omap request_time ops)) n.
Proof.
  cbv zeta.
  assert (H : response_times (apply_all (init n) ops)
              = last_n n (omap request_time ops) /\
              api_calls (apply_all (init n) ops)
              = last_n n (omap request_call ops) /\
              length (omap request_call ops) = length (omap request_time ops)).
  { induction ops as [| op ops IH] using rev_ind; [now cbn |].
    rewrite apply_all_snoc, !omap_snoc, !length_app.
    pose proof (apply_all_window n ops) as Hw.
    destruct IH as (H1 & H2 & H3).
    destruct op; cbn [apply request_time request_call record_request
                      record_cache_hit record_cache_miss response_times
                      api_calls length].
    - rewrite Hw, H1, H2, !deque_append_last_n. repeat split. lia.
    - rewrite !app_nil_r. repeat split; try assumption. lia.
    - rewrite !app_nil_r. repeat split; try assumption. lia. }
  destruct H as (H1 & H2 & H3). repeat split; try assumption.
  cbn [get_stats stat_total_requests]. rewrite H2. unfold last_n.
  rewrite length_drop. lia.
Qed.

Lemma apply_all_counters (n : nat) (ops : list Op) :
  let m := apply_all (init n) ops in
  cache_hits m = Z.of_nat (length (filter (fun op => is_hit op = true) ops)) /\
  cache_misses m
  = Z.of_nat (length (filter (fun op => is_miss op = true) ops)) /\
  errors m = [].
Proof.
  cbv zeta. induction ops as [| op ops IH] using rev_ind; [now cbn |].
  rewrite apply_all_snoc, !filter_app, !length_app.
  destruct IH as (H1 & H2 & H3).
  destruct op; cbn [apply record_request record_cache_hit record_cache_miss
                    cache_hits cache_misses errors];
    rewrite ?H1, ?H2.
  all: rewrite !filter_cons, !filter_nil;
    repeat case_decide; cbn in *; try congruence;
    repeat split; try assumption; lia.
Qed.

(** X2. ['cache_hit_rate'] of [get_stats] is the share of recorded hits
    among recorded hits and misses, a number between 0 and 1, and it is 0,
    with no division, while nothing has been recorded; recorded requests
    do not enter it. *)
Theorem cache_hit_rate_is_share_of_hits (n : nat) (ops : list Op) :
  let m := apply_all (init n) ops in
  let h := Z.of_nat (length (filter (fun op => is_hit op = true) ops)) in
  let ms := Z.of_nat (length (filter (fun op => is_miss op = true) ops)) in
  0 <= stat_cache_hit_rate (get_stats m) <= 1 /\
  ((h + ms = 0)%Z -> stat_cache_hit_rate (get_stats m) = 0) /\
  ((0 < h + ms)%Z ->
   stat_cache_hit_rate (get_stats m) == inject_Z h / inject_Z (h + ms)).
Proof.
  cbv zeta. destruct (apply_all_counters n ops) as (H1 & H2 & _).
  cbn [get_stats stat_cache_hit_rate]. unfold cache_hit_rate.
  rewrite H1, H2.
  set (h := Z.of_nat (length (filter (fun op => is_hit op = true) ops))).
  set (ms := Z.of_nat (length (filter (fun op => is_miss op = true) ops))).
  assert (Hh : (0 <= h)%Z) by (subst h; lia).
  assert (Hm : (0 <= ms)%Z) by (subst ms; lia).
  destruct (Z.ltb_spec 0 (h + ms)) as [Hpos | Hzero].
  - assert (Hq : 0 < inject_Z (h + ms)) by now apply inject_Z_pos.
    repeat split; try reflexivity; try lia.
    + apply Qle_shift_div_l; [exact Hq |]. rewrite Qmult_0_l.
      change 0 with (inject_Z 0). now rewrite <- Zle_Qle.
    + apply Qle_shift_div_r; [exact Hq |]. rewrite Qmult_1_l.
      rewrite <- Zle_Qle. lia.
  - repeat split; try reflexivity; try lra. lia.
Qed.

(** X3. The monitor never records an error: no call adds to [errors], a
    failed request included, so ['recent_errors'] of [get_stats] is always
    the empty list. *)
Theorem monitor_never_records_errors (n : nat) (ops : list Op) :
  stat_recent_errors (get_stats (apply_all (init n) ops)) = [].
Proof.
  destruct (apply_all_counters n ops) as (_ & _ & H).
  cbn [get_stats stat_recent_errors]. now rewrite H.
Qed.

End PerformanceMonitorProps.

(** ** RateLimiter: bursts, back-to-back calls, misconfiguration *)

Section RateLimiterMore.

Import RateLimiter.

Lemma replenish_ge (self : t) (dt : Q) (c : Q) :
  (0 < rate self)%Z -> (0 < per self)%Z ->
  0 <= dt -> c <= allowance self -> c <= inject_Z (rate self) ->
  c <= replenish self dt.
Proof.
  intros Hr Hp Hdt Ha Hc. unfold replenish.
  apply inject_Z_pos in Hr, Hp.
  assert (Hq : 0 <= dt * (inject_Z (rate self) / inject_Z (per self))).
  { apply Qmult_le_0_compat; [exact Hdt |].
    apply Qlt_le_weak. now apply Qlt_shift_div_l; [| lra]. }
  destruct (Qlt_le_dec _ _); lra.
Qed.

Lemma acquire_all_no_sleep (gaps : list Q) :
  forall (self : t) (w : World),
    (0 < rate self)%Z -> (0 < per self)%Z ->
    last_check self <= now w ->
    Forall (fun g => 0 <= g) gaps ->
    inject_Z (Z.of_nat (length gaps)) <= allowance self ->
    (Z.of_nat (length gaps) <= rate self)%Z ->
    Forall (fun '(o, _, w') => o = Ok tt /\ journal w' = journal w)
           (acquire_all self w gaps).
Proof.
  induction gaps as [| g gaps IH]; intros self w Hr Hp Hl Hg Ha Hk;
    cbn [acquire_all]; [constructor |].
  inversion Hg as [| ? ? Hg0 Hg']; subst.
  pose proof (acquire_step self (pass g w) Hr Hp) as H. cbv zeta in H.
  cbn [length] in Ha, Hk. rewrite Nat2Z.inj_succ in Ha, Hk.
  unfold Z.succ in Ha. rewrite inject_Z_plus in Ha.
  change (inject_Z 1) with 1 in Ha.
  assert (Hkq : inject_Z (Z.of_nat (length gaps)) + 1
                <= inject_Z (rate self)).
  { change 1 with (inject_Z 1). rewrite <- inject_Z_plus.
    rewrite <- Zle_Qle. lia. }
  assert (Hge : inject_Z (Z.of_nat (length gaps)) + 1
                <= replenish self (now (pass g w) - last_check self)).
  { apply replenish_ge; try assumption. cbn. lra. }
  assert (Hnn : 0 <= inject_Z (Z.of_nat (length gaps))).
  { change 0 with (inject_Z 0). rewrite <- Zle_Qle. lia. }
  destruct (acquire self (pass g w)) as [[o self'] w'].
  destruct H as (-> & Er & Ep & El & _ & _ & Hfull).
  destruct Hfull as [Hal ->]; [lra |].
  constructor; [now split |].
  change (journal w) with (journal (pass g w)).
  apply IH; try assumption; try congruence.
  - rewrite El. apply Qle_refl.
  - rewrite Hal. lra.
  - rewrite Er. lia.
Qed.

(** X4. A bucket holding at least [k <= rate] tokens lets the next [k]
    calls pass without any sleep, however they are spaced in time: a full bucket
    lets a burst of [rate] calls through at once. *)
Theorem full_bucket_passes_burst (self : t) (w : World) (gaps : list Q) :
  (0 < rate self)%Z -> (0 < per self)%Z ->
  last_check self <= now w ->
  Forall (fun g => 0 <= g) gaps ->
  inject_Z (Z.of_nat (length gaps)) <= allowance self ->
  (Z.of_nat (length gaps) <= rate self)%Z ->
  Forall (fun '(o, _, w') => o = Ok tt /\ journal w' = journal w)
         (acquire_all self w gaps).
Proof. apply acquire_all_no_sleep. Qed.

Lemma full_bucket_passes_burst_witness :
  Forall (fun '(o, _, w') => o = Ok tt /\ journal w' = [])
         (acquire_all (init 5 60 0) {| now := 0; journal := [] |}
            [0; 0; 0; 0; 0]).
Proof.
  apply (full_bucket_passes_burst (init 5 60 0) {| now := 0; journal := [] |}
           [0; 0; 0; 0; 0]).
  - reflexivity.
  - reflexivity.
  - unfold Qle. cbn. lia.
  - repeat constructor; unfold Qle; cbn; lia.
  - unfold Qle. cbn. lia.
  - cbn. lia.
Defined.

(** X5. The time slept inside [acquire] is credited a second time:
    [last_check] is taken before the sleep, so the call after a sleeping
    call finds the slept interval refilled. With an empty bucket, two
    calls made back to back cost one sleep of [per / rate] together and
    leave the bucket empty again: calls made back to back pass at twice
    the configured rate. *)
Theorem sleep_is_credited_again (self : t) (w : World) :
  (1 <= rate self)%Z -> (0 < per self)%Z ->
  allowance self == 0 -> last_check self == now w ->
  let interval := inject_Z (per self) / inject_Z (rate self) in
  let '(o1, s1, w1) := acquire self w in
  let '(o2, s2, w2) := acquire s1 w1 in
  o1 = Ok tt /\ o2 = Ok tt /\
  (exists d, d == interval /\ journal w2 = EvSleep d :: journal w) /\
  now w2 == now w + interval /\
  allowance s2 == 0 /\ last_check s2 == now w2.
Proof.
  intros Hr Hp Ha Hl interval.
  assert (Hr0 : (0 < rate self)%Z) by lia.
  pose proof (inject_Z_pos _ Hr0) as Hrq.
  pose proof (inject_Z_pos _ Hp) as Hpq.
  assert (Hr1 : 1 <= inject_Z (rate self)).
  { change 1 with (inject_Z 1). now rewrite <- Zle_Qle. }
  pose proof (acquire_step self w Hr0 Hp) as H1. cbv zeta in H1.
  assert (Ha1 : replenish self (now w - last_check self) == 0).
  { unfold replenish.
    assert (Hx : (now w - last_check self)
                 * (inject_Z (rate self) / inject_Z (per self)) == 0).
    { assert (Hdt : now w - last_check self == 0) by lra.
      rewrite Hdt. ring. }
    set (x := _ * _) in *. destruct (Qlt_le_dec _ _); lra. }
  destruct (acquire self w) as [[o1 s1] w1].
  destruct H1 as (-> & Er & Ep & El & _ & Hlt & _).
  destruct Hlt as (Hal1 & Hj1 & Hn1); [lra |].
  assert (Hd : sleep_time self (replenish self (now w - last_check self))
               == interval).
  { unfold sleep_time. rewrite Ha1. subst interval. field. lra. }
  pose proof (acquire_step s1 w1 ltac:(lia) ltac:(lia)) as H2.
  cbv zeta in H2.
  assert (Ha2 : replenish s1 (now w1 - last_check s1) == 1).
  { unfold replenish. rewrite Er, Ep, El.
    assert (Hx : (now w1 - now w)
                 * (inject_Z (rate self) / inject_Z (per self)) == 1).
    { assert (Hdt : now w1 - now w == interval) by lra.
      rewrite Hdt. subst interval. field. lra. }
    set (x := _ * _) in *. destruct (Qlt_le_dec _ _); lra. }
  destruct (acquire s1 w1) as [[o2 s2] w2].
  destruct H2 as (-> & _ & _ & El2 & _ & _ & Hge).
  destruct Hge as [Hal2 ->]; [lra |].
  repeat split.
  - eexists. split; [exact Hd | exact Hj1].
  - rewrite Hn1, Hd. reflexivity.
  - rewrite Hal2, Ha2. reflexivity.
  - rewrite El2. reflexivity.
Qed.

Lemma sleep_is_credited_again_witness :
  let self := {| rate := 60; per := 60; allowance := 0; last_check := 100 |} in
  let w := {| now := 100; journal := [] |} in
  let '(o1, s1, w1) := acquire self w in
  let '(o2, s2, w2) := acquire s1 w1 in
  o1 = Ok tt /\ o2 = Ok tt /\
  (exists d, d == 60 / 60 /\ journal w2 = EvSleep d :: []) /\
  now w2 == 100 + 60 / 60 /\
  allowance s2 == 0 /\ last_check s2 == now w2.
Proof.
  apply (sleep_is_credited_again
           {| rate := 60; per := 60; allowance := 0; last_check := 100 |}
           {| now := 100; journal := [] |}).
  - cbn. lia.
  - reflexivity.
  - reflexivity.
  - reflexivity.
Defined.

(** X6. [acquire] raises [ZeroDivisionError] exactly when [rate] or [per]
    is 0, in whatever state the bucket is; with both different from 0 it
    always returns. *)
Theorem acquire_raises_iff_zero (self : t) (w : World) :
  (exists msg, fst (fst (acquire self w)) = Raise (ZeroDivisionError msg))
  <-> (rate self = 0 \/ per self = 0)%Z.
Proof.
  unfold acquire. cbn [per rate set_last_check set_allowance].
  destruct (Z.eqb_spec (per self) 0) as [Ep | Ep].
  - cbn. split; [auto | eauto].
  - set (a := replenish _ _).
    destruct (Qlt_le_dec a 1) as [Hlt | Hge].
    + destruct (Z.eqb_spec (rate self) 0) as [Er | Er].
      * cbn. split; [auto | eauto].
      * cbn. split; [intros [msg H]; discriminate H | lia].
    + cbn. split; [intros [msg H]; discriminate H |].
      intros [Er | Er]; [| lia]. exfalso.
      subst a. unfold replenish in Hge.
      cbn [rate per allowance set_last_check] in Hge. rewrite Er in Hge.
      change (inject_Z 0) with 0 in Hge.
      destruct (Qlt_le_dec _ _); lra.
Qed.

End RateLimiterMore.

(** ** CircuitBreaker: the cycle from a fresh breaker, and a stuck one *)

Section CircuitBreakerMore.

Import CircuitBreaker MoreSpec.

Lemma call_all_failing {A} (funcs : list (IO A)) :
  forall (self : t) (w : World),
    state self = closed ->
    funcs <> [] ->
    Forall always_fails funcs ->
    (failure_count self + Z.of_nat (length funcs)
     = failure_threshold self)%Z ->
    let '(os, self1, w1) := call_all self funcs w in
    state self1 = open /\
    failure_threshold self1 = failure_threshold self /\
    recovery_timeout self1 = recovery_timeout self /\
    failure_count self1 = failure_threshold self /\
    last_failure_time self1 = Some (now w1) /\
    Forall (fun o => is_ok o = false) os /\
    length os = length funcs.
Proof.
  induction funcs as [| func funcs IH]; intros self w Hs Hne Hall Hc;
    [congruence |].
  inversion Hall as [| ? ? Hf Hall']; subst.
  cbn [call_all length] in *. rewrite call_not_open by congruence.
  specialize (Hf w). destruct (func w) as [[r | e] w']; [discriminate Hf |].
  destruct funcs as [| func' funcs].
  - cbn [call_all]. cbn. cbn [length] in Hc.
    destruct (Z.leb_spec (failure_threshold self) (failure_count self + 1));
      [| lia].
    repeat split; try reflexivity; try lia.
    repeat constructor.
  - specialize (IH (on_failure self (now w')) w').
    destruct (call_all (on_failure self (now w')) (func' :: funcs) w')
      as [[os self1] w1].
    destruct IH as (H1 & H2 & H3 & H4 & H5 & H6 & H7);
      try assumption; try discriminate.
    + cbn. cbn [length] in Hc.
      destruct (Z.leb_spec (failure_threshold self) (failure_count self + 1));
        [lia | assumption].
    + cbn. cbn [length] in Hc. lia.
    + cbn in H2, H3, H4. repeat split; try assumption.
      * constructor; [reflexivity | assumption].
      * cbn. now rewrite H7.
Qed.

(** X7. The breaker's cycle from a fresh breaker with threshold [T >= 1]:
    [T] calls that all fail are all run and leave the breaker open with
    [failure_count = T]; from then on a call made no later than
    [recovery_timeout] after the last failure raises the open-circuit
    exception without running its callable and without changing anything;
    the first call after that which succeeds closes the breaker and resets
    the count to 0. *)
Theorem fresh_breaker_cycle {A} (T : Z) (timeout : Q) (funcs : list (IO A))
    (w : World) :
  (1 <= T)%Z -> length funcs = Z.to_nat T -> Forall always_fails funcs ->
  let '(os, self1, w1) := call_all (init T timeout) funcs w in
  state self1 = open /\ failure_count self1 = T /\
  Forall (fun o => is_ok o = false) os /\ length os = length funcs /\
  (forall (g : IO A) (u : World),
     now u - now w1 <= timeout ->
     call self1 g u = (Raise (Exception open_message), self1, u)) /\
  (forall (g : IO A) (u u' : World) (r : A),
     ~ now w1 == 0 -> timeout < now u - now w1 -> g u = (Ok r, u') ->
     exists s,
       call self1 g u = (Ok r, s, u') /\
       state s = closed /\ failure_count s = 0%Z).
Proof.
  intros HT Hlen Hall.
  pose proof (call_all_failing funcs (init T timeout) w eq_refl) as H.
  destruct (call_all (init T timeout) funcs w) as [[os self1] w1].
  destruct H as (Hs & _ & Hto & Hc & Hl & Hos & Hlo).
  - intros ->. cbn in Hlen. lia.
  - exact Hall.
  - cbn. lia.
  - cbn in Hto, Hc. repeat split; try assumption.
    + intros g u Hle. unfold call.
      rewrite (is_open_before self1 (now u) (now w1)); try assumption.
      * reflexivity.
      * now rewrite Hto.
    + intros g u u' r Hz Hlt Hg. unfold call.
      rewrite (is_open_after self1 (now u) (now w1)); try assumption;
        [| now rewrite Hto].
      rewrite Hg. eexists. split; [reflexivity |]. now cbn.
Qed.

Lemma fresh_breaker_cycle_witness :
  let boom : IO nat := throw (ServiceError "down") in
  let '(os, self1, w1) :=
    call_all (init 2 60) [boom; boom] {| now := 10; journal := [] |} in
  state self1 = open /\ failure_count self1 = 2%Z /\
  call self1 (ret 7%nat) {| now := 70; journal := [] |}
  = (Raise (Exception open_message), self1, {| now := 70; journal := [] |}).
Proof.
  intros boom.
  pose proof (fresh_breaker_cycle 2 60 [boom; boom]
                {| now := 10; journal := [] |}) as H.
  destruct (call_all (init 2 60) [boom; boom] {| now := 10; journal := [] |})
    as [[os self1] w1] eqn:E.
  destruct H as (Hs & Hc & _ & _ & Hfast & _).
  - lia.
  - reflexivity.
  - repeat constructor.
  - repeat split; try assumption. apply Hfast.
    vm_compute in E. injection E as _ _ <-. cbn. lra.
Defined.

(** X8. An open breaker whose last failure was recorded at clock 0.0 never
    recovers: [if self.last_failure_time:] takes that timestamp for "no
    failure recorded", so every later call is refused, at any time, without
    running its callable. *)
Theorem breaker_open_at_zero_is_stuck {A} (self : t) (lft : Q)
    (func : IO A) (w : World) :
  state self = open -> last_failure_time self = Some lft -> lft == 0 ->
  call self func w = (Raise (Exception open_message), self, w).
Proof.
  intros Hs Hl Hz. unfold call, is_open. rewrite Hs, Hl.
  apply Qeq_bool_iff in Hz. now rewrite Hz.
Qed.

Lemma breaker_open_at_zero_is_stuck_witness :
  let self := {| failure_threshold := 1; recovery_timeout := 60;
                 failure_count := 1; last_failure_time := Some 0;
                 state := open |} in
  call self (ret 7%nat) {| now := 1000000; journal := [] |}
  = (Raise (Exception open_message), self,
     {| now := 1000000; journal := [] |}).
Proof.
  intros self.
  apply (breaker_open_at_zero_is_stuck self 0 (ret 7%nat)
           {| now := 1000000; journal := [] |});
    reflexivity.
Defined.

End CircuitBreakerMore.

(** ** RetryHandler: no attempts, total backoff, and the breaker around it *)

Section RetryHandlerMore.

Import RetryHandler RetrySpec MoreSpec.

Context {A : Type}.

(** X9. With [max_retries <= 0] the callable is never run: the loop body
    is skipped and [raise last_exception] raises [TypeError], because
    [last_exception] is still [None]. *)
Theorem no_retries_raises_type_error (self : t) (func : IO A) (w : World) :
  (max_retries self <= 0)%Z ->
  exists msg, execute_with_retry self func w = (Raise (TypeError msg), w).
Proof.
  intros Hm. unfold execute_with_retry.
  replace (Z.to_nat (max_retries self)) with O by lia.
  cbn. eauto.
Qed.

Lemma sleep_total_app (l1 l2 : list Event) :
  sleep_total (l1 ++ l2) == sleep_total l1 + sleep_total l2.
Proof.
  induction l1 as [| e l1 IH]; cbn [app sleep_total fold_right].
  - fold (sleep_total l2). lra.
  - fold (sleep_total (l1 ++ l2)). fold (sleep_total l1).
    destruct e; rewrite IH; lra.
Qed.

Lemma sleep_total_rev (l : list Event) :
  sleep_total (rev l) == sleep_total l.
Proof.
  induction l as [| e l IH]; [reflexivity |].
  cbn [rev]. rewrite sleep_total_app, IH.
  cbn [sleep_total fold_right]. fold (sleep_total l).
  destruct e; lra.
Qed.

Lemma pow2_succ (a : Z) :
  (0 <= a)%Z -> inject_Z (2 ^ (a + 1)) == 2 * inject_Z (2 ^ a).
Proof.
  intros Ha. rewrite Z.pow_add_r by lia.
  rewrite inject_Z_mult. change (inject_Z (2 ^ 1)) with 2. ring.
Qed.

Lemma backoff_trace_sleep_total (self : t) (k : nat) :
  forall (a : Z) (n : nat),
    (0 <= a)%Z ->
    sleep_total (backoff_trace self a n k)
    == base_delay self * inject_Z (2 ^ a) * (inject_Z (2 ^ Z.of_nat k) - 1).
Proof.
  induction k as [| k IH]; intros a n Ha;
    cbn [backoff_trace sleep_total fold_right].
  - change (inject_Z (2 ^ Z.of_nat 0)) with 1. lra.
  - fold (sleep_total (backoff_trace self (a + 1) (S n) k)).
    rewrite IH by lia. rewrite Nat2Z.inj_succ.
    unfold Z.succ. rewrite !pow2_succ by lia. ring.
Qed.

Lemma backoff_trace_invocations (self : t) (k : nat) :
  forall (a : Z) (n : nat),
    length (filter (fun e => is_invoke e = true) (backoff_trace self a n k))
    = S k.
Proof.
  induction k as [| k IH]; intros a n; cbn [backoff_trace].
  - reflexivity.
  - rewrite filter_cons_True by reflexivity.
    rewrite filter_cons_False by (cbn; congruence).
    cbn [length]. now rewrite IH.
Qed.

Lemma invocations_after_trace (tr : list Event) (w w' : World) :
  journal w' = rev tr ++ journal w ->
  invocations w'
  = (length (filter (fun e => is_invoke e = true) tr) + invocations w)%nat.
Proof.
  intros E. unfold invocations. rewrite E, filter_app, length_app.
  assert (Hrev : length (filter (fun e => is_invoke e = true) (rev tr))
                 = length (filter (fun e => is_invoke e = true) tr)).
  { clear E. induction tr as [| e tr IH]; [reflexivity |].
    cbn [rev]. rewrite filter_app, length_app, IH.
    rewrite !filter_cons, filter_nil.
    case_decide; cbn [length]; lia. }
  now rewrite Hrev.
Qed.

Variable self : t.
Variable script : nat -> Outcome A * Q.

(** X10. When all [m = max_retries >= 1] attempts fail, the callable has
    run exactly [m] times and the loop has asked for
    [base_delay * (2^(m-1) - 1)] of sleep in all: the sum of the delays
    [base_delay * 2^j] for [j < m - 1]. *)
Theorem retry_total_backoff (w : World) (errs : nat -> exn) :
  (1 <= max_retries self)%Z ->
  let m := Z.to_nat (max_retries self) in
  (forall i, (i < m)%nat -> fails_at script (invocations w + i) (errs i)) ->
  let '(o, w') := execute_with_retry self (invoke script) w in
  o = Raise (errs (m - 1)%nat) /\
  invocations w' = (invocations w + m)%nat /\
  slept w' ==
  slept w + base_delay self * (inject_Z (2 ^ (max_retries self - 1)) - 1).
Proof.
  intros Hm m Hfail. unfold execute_with_retry. fold m.
  assert (Em : m = S (m - 1)) by lia.
  pose proof (attempts_exhausted self script (m - 1) 0%Z None w errs) as H.
  rewrite <- Em in H.
  destruct (attempts self (invoke script) m 0%Z None w) as [o w'].
  destruct H as [Ho Hj]; [lia | intros i Hi; apply Hfail; lia |].
  split; [exact Ho |]. split.
  - rewrite (invocations_after_trace _ w w' Hj).
    rewrite backoff_trace_invocations. lia.
  - unfold slept. rewrite Hj, sleep_total_app, sleep_total_rev.
    rewrite backoff_trace_sleep_total by lia.
    replace (Z.of_nat (m - 1)) with (max_retries self - 1)%Z by lia.
    change (inject_Z (2 ^ 0)) with 1. ring.
Qed.

(** X11. A breaker around the retry loop counts exhausted loops, not
    failed attempts. Through a closed breaker: if some attempt [k < m]
    succeeds, the breaker is exactly as before, whatever number of
    attempts failed first; if all [m] attempts fail, [failure_count]
    grows by one. *)
Theorem breaker_counts_retry_loops (cb : CircuitBreaker.t) (w : World) :
  CircuitBreaker.state cb = CircuitBreaker.closed ->
  (1 <= max_retries self)%Z ->
  let m := Z.to_nat (max_retries self) in
  let '(o, cb', w') :=
    CircuitBreaker.call cb (execute_with_retry self (invoke script)) w in
  (forall (k : nat) (v : A),
     (k < m)%nat ->
     (forall i, (i < k)%nat ->
        exists e, fails_at script (invocations w + i) e) ->
     fst (script (invocations w + k)) = Ok v ->
     o = Ok v /\ cb' = cb /\
     invocations w' = (invocations w + k + 1)%nat) /\
  (forall errs : nat -> exn,
     (forall i, (i < m)%nat -> fails_at script (invocations w + i) (errs i)) ->
     o = Raise (errs (m - 1)%nat) /\
     CircuitBreaker.failure_count cb'
     = (CircuitBreaker.failure_count cb + 1)%Z /\
     invocations w' = (invocations w + m)%nat).
Proof.
  intros Hs Hm m. rewrite call_not_open by congruence.
  unfold execute_with_retry. fold m.
  pose proof (fun k v => attempts_success self script k m 0%Z None w v)
    as Hsucc.
  assert (Em : m = S (m - 1)) by lia.
  pose proof (fun errs => attempts_exhausted self script (m - 1) 0%Z None w errs)
    as Hall.
  rewrite <- Em in Hall.
  destruct (attempts self (invoke script) m 0%Z None w) as [[v0 | e0] w'].
  - split.
    + intros k v Hk Hfail Hok.
      destruct (Hsucc k v Hk ltac:(lia) Hfail Hok) as [E Hj].
      split; [exact E |]. split.
      * unfold CircuitBreaker.on_success. now rewrite Hs.
      * rewrite (invocations_after_trace _ w w' Hj).
        rewrite backoff_trace_invocations. lia.
    + intros errs Hfail.
      destruct (Hall errs ltac:(lia)) as [E _];
        [intros i Hi; apply Hfail; lia | discriminate E].
  - split.
    + intros k v Hk Hfail Hok.
      destruct (Hsucc k v Hk ltac:(lia) Hfail Hok) as [E _]. discriminate E.
    + intros errs Hfail.
      destruct (Hall errs ltac:(lia)) as [E Hj];
        [intros i Hi; apply Hfail; lia |].
      split; [exact E |]. split; [reflexivity |].
      rewrite (invocations_after_trace _ w w' Hj).
      rewrite backoff_trace_invocations. lia.
Qed.

End RetryHandlerMore.

Lemma no_retries_raises_type_error_witness :
  exists msg,
    RetryHandler.execute_with_retry
      {| RetryHandler.max_retries := 0; RetryHandler.base_delay := 1 |}
      (ret 7%nat) {| now := 0; journal := [] |}
    = (Raise (TypeError msg), {| now := 0; journal := [] |}).
Proof.
  apply (no_retries_raises_type_error
           {| RetryHandler.max_retries := 0; RetryHandler.base_delay := 1 |}
           (ret 7%nat)
           {| now := 0; journal := [] |}).
  cbn. lia.
Defined.


Lemma retry_total_backoff_witness :
  let self := {| RetryHandler.max_retries := 3; RetryHandler.base_delay := 1 |} in
  let script (n : nat) : Outcome nat * Q := (Raise (ServiceError "busy"), 0) in
  let w := {| now := 0; journal := [] |} in
  let '(o, w') := RetryHandler.execute_with_retry self (invoke script) w in
  o = Raise (ServiceError "busy") /\
  invocations w' = 3%nat /\
  MoreSpec.slept w' == 0 + 1 * (inject_Z (2 ^ (3 - 1)) - 1).
Proof.
  intros self script w.
  apply (retry_total_backoff self script w (fun _ => ServiceError "busy")).
  - cbn. lia.
  - intros i Hi. reflexivity.
Defined.

Lemma breaker_counts_retry_loops_witness :
  let self := {| RetryHandler.max_retries := 3; RetryHandler.base_delay := 1 |} in
  let script (n : nat) : Outcome nat * Q := (Raise (ServiceError "busy"), 0) in
  let w := {| now := 0; journal := [] |} in
  let '(o, cb', w') :=
    CircuitBreaker.call (CircuitBreaker.init 5 60)
      (RetryHandler.execute_with_retry self (invoke script)) w in
  o = Raise (ServiceError "busy") /\
  CircuitBreaker.failure_count cb' = 1%Z /\ invocations w' = 3%nat.
Proof.
  intros self script w.
  pose proof (breaker_counts_retry_loops self script
                (CircuitBreaker.init 5 60) w eq_refl ltac:(cbn; lia)) as H.
  cbv zeta in H.
  destruct (CircuitBreaker.call (CircuitBreaker.init 5 60)
              (RetryHandler.execute_with_retry self (invoke script)) w)
    as [[o cb'] w'].
  destruct H as [_ H].
  apply (H (fun _ => ServiceError "busy")).
  intros i Hi. reflexivity.
Defined.

(** ** EnhancedCache: round trip, keys, growth *)

Section EnhancedCacheMore.

Import EnhancedCache.

Variable md5 : string -> string.

Lemma store_table (self : t) (key val a m : string) (t1 : Q)
    (rows : gmap string Row) :
  backend self = Table rows ->
  store md5 self key val a m t1 =
  (Ok tt,
   {| backend :=
        Table (<[md5 key :=
                   {| value := val; agent := a; model := m;
                      created_at := t1;
                      expires_at := t1 + inject_Z (ttl self);
                      hit_count := 0 |}]> rows);
      ttl := ttl self; monitor := monitor self |}).
Proof. intros Hb. unfold store. now rewrite Hb. Qed.

Lemma get_ok_table (self c : t) (key : string) (t1 : Q)
    (got : option string) :
  get md5 self key t1 = (Ok got, c) ->
  ttl c = ttl self /\
  exists rows rows', backend self = Table rows /\ backend c = Table rows'.
Proof.
  unfold get. destruct (backend self) as [msg | rows] eqn:Hb; [discriminate |].
  destruct (select rows (md5 key) t1); intros [= <- <-]; cbn; eauto.
Qed.

Lemma get_fst (self : t) (key : string) (t1 : Q) :
  fst (get md5 self key t1) =
  match backend self with
  | Unavailable msg => Raise (OperationalError msg)
  | Table rows => Ok (value <$> select rows (md5 key) t1)
  end.
Proof.
  unfold get. destruct (backend self) as [msg | rows]; [reflexivity |].
  now destruct (select rows (md5 key) t1).
Qed.

(** A lookup changes hit counts only: every later lookup returns what it
    would have returned without it. *)
Lemma get_preserves_reads (self : t) (key0 key : string) (t0 t1 : Q) :
  fst (get md5 (snd (get md5 self key0 t0)) key t1)
  = fst (get md5 self key t1).
Proof.
  rewrite !get_fst. unfold get.
  destruct (backend self) as [msg | rows] eqn:Hb.
  - cbn [snd]. now rewrite Hb.
  - destruct (select rows (md5 key0) t0) as [r0 |]; cbn [snd backend];
      [| reflexivity].
    f_equal. unfold select.
    destruct (decide (md5 key0 = md5 key)) as [-> | Hne].
    + rewrite lookup_alter_eq.
      destruct (rows !! md5 key) as [r |]; cbn; [| reflexivity].
      now destruct (Qlt_le_dec t1 (expires_at r)).
    + now rewrite lookup_alter_ne by assumption.
Qed.

(** X12. Round trip: a value stored at time [t1] is what [get] returns for
    the same key at every time before [t1 + ttl], and [get] misses it at
    every time from [t1 + ttl] on; with [ttl <= 0] a stored value is never
    returned. *)
Theorem stored_value_is_read_until_expiry (self : t)
    (key val a m : string) (t1 t2 : Q) (rows : gmap string Row) :
  backend self = Table rows ->
  let self1 := snd (store md5 self key val a m t1) in
  (t2 < t1 + inject_Z (ttl self) ->
   fst (get md5 self1 key t2) = Ok (Some val)) /\
  (t1 + inject_Z (ttl self) <= t2 ->
   fst (get md5 self1 key t2) = Ok None) /\
  ((ttl self <= 0)%Z -> t1 <= t2 -> fst (get md5 self1 key t2) = Ok None).
Proof.
  intros Hb self1. subst self1. rewrite (store_table _ _ _ _ _ _ rows Hb).
  cbn [snd]. unfold get, select. cbn [backend].
  rewrite lookup_insert_eq. cbn [expires_at value].
  assert (Hz : (ttl self <= 0)%Z -> inject_Z (ttl self) <= 0).
  { intros H. change 0 with (inject_Z 0). now rewrite <- Zle_Qle. }
  destruct (Qlt_le_dec t2 (t1 + inject_Z (ttl self))) as [Hlt | Hge];
    cbn [fst]; repeat split; try reflexivity; intros; try lra.
  specialize (Hz H). lra.
Qed.

(** X13. The table is keyed by the md5 of the key and by nothing else: a
    [store] leaves what [get] returns for every key of another hash as it
    was, and a key of the same hash reads the value stored for the other
    key. *)
Theorem cache_is_keyed_by_hash (self : t) (key key' val a m : string)
    (t1 t2 : Q) (rows : gmap string Row) :
  backend self = Table rows ->
  let self1 := snd (store md5 self key val a m t1) in
  (md5 key' <> md5 key ->
   fst (get md5 self1 key' t2) = fst (get md5 self key' t2)) /\
  (md5 key' = md5 key -> t2 < t1 + inject_Z (ttl self) ->
   fst (get md5 self1 key' t2) = Ok (Some val)).
Proof.
  intros Hb self1. subst self1. rewrite (store_table _ _ _ _ _ _ rows Hb).
  cbn [snd]. unfold get, select. cbn [backend]. rewrite Hb. split.
  - intros Hne. rewrite lookup_insert_ne by congruence.
    destruct (rows !! md5 key') as [r |]; [| reflexivity].
    now destruct (Qlt_le_dec t2 (expires_at r)).
  - intros -> Hlt. rewrite lookup_insert_eq. cbn [expires_at value].
    destruct (Qlt_le_dec _ _); [reflexivity | lra].
Qed.

(** X14. Nothing removes a row: a [get] leaves the set of stored hashes
    as it is, expired rows included, and a [store] adds the hash of its key
    to it. *)
Theorem cache_table_never_shrinks (self : t) (key val a m : string)
    (t1 : Q) (rows : gmap string Row) :
  backend self = Table rows ->
  (exists rows', backend (snd (get md5 self key t1)) = Table rows' /\
                 dom rows' = dom rows) /\
  (exists rows', backend (snd (store md5 self key val a m t1)) = Table rows' /\
                 dom rows' = {[ md5 key ]} ∪ dom rows).
Proof.
  intros Hb. split.
  - unfold get. rewrite Hb.
    destruct (select rows (md5 key) t1); cbn; eexists; split;
      try reflexivity.
    apply dom_alter_L.
  - rewrite (store_table _ _ _ _ _ _ rows Hb). cbn. eexists. split;
      [reflexivity |]. apply dom_insert_L.
Qed.

End EnhancedCacheMore.

Lemma stored_value_is_read_until_expiry_witness :
  let self := {| EnhancedCache.backend := EnhancedCache.Table ∅;
                 EnhancedCache.ttl := 86400;
                 EnhancedCache.monitor := PerformanceMonitor.init 100 |} in
  fst (EnhancedCache.get (fun s => s)
         (snd (EnhancedCache.store (fun s => s) self "k" "v" "a" "m" 10))
         "k" 86409)
  = Ok (Some "v").
Proof.
  intros self.
  apply (stored_value_is_read_until_expiry (fun s => s) self
           "k" "v" "a" "m" 10 86409 ∅ eq_refl).
  unfold Qlt. cbn. lia.
Defined.

Lemma cache_is_keyed_by_hash_witness :
  let self := {| EnhancedCache.backend := EnhancedCache.Table ∅;
                 EnhancedCache.ttl := 86400;
                 EnhancedCache.monitor := PerformanceMonitor.init 100 |} in
  fst (EnhancedCache.get (fun _ => "d41d8")
         (snd (EnhancedCache.store (fun _ => "d41d8") self
                 "one" "v" "a" "m" 10)) "two" 20)
  = Ok (Some "v").
Proof.
  intros self.
  apply (proj2 (cache_is_keyed_by_hash (fun _ => "d41d8") self
                  "one" "two" "v" "a" "m" 10 20 ∅ eq_refl));
    [reflexivity | unfold Qlt; cbn; lia].
Defined.

Lemma cache_table_never_shrinks_witness :
  let self := {| EnhancedCache.backend := EnhancedCache.Table ∅;
                 EnhancedCache.ttl := 0;
                 EnhancedCache.monitor := PerformanceMonitor.init 100 |} in
  exists rows',
    EnhancedCache.backend
      (snd (EnhancedCache.store (fun s => s) self "k" "v" "a" "m" 10))
    = EnhancedCache.Table rows' /\
    dom rows' = {[ "k" ]} ∪ dom (∅ : gmap string EnhancedCache.Row).
Proof.
  intros self.
  exact (proj2 (cache_table_never_shrinks (fun s => s) self
                  "k" "v" "a" "m" 10 ∅ eq_refl)).
Defined.

(** ** OptimizedOrchestrator: the cache around the call, the health check *)

Section OrchestratorMore.

Import OptimizedOrchestrator.

Variable md5 : string -> string.
Variable route_task : Task -> IO AgentResult.

(** What a finished [route_task_optimized] leaves in the cache: the cache
    after the lookup, with one more row exactly when a successful result is
    returned. *)
Lemma route_task_optimized_cache (self self' : t) (task : Task)
    (w w' : World) (r : Outcome RouteResult) :
  route_task_optimized md5 route_task self task w = (r, self', w') ->
  let c := snd (EnhancedCache.get md5 (cache self) (prompt task) (now w)) in
  cache self' =
  match r with
  | Ok (Routed result) =>
      if success result
      then snd (EnhancedCache.store md5 c (prompt task) (output result)
                  (agent_name result) (model_used result) (now w'))
      else c
  | _ => c
  end.
Proof.
  unfold route_task_optimized.
  destruct (EnhancedCache.get md5 (cache self) (prompt task) (now w))
    as [[got | e] c] eqn:Hg; cbn [snd]; [| now intros [= <- <- <-]].
  destruct (truthy got); [now intros [= <- <- <-] |].
  destruct (RateLimiter.acquire _ _) as [[[u | e] rl] w1];
    [| now intros [= <- <- <-]].
  destruct (CircuitBreaker.call _ _ _) as [[o cb] w2].
  apply get_ok_table in Hg. destruct Hg as (_ & rows & rows' & _ & Hb').
  unfold conclude.
  cbn [cache set_circuit_breaker set_rate_limiter set_monitor set_cache].
  destruct o as [result | e]; [| now intros [= <- <- <-]].
  destruct (success result) eqn:Hs.
  - rewrite (store_table md5 _ _ _ _ _ _ rows' Hb').
    intros [= <- <- <-]. rewrite Hs.
    now rewrite (store_table md5 _ _ _ _ _ _ rows' Hb').
  - intros [= <- <- <-]. now rewrite Hs.
Qed.

(** X15. The cache makes a repeated task cheap: after
    [route_task_optimized] has returned a successful result with a
    non-empty output, a call for the same prompt made before the entry
    expires returns that output from the cache and leaves the clock and the
    journal as they are: no token is waited for and the service is not
    called. *)
Theorem routed_result_is_served_from_cache (self self' : t)
    (task task2 : Task) (w w' w2 : World) (result : AgentResult) :
  route_task_optimized md5 route_task self task w
  = (Ok (Routed result), self', w') ->
  success result = true ->
  output result <> "" ->
  prompt task2 = prompt task ->
  now w2 < now w' + inject_Z (EnhancedCache.ttl (cache self)) ->
  exists self'',
    route_task_optimized md5 route_task self' task2 w2
    = (Ok (Cached (output result)), self'', w2).
Proof.
  intros Hr Hs Ho Hp Hlt.
  pose proof (route_task_optimized_cache _ _ _ _ _ _ Hr) as Hc.
  cbv beta zeta iota in Hc. rewrite Hs in Hc.
  assert (Hg : exists got c,
             EnhancedCache.get md5 (cache self) (prompt task) (now w)
             = (Ok got, c)).
  { unfold route_task_optimized in Hr.
    destruct (EnhancedCache.get md5 (cache self) (prompt task) (now w))
      as [[got | e] c]; [eauto | discriminate]. }
  destruct Hg as (got & c & Hg). rewrite Hg in Hc. cbn [snd] in Hc.
  destruct (get_ok_table md5 _ _ _ _ _ Hg) as (Httl & rows & rows' & Hb & Hb').
  rewrite (store_table md5 _ _ _ _ _ _ rows' Hb') in Hc. cbn [snd] in Hc.
  destruct (route_hit md5 route_task self' task2 w2
              (<[md5 (prompt task) :=
                   {| EnhancedCache.value := output result;
                      EnhancedCache.agent := agent_name result;
                      EnhancedCache.model := model_used result;
                      EnhancedCache.created_at := now w';
                      EnhancedCache.expires_at :=
                        now w' + inject_Z (EnhancedCache.ttl c);
                      EnhancedCache.hit_count := 0 |}]> rows')
              {| EnhancedCache.value := output result;
                 EnhancedCache.agent := agent_name result;
                 EnhancedCache.model := model_used result;
                 EnhancedCache.created_at := now w';
                 EnhancedCache.expires_at :=
                   now w' + inject_Z (EnhancedCache.ttl c);
                 EnhancedCache.hit_count := 0 |})
    as (self'' & Hroute & _).
  - now rewrite Hc.
  - rewrite Hp. apply lookup_insert_eq.
  - cbn. now rewrite Httl.
  - exact Ho.
  - exists self''. exact Hroute.
Qed.

(** X16. Only a successful result changes what the cache returns: when
    [route_task_optimized] raises, returns a cached value or returns a
    result without [success], every lookup afterwards, for any key at any
    time, returns what it would have returned before the call. *)
Theorem failed_call_leaves_cache_as_it_was (self self' : t) (task : Task)
    (w w' : World) (r : Outcome RouteResult) (key : string) (t1 : Q) :
  route_task_optimized md5 route_task self task w = (r, self', w') ->
  (forall result, r = Ok (Routed result) -> success result = false) ->
  fst (EnhancedCache.get md5 (cache self') key t1)
  = fst (EnhancedCache.get md5 (cache self) key t1).
Proof.
  intros Hr Hf.
  pose proof (route_task_optimized_cache _ _ _ _ _ _ Hr) as Hc.
  cbv zeta in Hc.
  assert (cache self'
          = snd (EnhancedCache.get md5 (cache self) (prompt task) (now w)))
    as ->.
  { destruct r as [[v | result] | e]; try exact Hc.
    now rewrite (Hf result eq_refl) in Hc. }
  apply get_preserves_reads.
Qed.

(** X17. [health_check] reports ['healthy'] exactly when the breaker does
    not refuse calls at the time of the check, the cache backend answers,
    and the average response time of the window is at most 5 seconds. *)
Theorem health_check_healthy_iff (self : t) (w : World) :
  fst (fst (health_check md5 self w)) = "healthy" <->
  fst (CircuitBreaker.is_open (circuit_breaker self) (now w)) = false /\
  (exists rows,
     EnhancedCache.backend (cache self) = EnhancedCache.Table rows) /\
  PerformanceMonitor.avg_response_time (monitor self) <= 5.
Proof.
  unfold health_check.
  destruct (CircuitBreaker.is_open (circuit_breaker self) (now w))
    as [is_op cb].
  cbn [cache set_circuit_breaker fst].
  pose proof (get_fst md5 (cache self) "health_check_test" (now w)) as Hg.
  destruct (EnhancedCache.get md5 (cache self) "health_check_test" (now w))
    as [got c]. cbn [fst] in Hg. subst got.
  cbn [monitor set_cache set_circuit_breaker].
  destruct (EnhancedCache.backend (cache self)) as [msg | rows];
    destruct (Qlt_le_dec 5 (PerformanceMonitor.avg_response_time (monitor self)))
      as [Hslow | Hfast];
    destruct is_op; cbn [fst]; split;
    try discriminate; try reflexivity;
    try (intros (H1 & (rows0 & H2) & H3); try discriminate; lra).
  intros _. repeat split; eauto.
Qed.

(** X18. A health check is not read-only: made more than the recovery
    timeout after the last failure of an open breaker, it moves the breaker
    to half-open and reports the component as ['closed']. *)
Theorem health_check_half_opens_breaker (self : t) (w : World) (lft : Q) :
  CircuitBreaker.state (circuit_breaker self) = CircuitBreaker.open ->
  CircuitBreaker.last_failure_time (circuit_breaker self) = Some lft ->
  ~ lft == 0 ->
  CircuitBreaker.recovery_timeout (circuit_breaker self) < now w - lft ->
  let '(status, components, self') := health_check md5 self w in
  CircuitBreaker.state (circuit_breaker self') = CircuitBreaker.half_open /\
  components !! 0%nat = Some ("circuit_breaker", "closed").
Proof.
  intros Hs Hl Hz Hlt. unfold health_check.
  rewrite (is_open_after _ _ _ Hs Hl Hz Hlt).
  destruct (EnhancedCache.get _ _ _ _) as [[got | e] c];
    destruct (Qlt_le_dec _ _); cbn; split; reflexivity.
Qed.

(** X27. A result with [success = False] is a success for the retry
    loop and for the breaker: when the call returns such a result instead
    of raising, it is returned after that one call, without a retry or a
    backoff sleep; the breaker runs its success branch, so that a half-open
    breaker closes on it; nothing is written to the cache, and the request
    is recorded as failed. *)
Theorem unsuccessful_result_passes_as_success (self : t) (task : Task)
    (w w2 : World) (result : AgentResult) :
  MoreSpec.let_through md5 self (prompt task) ->
  (0 < RetryHandler.max_retries (retry_handler self))%Z ->
  route_task task (snd (RateLimiter.acquire (rate_limiter self) w))
  = (Ok result, w2) ->
  success result = false ->
  exists self',
    route_task_optimized md5 route_task self task w
    = (Ok (Routed result), self', w2) /\
    circuit_breaker self'
    = CircuitBreaker.on_success (circuit_breaker self) /\
    CircuitBreaker.state (circuit_breaker self') = CircuitBreaker.closed /\
    EnhancedCache.backend (cache self') = EnhancedCache.backend (cache self) /\
    PerformanceMonitor.api_calls (monitor self')
    = PerformanceMonitor.deque_append
        (PerformanceMonitor.window_size (monitor self))
        (PerformanceMonitor.api_calls (monitor self))
        {| PerformanceMonitor.time := now w2;
           PerformanceMonitor.response_ms := (now w2 - now w) * 1000;
           PerformanceMonitor.success := false |}.
Proof.
  intros ((rows & Hb & Hn) & Hr & Hp & Hs) Hm Hcall Hfail.
  assert (Hg : EnhancedCache.get md5 (cache self) (prompt task) (now w)
               = (Ok None,
                  {| EnhancedCache.backend := EnhancedCache.Table rows;
                     EnhancedCache.ttl := EnhancedCache.ttl (cache self);
                     EnhancedCache.monitor :=
                       PerformanceMonitor.record_cache_miss
                         (EnhancedCache.monitor (cache self)) |})).
  { unfold EnhancedCache.get, EnhancedCache.select. now rewrite Hb, Hn. }
  rewrite (route_miss md5 route_task self task w _ None Hg eq_refl).
  pose proof (acquire_step (rate_limiter self) w Hr Hp) as Ha.
  cbv zeta in Ha.
  destruct (RateLimiter.acquire (rate_limiter self) w) as [[o rl] w1].
  destruct Ha as (-> & _). cbn [snd] in Hcall.
  rewrite call_not_open by assumption.
  unfold RetryHandler.execute_with_retry.
  destruct (Z.to_nat (RetryHandler.max_retries (retry_handler self)))
    as [| todo] eqn:Et; [lia |].
  rewrite attempts_S, Hcall. unfold conclude. rewrite Hfail.
  eexists. split; [reflexivity |].
  cbn [circuit_breaker cache monitor set_monitor set_cache set_rate_limiter
       set_circuit_breaker EnhancedCache.backend].
  split; [reflexivity |]. split.
  - unfold CircuitBreaker.on_success.
    destruct (CircuitBreaker.state (circuit_breaker self)) eqn:E;
      cbn; congruence.
  - split; [now rewrite Hb | reflexivity].
Qed.

End OrchestratorMore.

Lemma routed_result_is_served_from_cache_witness :
  let self := OptimizedOrchestrator.init 0 (EnhancedCache.Table ∅) in
  let task := {| id := "t1"; type_ := "test"; prompt := "wiggle";
                 file_path := None; timestamp := 0 |} in
  let fresh := {| success := true; agent_name := "WiggleAgent";
                  model_used := "SONNET"; output := "wiggle(5, 10)";
                  error := None; execution_time := 1; tokens_used := 10;
                  cost := 0 |} in
  let route_task (_ : Task) : IO AgentResult :=
    invoke (fun _ => (Ok fresh, 1)) in
  let w := {| now := 10; journal := [] |} in
  let first :=
    OptimizedOrchestrator.route_task_optimized (fun s => s) route_task
      self task w in
  let w2 := {| now := 3600; journal := journal (snd first) |} in
  exists self'',
    OptimizedOrchestrator.route_task_optimized (fun s => s) route_task
      (snd (fst first)) task w2
    = (Ok (OptimizedOrchestrator.Cached "wiggle(5, 10)"), self'', w2).
Proof.
  intros self task fresh route_task w first w2.
  apply (routed_result_is_served_from_cache (fun s => s) route_task
           self (snd (fst first)) task task w (snd first) w2 fresh).
  - vm_compute. reflexivity.
  - reflexivity.
  - discriminate.
  - reflexivity.
  - vm_compute. reflexivity.
Defined.

Lemma failed_call_leaves_cache_as_it_was_witness :
  let self := OptimizedOrchestrator.init 0 (EnhancedCache.Table ∅) in
  let task := {| id := "t1"; type_ := "test"; prompt := "wiggle";
                 file_path := None; timestamp := 0 |} in
  let route_task (_ : Task) : IO AgentResult :=
    invoke (fun _ => (Raise (Exception "503"), 1)) in
  let w := {| now := 10; journal := [] |} in
  let first :=
    OptimizedOrchestrator.route_task_optimized (fun s => s) route_task
      self task w in
  fst (EnhancedCache.get (fun s => s)
         (OptimizedOrchestrator.cache (snd (fst first))) "wiggle" 20)
  = fst (EnhancedCache.get (fun s => s)
           (OptimizedOrchestrator.cache self) "wiggle" 20).
Proof.
  intros self task route_task w first.
  apply (failed_call_leaves_cache_as_it_was (fun s => s) route_task
           self (snd (fst first)) task w (snd first) (fst (fst first))).
  - vm_compute. reflexivity.
  - vm_compute. discriminate.
Defined.

Lemma health_check_half_opens_breaker_witness :
  let self :=
    OptimizedOrchestrator.set_circuit_breaker
      (OptimizedOrchestrator.init 0 (EnhancedCache.Table ∅))
      {| CircuitBreaker.failure_threshold := 5;
         CircuitBreaker.recovery_timeout := 60;
         CircuitBreaker.failure_count := 5;
         CircuitBreaker.last_failure_time := Some 10;
         CircuitBreaker.state := CircuitBreaker.open |} in
  let w := {| now := 100; journal := [] |} in
  let '(status, components, self') :=
    OptimizedOrchestrator.health_check (fun s => s) self w in
  CircuitBreaker.state (OptimizedOrchestrator.circuit_breaker self')
  = CircuitBreaker.half_open /\
  components !! 0%nat = Some ("circuit_breaker", "closed").
Proof.
  intros self w.
  apply (health_check_half_opens_breaker (fun s => s) self w 10).
  - reflexivity.
  - reflexivity.
  - intros H. discriminate H.
  - vm_compute. reflexivity.
Defined.

Lemma unsuccessful_result_passes_as_success_witness :
  let self :=
    OptimizedOrchestrator.set_circuit_breaker
      (OptimizedOrchestrator.init 0 (EnhancedCache.Table ∅))
      {| CircuitBreaker.failure_threshold := 5;
         CircuitBreaker.recovery_timeout := 60;
         CircuitBreaker.failure_count := 5;
         CircuitBreaker.last_failure_time := Some 10;
         CircuitBreaker.state := CircuitBreaker.half_open |} in
  let task := {| id := "t1"; type_ := "test"; prompt := "wiggle";
                 file_path := None; timestamp := 0 |} in
  let failed := {| success := false; agent_name := "WiggleAgent";
                   model_used := "SONNET"; output := "";
                   error := Some "overloaded"; execution_time := 1;
                   tokens_used := 0; cost := 0 |} in
  let route_task (_ : Task) : IO AgentResult :=
    invoke (fun _ => (Ok failed, 1)) in
  let w := {| now := 100; journal := [] |} in
  let w2 := {| now := 101; journal := [EvInvoke 0] |} in
  exists self',
    OptimizedOrchestrator.route_task_optimized (fun s => s) route_task
      self task w
    = (Ok (OptimizedOrchestrator.Routed failed), self', w2) /\
    CircuitBreaker.state (OptimizedOrchestrator.circuit_breaker self')
    = CircuitBreaker.closed.
Proof.
  intros self task failed route_task w w2.
  destruct (unsuccessful_result_passes_as_success (fun s => s) route_task
              self task w w2 failed) as (self' & Hr & _ & Hc & _).
  - unfold MoreSpec.let_through. split; [| cbn; repeat split; try lia; discriminate].
    exists ∅. split; reflexivity.
  - cbn. lia.
  - vm_compute. reflexivity.
  - reflexivity.
  - exists self'. split; assumption.
Defined.

(** ** The half-open breaker on the event loop *)

Section LoopMore.

Import OptimizedOrchestrator MoreSpec.

Variable md5 : string -> string.




End LoopMore.


(** ** BatchProcessor: the window of a flush *)

Section BatchMore.

Import BatchProcessor BatchSpec MoreSpec.

Lemma wait_journal (target : Q) (w : World) :
  journal (wait target w) = journal w.
Proof. unfold wait. now destruct (Qlt_le_dec _ _). Qed.

Lemma wait_now (target : Q) (w : World) :
  (now w < target -> now (wait target w) = target) /\
  (target <= now w -> wait target w = w).
Proof.
  unfold wait. destruct (Qlt_le_dec (now w) target); split; intros;
    try reflexivity; lra.
Qed.

(** The loop of [process_batch], from any iteration that starts before the
    deadline with room in the batch. *)
Lemma collect_window (self : t) (start_time : Q) (q : list (Q * Task)) :
  forall (fuel : nat) (batch : list Task) (w : World),
    (length q < fuel)%nat ->
    now w < start_time + batch_timeout self ->
    (batch = [] \/ (Z.of_nat (length batch) < batch_size self)%Z) ->
    let k := (capacity self - length batch)%nat in
    let taken := take k (in_time (start_time + batch_timeout self) q) in
    exists w',
      collect fuel self start_time batch q w
      = (batch ++ map snd taken, drop (length taken) q, w') /\
      journal w' = journal w /\
      now w <= now w' /\
      ((length taken < k)%nat -> now w' == start_time + batch_timeout self) /\
      (length taken = k -> now w' < start_time + batch_timeout self).
Proof.
  induction q as [| [put_at task] q IH]; intros fuel batch w Hf Hn Hb;
    cbv zeta; unfold capacity in *;
    remember (Z.to_nat (Z.max 1 (batch_size self)) - length batch)%nat
      as k eqn:Ek.
  - destruct fuel as [| fuel]; [cbn in Hf; lia |]. cbn [collect].
    destruct (Qlt_le_dec 0 _) as [Ht | Ht]; [| lra].
    cbn [in_time]. rewrite take_nil. cbn [map length drop].
    rewrite app_nil_r. eexists. split; [reflexivity |].
    rewrite wait_journal. split; [reflexivity |].
    destruct (wait_now (now w + (batch_timeout self - (now w - start_time))) w)
      as [Hw _].
    rewrite Hw by lra. cbn. repeat split; intros; try lra.
    destruct Hb as [-> | Hb]; cbn [length] in *; lia.
  - destruct fuel as [| fuel]; [cbn in Hf; lia |]. cbn [length] in Hf.
    cbn [collect].
    destruct (Qlt_le_dec 0 _) as [Ht | Ht]; [| lra].
    assert (Hk : (1 <= k)%nat).
    { destruct Hb as [-> | Hb]; cbn [length] in *; lia. }
    destruct (Qlt_le_dec put_at _) as [Hp | Hp].
    + assert (Hw1 : now (wait put_at w) < start_time + batch_timeout self /\
                    now w <= now (wait put_at w)).
      { destruct (wait_now put_at w) as [Ha Hb'].
        destruct (Qlt_le_dec (now w) put_at) as [Hlt | Hge].
        - rewrite (Ha Hlt). split; lra.
        - rewrite (Hb' Hge). split; lra. }
      destruct Hw1 as [Hw1 Hw2].
      cbn [in_time].
      destruct (Qlt_le_dec put_at (start_time + batch_timeout self))
        as [_ | Hge]; [| lra].
      destruct k as [| k']; [lia |]. cbn [take map length drop].
      rewrite length_app. cbn [length].
      destruct (Z.leb_spec (batch_size self) (Z.of_nat (length batch + 1)))
        as [Hfull | Hroom].
      * assert (k' = O) as ->.
        { destruct Hb as [-> | Hb]; cbn [length] in *; lia. }
        rewrite take_0. cbn [map length drop].
        eexists. split; [reflexivity |]. rewrite wait_journal.
        repeat split; intros; try assumption; try lia.
      * destruct (IH fuel (batch ++ [task]) (wait put_at w))
          as (w' & Hc & Hj & Hle & Hshort & Hfullk); try lia; try assumption.
        { right. rewrite length_app. cbn [length]. lia. }
        rewrite length_app in *. cbn [length] in *.
        replace (Z.to_nat (Z.max 1 (batch_size self)) - (length batch + 1))%nat
          with k' in * by lia.
        exists w'. rewrite Hc. rewrite <- app_assoc. cbn [app].
        split; [reflexivity |]. rewrite Hj, wait_journal.
        split; [reflexivity |]. split; [lra |].
        split; intros; [apply Hshort | apply Hfullk]; lia.
    + cbn [in_time].
      destruct (Qlt_le_dec put_at (start_time + batch_timeout self))
        as [Hlt | _]; [lra |].
      rewrite take_nil. cbn [map length drop]. rewrite app_nil_r.
      eexists. split; [reflexivity |]. rewrite wait_journal.
      split; [reflexivity |].
      destruct (wait_now (now w + (batch_timeout self - (now w - start_time))) w)
        as [Hw _].
      rewrite Hw by lra. cbn. repeat split; intros; try lra. lia.
Qed.

Lemma collect_from_start (self : t) (w : World) :
  0 < batch_timeout self ->
  let win := expected_window self (now w) in
  exists w1,
    collect (S (length (queue self))) (set_processing self true) (now w) []
      (queue self) w
    = (map snd win, drop (length win) (queue self), w1) /\
    journal w1 = journal w /\
    now w <= now w1 /\
    ((length win < capacity self)%nat -> now w1 == now w + batch_timeout self) /\
    (length win = capacity self -> now w1 < now w + batch_timeout self).
Proof.
  intros Hbt win.
  destruct (collect_window (set_processing self true) (now w) (queue self)
              (S (length (queue self))) [] w) as (w1 & Hc & H);
    [lia | cbn; lra | now left |].
  cbn [length app] in Hc, H. rewrite Nat.sub_0_r in Hc, H.
  exists w1. split; [exact Hc | exact H].
Qed.

(** X20. The window of a flush, read off the queue: [process_batch] takes
    the items at the head of the queue that are put before
    [start + batch_timeout], at most [batch_size] of them (one when
    [batch_size] is below one), in queue order; the rest of the queue is
    left as it is, and the result is [None] exactly when the window is
    empty. *)
Theorem batch_window_is_timely_prefix {R : Type} (single : Task -> IO R)
    (self : t) (w : World) :
  0 < batch_timeout self ->
  let win := expected_window self (now w) in
  fst (window self w) = map snd win /\
  exists res w',
    process_batch single self w
    = (res, set_processing (set_queue self (drop (length win) (queue self)))
              false, w') /\
    (res = None <-> win = []).
Proof.
  intros Hbt win.
  destruct (collect_from_start self w Hbt) as (w1 & Hc & _).
  fold win in Hc. split.
  - unfold window. cbn [queue set_processing] in *. now rewrite Hc.
  - unfold process_batch. cbn [queue set_processing] in *. rewrite Hc.
    destruct win as [| [p task] win'] eqn:Ew; cbn [map].
    + eexists _, _. split; [reflexivity |]. split; reflexivity.
    + destruct (gather _ w1) as [results w2].
      eexists _, _. split; [reflexivity |]. split; discriminate.
Qed.

(** X21. When a flush happens: a window that fills up is flushed before
    the timeout has run out, at the moment its last item is taken; a window
    that does not fill up is flushed exactly [batch_timeout] after
    [process_batch] started, however early its items were queued. Nothing
    is slept or invoked while collecting. *)
Theorem short_window_waits_for_timeout (self : t) (w : World) :
  0 < batch_timeout self ->
  (0 < batch_size self)%Z ->
  let '(batch, w1) := window self w in
  journal w1 = journal w /\
  ((Z.of_nat (length batch) < batch_size self)%Z ->
   now w1 == now w + batch_timeout self) /\
  ((batch_size self <= Z.of_nat (length batch))%Z ->
   now w <= now w1 /\ now w1 < now w + batch_timeout self).
Proof.
  intros Hbt Hbs.
  destruct (collect_from_start self w Hbt)
    as (w1 & Hc & Hj & Hle & Hshort & Hfull).
  unfold window. cbn [queue set_processing] in *. rewrite Hc.
  rewrite length_map.
  assert (Hcap : (length (expected_window self (now w)) <= capacity self)%nat).
  { unfold expected_window. rewrite length_take. lia. }
  unfold capacity in *.
  split; [exact Hj |]. split; intros H.
  - apply Hshort. lia.
  - split; [exact Hle |]. apply Hfull. lia.
Qed.

(** X22. With [batch_timeout <= 0] a flush takes nothing: [process_batch]
    returns [None] at once and leaves the queue and the clock as they
    are, whatever is queued. *)
Theorem nonpositive_timeout_collects_nothing {R : Type}
    (single : Task -> IO R) (self : t) (w : World) :
  batch_timeout self <= 0 ->
  process_batch single self w = (None, set_processing self false, w).
Proof.
  intros Hbt. unfold process_batch. cbn [collect].
  destruct (Qlt_le_dec 0 _) as [Hlt | _]; [cbn in Hlt; lra |].
  reflexivity.
Qed.

(** X23. A flush does not raise and drops no result: whatever
    [process_single] does for each item, also when it raises for every
    one of them, a flush with a non-empty window returns one result per
    item of the window and resets [processing]. *)
Theorem process_batch_contains_failures {R : Type} (single : Task -> IO R)
    (self : t) (w : World) :
  0 < batch_timeout self ->
  expected_window self (now w) <> [] ->
  exists results self' w',
    process_batch single self w = (Some results, self', w') /\
    length results = length (expected_window self (now w)) /\
    processing self' = false.
Proof.
  intros Hbt Hne.
  destruct (collect_from_start self w Hbt) as (w1 & Hc & _).
  pose proof (process_batch_window single self w) as Hw.
  unfold window in Hw. cbn [queue set_processing] in *. rewrite Hc in Hw.
  destruct Hw as (self' & Hp & Hproc).
  { destruct (expected_window self (now w)); [congruence | discriminate]. }
  eexists _, self', _. split; [exact Hp |]. split; [| exact Hproc].
  now rewrite gather_length, !length_map.
Qed.



End BatchMore.

Lemma batch_window_is_timely_prefix_witness :
  let task := {| id := "1"; type_ := "test"; prompt := "wiggle";
                 file_path := None; timestamp := 0 |} in
  let self := {| BatchProcessor.batch_size := 2;
                 BatchProcessor.batch_timeout := 2;
                 BatchProcessor.queue := [(0, task); (1, task); (1, task)];
                 BatchProcessor.processing := false |} in
  let w := {| now := 0; journal := [] |} in
  fst (BatchSpec.window self w)
  = map snd (MoreSpec.expected_window self (now w)).
Proof.
  intros task self w.
  apply (batch_window_is_timely_prefix BatchProcessor.process_single self w).
  unfold Qlt. cbn. lia.
Defined.

Lemma short_window_waits_for_timeout_witness :
  let task := {| id := "1"; type_ := "test"; prompt := "wiggle";
                 file_path := None; timestamp := 0 |} in
  let self := {| BatchProcessor.batch_size := 5;
                 BatchProcessor.batch_timeout := 2;
                 BatchProcessor.queue := [(0, task)];
                 BatchProcessor.processing := false |} in
  let w := {| now := 0; journal := [] |} in
  let '(batch, w1) := BatchSpec.window self w in
  journal w1 = journal w /\
  ((Z.of_nat (length batch) < BatchProcessor.batch_size self)%Z ->
   now w1 == now w + BatchProcessor.batch_timeout self) /\
  ((BatchProcessor.batch_size self <= Z.of_nat (length batch))%Z ->
   now w <= now w1 /\ now w1 < now w + BatchProcessor.batch_timeout self).
Proof.
  intros task self w.
  apply (short_window_waits_for_timeout self w).
  - unfold Qlt. cbn. lia.
  - cbn. lia.
Defined.

Lemma nonpositive_timeout_collects_nothing_witness :
  let task := {| id := "1"; type_ := "test"; prompt := "wiggle";
                 file_path := None; timestamp := 0 |} in
  let self := {| BatchProcessor.batch_size := 5;
                 BatchProcessor.batch_timeout := 0;
                 BatchProcessor.queue := [(0, task)];
                 BatchProcessor.processing := false |} in
  let w := {| now := 0; journal := [] |} in
  BatchProcessor.process_batch BatchProcessor.process_single self w
  = (None, BatchProcessor.set_processing self false, w).
Proof.
  intros task self w.
  apply (nonpositive_timeout_collects_nothing
           BatchProcessor.process_single self w).
  unfold Qle. cbn. lia.
Defined.

Lemma process_batch_contains_failures_witness :
  let task := {| id := "1"; type_ := "test"; prompt := "wiggle";
                 file_path := None; timestamp := 0 |} in
  let self := {| BatchProcessor.batch_size := 5;
                 BatchProcessor.batch_timeout := 2;
                 BatchProcessor.queue := [(0, task); (1, task)];
                 BatchProcessor.processing := false |} in
  let w := {| now := 0; journal := [] |} in
  let single (_ : Task) : IO unit := throw (Exception "boom") in
  exists results self' w',
    BatchProcessor.process_batch single self w = (Some results, self', w') /\
    length results = length (MoreSpec.expected_window self (now w)) /\
    BatchProcessor.processing self' = false.
Proof.
  intros task self w single.
  apply (process_batch_contains_failures single self w).
  - unfold Qlt. cbn. lia.
  - vm_compute. discriminate.
Defined.


(** ** Debouncer: the bookkeeping of [pending_tasks] *)

Section DebouncerMore.

Import Debouncer DebounceSpec.

Context {R : Type}.


(** X26. Debouncing is per key: in every state the debouncer goes
    through, an event for [k] leaves every task of another key as it is,
    waiting timers included, and the entries of the other keys unchanged. *)
Theorem debounce_is_per_key (self : t R) (k : string) (func : IO R)
    (w : World) (i : nat) (tm : Timer R) :
  reachable self ->
  tasks self !! i = Some tm ->
  key tm <> k ->
  let self' := fst (debounce self k func w) in
  tasks self' !! i = Some tm /\
  pending_tasks self' !! key tm = pending_tasks self !! key tm.
Proof.
  intros Hr Hl Hk self'. apply reachable_consistent in Hr.
  destruct Hr as [_ Hkey]. subst self'. unfold debounce.
  cbn [fst tasks pending_tasks]. split.
  - destruct (pending_tasks self !! k) as [j |] eqn:Hp.
    + destruct (Hkey k j Hp) as (tmj & Hj & Hkj).
      assert (Hne : j <> i) by (intros ->; congruence).
      rewrite lookup_app_l
        by (rewrite length_alter; eapply lookup_lt_Some; eauto).
      now rewrite list_lookup_alter_ne.
    + rewrite lookup_app_l by (eapply lookup_lt_Some; eauto). exact Hl.
  - apply lookup_insert_ne. congruence.
Qed.

End DebouncerMore.


Lemma debounce_is_per_key_witness :
  let w := {| now := 0; journal := [] |} in
  let f : IO nat := invoke (fun _ => (Ok 1%nat, 0)) in
  let self := fst (Debouncer.debounce (Debouncer.init (1 # 2))
                     "a.aep" f w) in
  let tm := {| Debouncer.key := "a.aep"; Debouncer.wake := 0 + (1 # 2);
               Debouncer.callee := f;
               Debouncer.status := Debouncer.Sleeping |} in
  let self' := fst (Debouncer.debounce self "b.aep" f w) in
  Debouncer.tasks self' !! 0%nat = Some tm /\
  Debouncer.pending_tasks self' !! "a.aep"
  = Debouncer.pending_tasks self !! "a.aep".
Proof.
  intros w f self tm.
  apply (debounce_is_per_key self "b.aep" f w 0 tm).
  - apply DebounceSpec.reach_debounce. apply DebounceSpec.reach_init.
  - reflexivity.
  - discriminate.
Defined.

(** ** The agent layer: results instead of exceptions *)

Section AgentLayer.

Import MoreSpec.

Variable sha256 : string -> string.
Variable create : string -> string -> IO BaseAgent.Response.
Variable check_patterns :
  Orchestrator.t -> World -> Outcome unit * Orchestrator.t * World.

(** With its database available, [execute] returns a result whatever the
    client and the prompt builder do. *)
Lemma execute_total (self : BaseAgent.t) (rows : gmap string AdvancedCache.Row)
    (task : Task) (w : World) :
  exists result self' rows' w',
    BaseAgent.execute sha256 create self (AdvancedCache.Table rows) task w
    = (Ok result, self', AdvancedCache.Table rows', w') /\
    agent_name result = BaseAgent.name self /\
    (success result = false -> is_Some (error result)).
Proof.
  unfold BaseAgent.execute, AdvancedCache.get.
  destruct (rows !! _) as [r |].
  - destruct (Qlt_le_dec _ _).
    + destruct (OptimizedOrchestrator.truthy (Some (AdvancedCache.response r))).
      * eexists _, _, _, _. split; [reflexivity |]. cbn. split; [reflexivity |].
        discriminate.
      * destruct (BaseAgent.create_prompt self task) as [p | e].
        -- destruct (create _ p w) as [[resp | e] w1]; cbn;
             eexists _, _, _, _; (split; [reflexivity |]); cbn;
             (split; [reflexivity |]); eauto; discriminate.
        -- eexists _, _, _, _. split; [reflexivity |]. cbn. eauto.
    + cbn [OptimizedOrchestrator.truthy].
      destruct (BaseAgent.create_prompt self task) as [p | e].
      * destruct (create _ p w) as [[resp | e] w1]; cbn;
          eexists _, _, _, _; (split; [reflexivity |]); cbn;
          (split; [reflexivity |]); eauto; discriminate.
      * eexists _, _, _, _. split; [reflexivity |]. cbn. eauto.
  - cbn [OptimizedOrchestrator.truthy].
    destruct (BaseAgent.create_prompt self task) as [p | e].
    + destruct (create _ p w) as [[resp | e] w1]; cbn;
        eexists _, _, _, _; (split; [reflexivity |]); cbn;
        (split; [reflexivity |]); eauto; discriminate.
    + eexists _, _, _, _. split; [reflexivity |]. cbn. eauto.
Qed.

Lemma route_task_total (base : Orchestrator.t) (task : Task) (w : World)
    (rows : gmap string AdvancedCache.Row) :
  Orchestrator.db base = AdvancedCache.Table rows ->
  no_check_due base ->
  exists result base' w',
    Orchestrator.route_task sha256 create check_patterns base task w
    = (Ok result, base', w') /\
    Orchestrator.task_history base' = Orchestrator.task_history base ++ [task] /\
    (success result = false -> is_Some (error result)) /\
    ((forall a, a ∈ Orchestrator.agents base ->
                BaseAgent.can_handle a task = false) ->
     result = Orchestrator.no_agent /\ w' = w).
Proof.
  intros Hdb Hn. unfold Orchestrator.route_task.
  cbn [Orchestrator.task_history Orchestrator.agents Orchestrator.db
       Orchestrator.stats].
  rewrite length_app. cbn [length].
  destruct (Nat.eqb_spec ((length (Orchestrator.task_history base) + 1) mod 20) 0)
    as [E | _]; [now apply Hn in E |].
  cbn [Orchestrator.task_history Orchestrator.agents Orchestrator.db
       Orchestrator.stats].
  destruct (list_find _ (Orchestrator.agents base)) as [[i a] |] eqn:Hf.
  - rewrite Hdb.
    destruct (execute_total a rows task w)
      as (result & a' & rows' & w' & He & _ & Herr).
    rewrite He. eexists _, _, _. split; [reflexivity |].
    cbn. split; [reflexivity |]. split; [exact Herr |].
    intros Hnone. apply list_find_Some in Hf. destruct Hf as (Hi & Hc & _).
    apply list_elem_of_lookup_2 in Hi. rewrite (Hnone a Hi) in Hc.
    discriminate.
  - eexists _, _, _. split; [reflexivity |]. cbn.
    split; [reflexivity |]. split; [eauto |]. auto.
Qed.

(** X28. [Orchestrator.route_task] answers failures with results: with
    the agents' database available and no pattern check due, it returns a
    result whatever the API client does, also when the client raises; a
    result without [success] carries an error text, and when no agent can
    handle the task the result is the "no agent" failure and nothing has
    been called. *)
Theorem route_task_never_raises (base : Orchestrator.t) (task : Task)
    (w : World) (rows : gmap string AdvancedCache.Row) :
  Orchestrator.db base = AdvancedCache.Table rows ->
  no_check_due base ->
  exists result base' w',
    Orchestrator.route_task sha256 create check_patterns base task w
    = (Ok result, base', w') /\
    Orchestrator.task_history base' = Orchestrator.task_history base ++ [task] /\
    (success result = false -> is_Some (error result)) /\
    ((forall a, a ∈ Orchestrator.agents base ->
                BaseAgent.can_handle a task = false) ->
     result = Orchestrator.no_agent /\ w' = w).
Proof. apply route_task_total. Qed.

Lemma truthy_nonempty (v : string) :
  v <> "" -> OptimizedOrchestrator.truthy (Some v) = true.
Proof. destruct v; [congruence | reflexivity]. Qed.

Lemma execute_hit (self : BaseAgent.t) (rows : gmap string AdvancedCache.Row)
    (r : AdvancedCache.Row) (task : Task) (w : World) :
  rows !! AdvancedCache.get_cache_key sha256 (prompt task) (BaseAgent.name self)
  = Some r ->
  8 # 10 < AdvancedCache.quality_score r ->
  AdvancedCache.response r <> "" ->
  BaseAgent.execute sha256 create self (AdvancedCache.Table rows) task w
  = (Ok {| success := true; agent_name := BaseAgent.name self;
           model_used := "cache"; output := AdvancedCache.response r;
           error := None; execution_time := now w - now w;
           tokens_used := 0; cost := 0 |},
     self,
     AdvancedCache.Table
       (alter AdvancedCache.bump
          (AdvancedCache.get_cache_key sha256 (prompt task)
             (BaseAgent.name self)) rows),
     w).
Proof.
  intros Hl Hq Hv. unfold BaseAgent.execute, AdvancedCache.get. rewrite Hl.
  destruct (Qlt_le_dec _ _) as [_ | Hle]; [| lra].
  now rewrite truthy_nonempty by assumption.
Qed.

(** X30. An agent answers a repeated prompt from its own cache: after
    [execute] has returned a successful result with a non-empty output, a
    later [execute] of the same agent for the same prompt returns that
    output as a result with [model_used = "cache"] and cost 0, without
    calling the API, however much later it is made: entries of this cache
    do not expire. *)
Theorem agent_answers_repeat_from_cache (self self' : BaseAgent.t)
    (db db' : AdvancedCache.t) (task task2 : Task) (w w' w2 : World)
    (result : AgentResult) :
  BaseAgent.execute sha256 create self db task w = (Ok result, self', db', w') ->
  success result = true ->
  output result <> "" ->
  prompt task2 = prompt task ->
  exists db'',
    BaseAgent.execute sha256 create self' db' task2 w2
    = (Ok {| success := true; agent_name := BaseAgent.name self;
             model_used := "cache"; output := output result;
             error := None; execution_time := now w2 - now w2;
             tokens_used := 0; cost := 0 |},
       self', db'', w2).
Proof.
  intros He Hs Ho Hp.
  unfold BaseAgent.execute, AdvancedCache.get in He.
  destruct db as [msg | rows]; [discriminate |].
  assert (Hfresh :
    forall (db1 : AdvancedCache.t) (rows1 : gmap string AdvancedCache.Row),
      db1 = AdvancedCache.Table rows1 ->
      match BaseAgent.create_prompt self task with
      | Ok p =>
          match create (BaseAgent.value (BaseAgent.preferred_model self)) p w with
          | (Ok resp, w1) =>
              let tokens :=
                (BaseAgent.input_tokens resp + BaseAgent.output_tokens resp)%Z in
              let cost :=
                BaseAgent.calculate_cost tokens (BaseAgent.preferred_model self) in
              let self1 :=
                {| BaseAgent.name := BaseAgent.name self;
                   BaseAgent.preferred_model := BaseAgent.preferred_model self;
                   BaseAgent.can_handle := BaseAgent.can_handle self;
                   BaseAgent.create_prompt := BaseAgent.create_prompt self;
                   BaseAgent.execution_count :=
                     (BaseAgent.execution_count self + 1)%Z;
                   BaseAgent.total_tokens :=
                     (BaseAgent.total_tokens self + tokens)%Z;
                   BaseAgent.total_cost := BaseAgent.total_cost self + cost |} in
              match AdvancedCache.store sha256 db1 (prompt task)
                      (BaseAgent.text resp) (BaseAgent.name self)
                      (BaseAgent.value (BaseAgent.preferred_model self)) 1
                      (now w1) with
              | (Ok _, db2) =>
                  (Ok {| success := true; agent_name := BaseAgent.name self;
                         model_used :=
                           BaseAgent.name_of (BaseAgent.preferred_model self);
                         output := BaseAgent.text resp; error := None;
                         execution_time := now w1 - now w;
                         tokens_used := tokens; cost := cost |},
                   self1, db2, w1)
              | (Raise e, db2) =>
                  (Ok (BaseAgent.failed self1 (now w) e w1), self1, db2, w1)
              end
          | (Raise e, w1) => (Ok (BaseAgent.failed self (now w) e w1), self, db1, w1)
          end
      | Raise e => (Ok (BaseAgent.failed self (now w) e w), self, db1, w)
      end = (Ok result, self', db', w') ->
      exists db'',
        BaseAgent.execute sha256 create self' db' task2 w2
        = (Ok {| success := true; agent_name := BaseAgent.name self;
                 model_used := "cache"; output := output result;
                 error := None; execution_time := now w2 - now w2;
                 tokens_used := 0; cost := 0 |},
           self', db'', w2)).
  { intros db1 rows1 -> H.
    destruct (BaseAgent.create_prompt self task) as [p | e];
      [| injection H as <- <- <- <-; discriminate].
    destruct (create _ p w) as [[resp | e] w1];
      [| injection H as <- <- <- <-; discriminate].
    cbn in H. injection H as <- <- <- <-. cbn [output] in *.
    eexists.
    rewrite (execute_hit _ _
               {| AdvancedCache.prompt := prompt task;
                  AdvancedCache.response := BaseAgent.text resp;
                  AdvancedCache.model :=
                    BaseAgent.value (BaseAgent.preferred_model self);
                  AdvancedCache.agent := BaseAgent.name self;
                  AdvancedCache.timestamp := now w1;
                  AdvancedCache.hit_count := 0;
                  AdvancedCache.quality_score := 1 |}).
    - reflexivity.
    - cbn [BaseAgent.name]. rewrite Hp. apply lookup_insert_eq.
    - reflexivity.
    - exact Ho. }
  destruct (rows !! _) as [r |] eqn:Hl.
  - destruct (Qlt_le_dec _ _) as [Hq | Hq].
    + destruct (OptimizedOrchestrator.truthy (Some (AdvancedCache.response r)))
        eqn:Ht.
      * injection He as <- <- <- <-. cbn [output default] in *.
        eexists. rewrite (execute_hit _ _ (AdvancedCache.bump r)).
        -- reflexivity.
        -- rewrite Hp, lookup_alter_eq, Hl. reflexivity.
        -- exact Hq.
        -- exact Ho.
      * eapply Hfresh; [reflexivity | exact He].
    + cbn [OptimizedOrchestrator.truthy] in He.
      now apply (Hfresh (AdvancedCache.Table rows) rows).
  - cbn [OptimizedOrchestrator.truthy] in He.
    now apply (Hfresh (AdvancedCache.Table rows) rows).
Qed.

End AgentLayer.

Section OverTheAgents.

Import OptimizedOrchestrator MoreSpec.

Variable md5 : string -> string.


Variable sha256 : string -> string.
Variable create : string -> string -> IO BaseAgent.Response.
Variable check_patterns :
  Orchestrator.t -> World -> Outcome unit * Orchestrator.t * World.


End OverTheAgents.

Lemma route_task_never_raises_witness :
  let wiggle :=
    {| BaseAgent.name := "WiggleAgent";
       BaseAgent.preferred_model := BaseAgent.SONNET;
       BaseAgent.can_handle :=
         fun task => Orchestrator.contains "wiggle" (prompt task);
       BaseAgent.create_prompt := fun task => Ok (prompt task);
       BaseAgent.execution_count := 0; BaseAgent.total_tokens := 0;
       BaseAgent.total_cost := 0 |} in
  let base :=
    {| Orchestrator.agents := [wiggle];
       Orchestrator.db := AdvancedCache.Table ∅;
       Orchestrator.task_history := [];
       Orchestrator.stats :=
         {| Orchestrator.total_tasks := 0; Orchestrator.opus_calls := 0;
            Orchestrator.sonnet_calls := 0; Orchestrator.cache_hits := 0;
            Orchestrator.total_cost := 0; Orchestrator.agents_created := 0 |} |} in
  let task := {| id := "t1"; type_ := "test"; prompt := "wiggle it";
                 file_path := None; timestamp := 0 |} in
  let create (_ _ : string) : IO BaseAgent.Response :=
    invoke (fun _ => (Raise (ServiceError "overloaded"), 1)) in
  let w := {| now := 0; journal := [] |} in
  exists result base' w',
    Orchestrator.route_task (fun s => s) create (fun s u => (Ok tt, s, u))
      base task w
    = (Ok result, base', w').
Proof.
  intros wiggle base task create w.
  destruct (route_task_never_raises (fun s => s) create
              (fun s u => (Ok tt, s, u)) base task w ∅)
    as (result & base' & w' & H & _).
  - reflexivity.
  - unfold MoreSpec.no_check_due. cbn. lia.
  - exists result, base', w'. exact H.
Defined.


Lemma agent_answers_repeat_from_cache_witness :
  let wiggle :=
    {| BaseAgent.name := "WiggleAgent";
       BaseAgent.preferred_model := BaseAgent.SONNET;
       BaseAgent.can_handle :=
         fun task => Orchestrator.contains "wiggle" (prompt task);
       BaseAgent.create_prompt := fun task => Ok (prompt task);
       BaseAgent.execution_count := 0; BaseAgent.total_tokens := 0;
       BaseAgent.total_cost := 0 |} in
  let task := {| id := "t1"; type_ := "test"; prompt := "wiggle it";
                 file_path := None; timestamp := 0 |} in
  let create (_ _ : string) : IO BaseAgent.Response :=
    invoke (fun _ => (Ok {| BaseAgent.text := "wiggle(5, 10)";
                            BaseAgent.input_tokens := 10;
                            BaseAgent.output_tokens := 20 |}, 1)) in
  let w := {| now := 0; journal := [] |} in
  let first :=
    BaseAgent.execute (fun s => s) create wiggle (AdvancedCache.Table ∅)
      task w in
  let w2 := {| now := 1000000; journal := journal (snd first) |} in
  exists db'',
    BaseAgent.execute (fun s => s) create (snd (fst (fst first)))
      (snd (fst first)) task w2
    = (Ok {| success := true; agent_name := "WiggleAgent";
             model_used := "cache"; output := "wiggle(5, 10)";
             error := None; execution_time := now w2 - now w2;
             tokens_used := 0; cost := 0 |},
       snd (fst (fst first)), db'', w2).
Proof.
  intros wiggle task create w first w2.
  apply (agent_answers_repeat_from_cache (fun s => s) create wiggle
           (snd (fst (fst first))) (AdvancedCache.Table ∅) (snd (fst first))
           task task w (snd first) w2
           {| success := true; agent_name := "WiggleAgent";
              model_used := "SONNET"; output := "wiggle(5, 10)";
              error := None; execution_time := 1 - 0;
              tokens_used := 30;
              cost := BaseAgent.calculate_cost 30 BaseAgent.SONNET |}).
  - reflexivity.
  - reflexivity.
  - discriminate.
  - reflexivity.
Defined.
